(** * postgresql_help: version comparison and diff highlighting

    A shallow embedding of [src/app/app.py] (the Flask application that
    compares the help texts of several PostgreSQL versions) together with
    the parts of the Python runtime it calls: [str.splitlines],
    [str.join], [str.replace], ordered dictionaries and
    [difflib.Differ] (CPython 3.11). The functions
    [get_postgresql_versions] and [index], which list the version
    directories, are embedded over a parameter that stands for the
    floating-point numbers and for the function [float].

    Conventions of the embedding.
    - A Python [str] is the list of its code points ([list N]).
    - Python integers that are used as indices are natural numbers; a
      subtraction that the source performs before an addition
      ([i-k+1]) is written with the addition first ([i+1-k]).
    - A dictionary whose iteration order the program observes is an
      insertion-ordered association list ([odict]); a dictionary that is
      only read by key, and a set, are [gmap] and [gset].
    - A [for] loop over [range] or over a list is a [foldl]; a [while]
      loop is a [Fixpoint] over a bound computed from its guard, and each
      such bound is proved sufficient.
    - Indexing that cannot fail in the source ([versions[i]] inside
      [range(len(versions))], [d[k]] for [k] taken from [d.keys()]) is a
      total lookup.
    - The limits of the interpreter (recursion depth, memory) are not
      part of the embedding. *)

From Stdlib Require Import String Ascii QArith.
From stdpp Require Import gmap list sorting.

Local Open Scope nat_scope.
Local Open Scope list_scope.

(** ** Python strings *)

Abbreviation str := (list N).

(** An ASCII literal as a Python string. *)
Definition lit (s : string) : str :=
  (λ c, N_of_ascii c) <$> list_ascii_of_string s.

(** The double-quote character (code point 34). *)
Definition dq : str := [34%N].

(** The newline character as a string. *)
Definition nl : str := [10%N].

(** [s.startswith(p)] *)
Definition startswith (s p : str) : bool :=
  bool_decide (take (length p) s = p).

(** The line boundaries of [str.splitlines]: LF, VT, FF, CR, FS, GS, RS,
    NEL, LS and PS. *)
Definition is_linebreak (c : N) : bool :=
  bool_decide (c ∈ [10; 11; 12; 13; 28; 29; 30; 133; 8232; 8233]%N).

(** [s.splitlines()]: [cur] is the line being scanned. A CR directly
    followed by LF is one boundary; a boundary at the very end of the
    text does not open a further line. *)
Fixpoint splitlines_from (cur s : str) : list str :=
  match s with
  | [] => match cur with [] => [] | _ => [cur] end
  | c :: s' =>
      if is_linebreak c then
        match s' with
        | c' :: s'' =>
            if bool_decide (c = 13%N) && bool_decide (c' = 10%N)
            then cur :: splitlines_from [] s''
            else cur :: splitlines_from [] s'
        | [] => [cur]
        end
      else splitlines_from (cur ++ [c]) s'
  end.

Definition splitlines (s : str) : list str := splitlines_from [] s.

(** [sep.join(l)] *)
Fixpoint join (sep : str) (l : list str) : str :=
  match l with
  | [] => []
  | [x] => x
  | x :: l' => x ++ sep ++ join sep l'
  end.

(** [s.replace(old, new)] for a non-empty [old] and the empty string as
    [new]: [skip] counts the characters of a match that are still to be
    dropped. *)
Fixpoint remove_all_from (old : str) (skip : nat) (s : str) : str :=
  match s with
  | [] => []
  | c :: s' =>
      match skip with
      | S n => remove_all_from old n s'
      | 0 =>
          if startswith s old
          then remove_all_from old (length old - 1) s'
          else c :: remove_all_from old 0 s'
      end
  end.

Definition remove_all (old s : str) : str := remove_all_from old 0 s.

(** [c.isspace()] *)
Definition isspace (c : N) : bool :=
  ((9 <=? c) && (c <=? 13) || (28 <=? c) && (c <=? 32)
   || (c =? 133) || (c =? 160) || (c =? 5760)
   || (8192 <=? c) && (c <=? 8202) || (c =? 8232) || (c =? 8233)
   || (c =? 8239) || (c =? 8287) || (c =? 12288))%N.

(** [s.lstrip()] and [s.rstrip()] *)
Fixpoint lstrip (s : str) : str :=
  match s with
  | c :: s' => if isspace c then lstrip s' else s
  | [] => []
  end.

Definition rstrip (s : str) : str := reverse (lstrip (reverse s)).

(** The order of [str] under [<=]: lexicographic on code points. *)
Fixpoint str_leb (s t : str) : bool :=
  match s, t with
  | [], _ => true
  | _ :: _, [] => false
  | c :: s', d :: t' => (c <? d)%N || (c =? d)%N && str_leb s' t'
  end.

Definition str_le (s t : str) : Prop := str_leb s t = true.

Global Instance str_le_dec : RelDecision str_le.
Proof. intros s t. unfold str_le. apply _. Defined.

(** [range(lo, hi)] *)
Definition range (lo hi : nat) : list nat := seq lo (hi - lo).

(** [s.split(sep)] for a separator of one character ([sep] is its code
    point); [cur] is the field being scanned. *)
Fixpoint split_from (sep : N) (cur s : str) : list str :=
  match s with
  | [] => [cur]
  | c :: s' =>
      if bool_decide (c = sep) then cur :: split_from sep [] s'
      else split_from sep (cur ++ [c]) s'
  end.

Definition split (sep : N) (s : str) : list str := split_from sep [] s.

(** ** Sorting by key

    [sorted(l, key=...)] on the elements paired with their keys, [lt]
    being [<] on the keys. The sort of Python is stable; the embedding
    puts the elements in place one after the other, each behind the
    elements that are not greater, which is the list that every stable
    sort returns as long as [<] orders the keys (it does not order
    [nan]). *)
Fixpoint insort {K T} (lt : K → K → bool) (x : K * T) (l : list (K * T))
    : list (K * T) :=
  match l with
  | [] => [x]
  | y :: l' => if lt x.1 y.1 then x :: y :: l' else y :: insort lt x l'
  end.

Definition sorted_by_key {K T} (lt : K → K → bool) (keyed : list (K * T))
    : list T :=
  (foldl (λ acc x, insort lt x acc) [] keyed).*2.

(** ** Insertion-ordered dictionaries *)

Abbreviation odict V := (list (str * V)).

(** [d[k]], [None] for a [KeyError]. *)
Fixpoint oget {V} (d : odict V) (k : str) : option V :=
  match d with
  | [] => None
  | (k', v) :: d' => if decide (k' = k) then Some v else oget d' k
  end.

(** [d[k] = v]: an existing key keeps its position. *)
Fixpoint oset {V} (k : str) (v : V) (d : odict V) : odict V :=
  match d with
  | [] => [(k, v)]
  | (k', v') :: d' =>
      if decide (k' = k) then (k, v) :: d' else (k', v') :: oset k v d'
  end.

(** [list(d.keys())] *)
Definition okeys {V} (d : odict V) : list str := d.*1.

(** [list(d.values())] *)
Definition ovalues {V} (d : odict V) : list V := d.*2.

(** [{k: f(k) for k in ks}] *)
Definition odict_comp {V} (f : str → V) (ks : list str) : odict V :=
  foldl (λ d k, oset k (f k) d) [] ks.

(** ** difflib *)

Module Difflib.

(** [Match(a, b, size)] *)
Abbreviation Match := (nat * nat * nat)%type.

(** The order of tuples under [list.sort]. *)
Definition Match_le (x y : Match) : Prop :=
  x.1.1 < y.1.1 ∨
  (x.1.1 = y.1.1 ∧ (x.1.2 < y.1.2 ∨ (x.1.2 = y.1.2 ∧ x.2 ≤ y.2))).

Global Instance Match_le_dec : RelDecision Match_le.
Proof. intros x y. unfold Match_le. apply _. Defined.

Inductive tag := Replace | Delete | Insert | Equal.

Global Instance tag_eq_dec : EqDecision tag.
Proof. solve_decision. Defined.

(** [(tag, i1, i2, j1, j2)] *)
Record opcode := Opcode {
  op_tag : tag; op_i1 : nat; op_i2 : nat; op_j1 : nat; op_j2 : nat
}.

Section SequenceMatcher.
Context {A : Type} `{Countable A}.

(** The state of a [SequenceMatcher] once both sequences are set. *)
Record SequenceMatcher := {
  sm_a : list A;
  sm_b : list A;
  b2j : gmap A (list nat);
  bjunk : gset A;
  bpopular : gset A
}.

(** [__chain_b]: the positions of every element of [b], with junk and
    (for 200 elements and more) popular elements purged. *)
Definition index_b (b : list A) : gmap A (list nat) :=
  foldl (λ (m : gmap A (list nat)) '(i, elt),
           <[elt := default [] (m !! elt) ++ [i]]> m)
        ∅ (imap (λ i elt, (i, elt)) b).

Definition purge (s : gset A) (m : gmap A (list nat)) : gmap A (list nat) :=
  filter (λ kv, kv.1 ∉ s) m.

Definition chain_b (isjunk : option (A → bool)) (autojunk : bool)
    (a b : list A) : SequenceMatcher :=
  let b2j0 := index_b b in
  let junk : gset A :=
    match isjunk with
    | Some f => filter (λ elt, f elt = true) (dom b2j0)
    | None => ∅
    end in
  let b2j1 := purge junk b2j0 in
  let n := length b in
  let popular : gset A :=
    if autojunk && bool_decide (200 ≤ n) then
      let ntest := n `div` 100 + 1 in
      dom (filter (λ kv, ntest < length kv.2) b2j1)
    else ∅ in
  {| sm_a := a; sm_b := b; b2j := purge popular b2j1;
     bjunk := junk; bpopular := popular |}.

(** [SequenceMatcher(isjunk, a, b)] *)
Definition new (isjunk : option (A → bool)) (a b : list A)
    : SequenceMatcher :=
  chain_b isjunk true a b.

(** [j2len.get(j-1, 0)] *)
Definition j2lenget (j2len : gmap nat nat) (j : nat) : nat :=
  match j with
  | 0 => 0
  | S j' => default 0 (j2len !! j')
  end.

(** The inner loop of [find_longest_match] for one [i]: [js] is what
    remains of [b2j.get(a[i], nothing)]. *)
Fixpoint flm_row (i blo bhi : nat) (j2len : gmap nat nat) (js : list nat)
    (newj2len : gmap nat nat) (best : Match) : gmap nat nat * Match :=
  match js with
  | [] => (newj2len, best)
  | j :: js' =>
      if decide (j < blo) then flm_row i blo bhi j2len js' newj2len best
      else if decide (bhi ≤ j) then (newj2len, best)
      else
        let k := j2lenget j2len j + 1 in
        let newj2len := <[j := k]> newj2len in
        let best := if decide (best.2 < k) then (i + 1 - k, j + 1 - k, k)
                    else best in
        flm_row i blo bhi j2len js' newj2len best
  end.

(** The outer loop body; the state is [(j2len, (besti, bestj, bestsize))]. *)
Definition flm_step (sm : SequenceMatcher) (blo bhi : nat)
    (st : gmap nat nat * Match) (i : nat) : gmap nat nat * Match :=
  let js := match sm_a sm !! i with
            | Some x => default [] (b2j sm !! x)
            | None => []
            end in
  flm_row i blo bhi st.1 js ∅ st.2.

(** [a[i] == b[j]] *)
Definition eq_at (a b : list A) (i j : nat) : bool :=
  match a !! i, b !! j with
  | Some x, Some y => bool_decide (x = y)
  | _, _ => false
  end.

(** [isbjunk(b[j])] *)
Definition junk_at (sm : SequenceMatcher) (j : nat) : bool :=
  match sm_b sm !! j with
  | Some y => bool_decide (y ∈ bjunk sm)
  | None => false
  end.

(** The two kinds of [while] loop that grow a match: to the left while
    [besti > alo and bestj > blo], to the right while
    [besti+bestsize < ahi and bestj+bestsize < bhi]. [junk] tells whether
    the loop takes junk elements or non-junk elements. *)
Fixpoint extend_left (sm : SequenceMatcher) (junk : bool) (alo blo : nat)
    (n : nat) (m : Match) : Match :=
  match n with
  | 0 => m
  | S n' =>
      let '(besti, bestj, bestsize) := m in
      if bool_decide (alo < besti) && bool_decide (blo < bestj)
         && bool_decide (junk_at sm (bestj - 1) = junk)
         && eq_at (sm_a sm) (sm_b sm) (besti - 1) (bestj - 1)
      then extend_left sm junk alo blo n' (besti - 1, bestj - 1, bestsize + 1)
      else m
  end.

Fixpoint extend_right (sm : SequenceMatcher) (junk : bool) (ahi bhi : nat)
    (n : nat) (m : Match) : Match :=
  match n with
  | 0 => m
  | S n' =>
      let '(besti, bestj, bestsize) := m in
      if bool_decide (besti + bestsize < ahi)
         && bool_decide (bestj + bestsize < bhi)
         && bool_decide (junk_at sm (bestj + bestsize) = junk)
         && eq_at (sm_a sm) (sm_b sm) (besti + bestsize) (bestj + bestsize)
      then extend_right sm junk ahi bhi n' (besti, bestj, bestsize + 1)
      else m
  end.

(** [find_longest_match(alo, ahi, blo, bhi)] *)
Definition find_longest_match (sm : SequenceMatcher) (alo ahi blo bhi : nat)
    : Match :=
  let m0 := (foldl (flm_step sm blo bhi) (∅, (alo, blo, 0)) (range alo ahi)).2 in
  let m1 := extend_left sm false alo blo (m0.1.1 - alo) m0 in
  let m2 := extend_right sm false ahi bhi (ahi - (m1.1.1 + m1.2)) m1 in
  let m3 := extend_left sm true alo blo (m2.1.1 - alo) m2 in
  extend_right sm true ahi bhi (ahi - (m3.1.1 + m3.2)) m3.

(** The [while queue:] loop of [get_matching_blocks]; [queue.pop()]
    takes the last element, so the head of the list is the end of the
    Python list. The state is [(queue, matching_blocks)]. *)
Fixpoint gmb_loop (sm : SequenceMatcher) (n : nat)
    (queue : list (nat * nat * nat * nat)) (blocks : list Match)
    : list (nat * nat * nat * nat) * list Match :=
  match n, queue with
  | S n', (alo, ahi, blo, bhi) :: queue' =>
      let x := find_longest_match sm alo ahi blo bhi in
      let '(i, j, k) := x in
      if decide (k = 0) then gmb_loop sm n' queue' blocks
      else
        let q1 := if decide (alo < i ∧ blo < j)
                  then (alo, i, blo, j) :: queue' else queue' in
        let q2 := if decide (i + k < ahi ∧ j + k < bhi)
                  then (i + k, ahi, j + k, bhi) :: q1 else q1 in
        gmb_loop sm n' q2 (blocks ++ [x])
  | _, _ => (queue, blocks)
  end.

(** The loop that merges adjacent blocks; the state is
    [((i1, j1, k1), non_adjacent)]. *)
Definition collapse_step (st : Match * list Match) (x : Match)
    : Match * list Match :=
  let '((i1, j1, k1), non_adjacent) := st in
  let '(i2, j2, k2) := x in
  if decide (i1 + k1 = i2 ∧ j1 + k1 = j2) then ((i1, j1, k1 + k2), non_adjacent)
  else
    ((i2, j2, k2),
     if decide (k1 = 0) then non_adjacent else non_adjacent ++ [(i1, j1, k1)]).

(** [get_matching_blocks()] *)
Definition get_matching_blocks (sm : SequenceMatcher) : list Match :=
  let la := length (sm_a sm) in
  let lb := length (sm_b sm) in
  let matching_blocks := (gmb_loop sm (2 * la + 1) [(0, la, 0, lb)] []).2 in
  let matching_blocks := merge_sort Match_le matching_blocks in
  let '((i1, j1, k1), non_adjacent) :=
    foldl collapse_step ((0, 0, 0), []) matching_blocks in
  let non_adjacent :=
    if decide (k1 = 0) then non_adjacent else non_adjacent ++ [(i1, j1, k1)] in
  non_adjacent ++ [(la, lb, 0)].

(** The loop body of [get_opcodes]; the state is [((i, j), answer)]. *)
Definition opcode_step (st : nat * nat * list opcode) (x : Match)
    : nat * nat * list opcode :=
  let '(i, j, answer) := st in
  let '(ai, bj, size) := x in
  let answer :=
    if decide (i < ai ∧ j < bj) then answer ++ [Opcode Replace i ai j bj]
    else if decide (i < ai) then answer ++ [Opcode Delete i ai j bj]
    else if decide (j < bj) then answer ++ [Opcode Insert i ai j bj]
    else answer in
  let i := ai + size in
  let j := bj + size in
  (i, j, if decide (size = 0) then answer
         else answer ++ [Opcode Equal ai i bj j]).

(** [get_opcodes()] *)
Definition get_opcodes (sm : SequenceMatcher) : list opcode :=
  (foldl opcode_step (0, 0, []) (get_matching_blocks sm)).2.

(** [_calculate_ratio(matches, length)]. The source computes the double
    [2.0 * matches / length]; the embedding keeps the exact quotient.
    Every comparison the program makes between two such values, or
    between one and [0.74] or [0.75], has the same outcome on the exact
    quotients as long as the two sequences have fewer than [2^26]
    elements. *)
Definition calculate_ratio (matches length : nat) : Q :=
  match length with
  | 0 => 1
  | _ => Z.of_nat (2 * matches) # Pos.of_nat length
  end.

(** [ratio()] *)
Definition ratio (sm : SequenceMatcher) : Q :=
  calculate_ratio (sum_list ((λ x : Match, x.2) <$> get_matching_blocks sm))
                  (length (sm_a sm) + length (sm_b sm)).

(** The loop body of [quick_ratio]; the state is [(avail, matches)].
    [avail] counts downwards below zero, so it holds integers. *)
Definition quick_ratio_step (fullbcount : gmap A nat)
    (st : gmap A Z * nat) (elt : A) : gmap A Z * nat :=
  let '(avail, matches) := st in
  let numb : Z :=
    match avail !! elt with
    | Some n => n
    | None => Z.of_nat (default 0 (fullbcount !! elt))
    end in
  (<[elt := (numb - 1)%Z]> avail,
   if decide (0 < numb)%Z then matches + 1 else matches).

(** [quick_ratio()] *)
Definition quick_ratio (sm : SequenceMatcher) : Q :=
  let fullbcount : gmap A nat :=
    foldl (λ (m : gmap A nat) elt, <[elt := default 0 (m !! elt) + 1]> m)
          ∅ (sm_b sm) in
  let matches := (foldl (quick_ratio_step fullbcount) (∅, 0) (sm_a sm)).2 in
  calculate_ratio matches (length (sm_a sm) + length (sm_b sm)).

(** [real_quick_ratio()] *)
Definition real_quick_ratio (sm : SequenceMatcher) : Q :=
  let la := length (sm_a sm) in
  let lb := length (sm_b sm) in
  calculate_ratio (la `min` lb) (la + lb).

End SequenceMatcher.

Global Arguments SequenceMatcher A {_ _} : assert.

(** [x > y] on ratios *)
Definition ratio_gt (x y : Q) : bool := negb (Qle_bool x y).

(** [_keep_original_ws(s, tag_s)] *)
Definition keep_original_ws (s tag_s : str) : str :=
  zip_with (λ c tag_c,
              if bool_decide (tag_c = 32%N) && isspace c then c else tag_c)
           s tag_s.

(** The loop of [_fancy_replace] that builds [atags] and [btags] from the
    opcodes of the two synched lines. *)
Definition tags_step (st : str * str) (op : opcode) : str * str :=
  let '(atags, btags) := st in
  let la := op_i2 op - op_i1 op in
  let lb := op_j2 op - op_j1 op in
  match op_tag op with
  | Replace => (atags ++ replicate la 94%N, btags ++ replicate lb 94%N)
  | Delete => (atags ++ replicate la 45%N, btags)
  | Insert => (atags, btags ++ replicate lb 43%N)
  | Equal => (atags ++ replicate la 32%N, btags ++ replicate lb 32%N)
  end.

(** [_qformat(aline, bline, atags, btags)] *)
Definition qformat (aline bline atags btags : str) : list str :=
  let atags := rstrip (keep_original_ws aline atags) in
  let btags := rstrip (keep_original_ws bline btags) in
  [lit "- " ++ aline]
  ++ (match atags with [] => [] | _ => [lit "? " ++ atags ++ nl] end)
  ++ [lit "+ " ++ bline]
  ++ (match btags with [] => [] | _ => [lit "? " ++ btags ++ nl] end).

(** [_dump(tag, x, lo, hi)], ['%s %s' % (tag, x[i])] for each [i]. *)
Definition dump (tag : N) (x : list str) (lo hi : nat) : list str :=
  (λ i, [tag; 32%N] ++ x !!! i) <$> range lo hi.

(** [_plain_replace(a, alo, ahi, b, blo, bhi)] *)
Definition plain_replace (a : list str) (alo ahi : nat)
    (b : list str) (blo bhi : nat) : list str :=
  if decide (bhi - blo < ahi - alo)
  then dump 43 b blo bhi ++ dump 45 a alo ahi
  else dump 45 a alo ahi ++ dump 43 b blo bhi.

(** The search state of [_fancy_replace]: [best_ratio], [(best_i,
    best_j)] once assigned, and [(eqi, eqj)]. *)
Record search := Search {
  best_ratio : Q;
  best_ij : option (nat * nat);
  eq_ij : option (nat * nat)
}.

(** The body of the inner search loop for the pair [(i, j)]. *)
Definition search_step (a b : list str) (j : nat) (st : search) (i : nat)
    : search :=
  let ai := a !!! i in
  let bj := b !!! j in
  if decide (ai = bj) then
    match eq_ij st with
    | None => Search (best_ratio st) (best_ij st) (Some (i, j))
    | Some _ => st
    end
  else
    let cruncher := new None ai bj in
    if ratio_gt (real_quick_ratio cruncher) (best_ratio st)
       && ratio_gt (quick_ratio cruncher) (best_ratio st)
       && ratio_gt (ratio cruncher) (best_ratio st)
    then Search (ratio cruncher) (Some (i, j)) (eq_ij st)
    else st.

Definition search_pairs (a : list str) (alo ahi : nat)
    (b : list str) (blo bhi : nat) : search :=
  foldl (λ st j, foldl (search_step a b j) st (range alo ahi))
        (Search (74 # 100) None None) (range blo bhi).

(** The intraline marking of a synched pair of different lines. *)
Definition intraline (aelt belt : str) : list str :=
  let cruncher := new None aelt belt in
  let '(atags, btags) := foldl tags_step ([], []) (get_opcodes cruncher) in
  qformat aelt belt atags btags.

(** [_fancy_replace] and [_fancy_helper], which call each other on
    strictly shorter ranges; [n] bounds the depth of the calls. *)
Fixpoint fancy_replace (n : nat) (a : list str) (alo ahi : nat)
    (b : list str) (blo bhi : nat) : list str :=
  match n with
  | 0 => []
  | S n' =>
      let fancy_helper alo ahi blo bhi :=
        if decide (alo < ahi) then
          if decide (blo < bhi) then fancy_replace n' a alo ahi b blo bhi
          else dump 45 a alo ahi
        else if decide (blo < bhi) then dump 43 b blo bhi
        else [] in
      let st := search_pairs a alo ahi b blo bhi in
      let synch :=
        if ratio_gt (75 # 100) (best_ratio st) then
          match eq_ij st with
          | None => None
          | Some ij => Some (ij, true)
          end
        else
          match best_ij st with
          | Some ij => Some (ij, false)
          | None => None
          end in
      match synch with
      | None => plain_replace a alo ahi b blo bhi
      | Some ((best_i, best_j), identical) =>
          let aelt := a !!! best_i in
          let belt := b !!! best_j in
          fancy_helper alo best_i blo best_j
          ++ (if identical then [lit "  " ++ aelt] else intraline aelt belt)
          ++ fancy_helper (best_i + 1) ahi (best_j + 1) bhi
      end
  end.

(** [Differ().compare(a, b)] *)
Definition compare_op (a b : list str) (op : opcode) : list str :=
  let '(Opcode tag alo ahi blo bhi) := op in
  match tag with
  | Replace => fancy_replace ((ahi - alo) + (bhi - blo)) a alo ahi b blo bhi
  | Delete => dump 45 a alo ahi
  | Insert => dump 43 b blo bhi
  | Equal => dump 32 a alo ahi
  end.

Definition compare (a b : list str) : list str :=
  let cruncher := new None a b in
  mjoin (compare_op a b <$> get_opcodes cruncher).

End Difflib.

(** ** The application, [src/app/app.py] *)

(** What the loader sees of the operating system: [os.listdir(path)] and
    the text that [open(path, encoding=utf-8).read()] returns; [None]
    when the call raises. *)
Record filesystem := {
  listdir : str → option (list str);
  read_text : str → option str
}.

(** The exceptions that reach the callers of the loader. *)
Inductive exn :=
  | ListdirError (path : str)
  | ReadError (path : str).

Inductive result (T : Type) :=
  | Ok (x : T)
  | Raise (e : exn).
Global Arguments Ok {T} x.
Global Arguments Raise {T} e.

(** Statements in sequence: an exception ends the run. *)
Global Instance result_bind : MBind result := λ T U k r,
  match r with
  | Ok x => k x
  | Raise e => Raise e
  end.

(** [os.path.join(a, p)] *)
Definition path_join (a p : str) : str :=
  if startswith p (lit "/") then p
  else if bool_decide (a = []) || startswith (reverse a) (lit "/") then a ++ p
  else a ++ lit "/" ++ p.

(** What [flask] makes of the value a view returns: a body with a
    status code, or a template with its arguments. *)
Inductive response :=
  | Body (text : str) (status : nat)
  | Template (name : str) (versions : list str)
             (diff_results : gmap str (gmap str str)).

(** An entry of [os.scandir]: its [name] and the answer of [is_dir()]. *)
Record DirEntry := { name : str; is_dir : bool }.

(** The exceptions of the listing of the versions: [os.scandir] fails,
    or [float] rejects its argument. *)
Inductive listing_exn :=
  | ScandirError (path : str)
  | ValueError (text : str).

Inductive listing (T : Type) :=
  | Listed (x : T)
  | Fails (e : listing_exn).
Global Arguments Listed {T} x.
Global Arguments Fails {T} e.

Global Instance listing_bind : MBind listing := λ T U k r,
  match r with
  | Listed x => k x
  | Fails e => Fails e
  end.

(** What [flask] makes of the value that the view [index] returns. *)
Inductive index_response :=
  | IndexTemplate (name : str) (versions : list str).

Module App.

(** [get_help_files(version)] *)
Definition get_help_files (fs : filesystem) (version : str)
    : result (gmap str str) :=
  let help_dir := lit "help_files/" ++ version in
  match listdir fs help_dir with
  | None => Raise (ListdirError help_dir)
  | Some filenames =>
      foldl (λ (acc : result (gmap str str)) filename,
               help_files ← acc ;
               match read_text fs (path_join help_dir filename) with
               | None => Raise (ReadError (path_join help_dir filename))
               | Some text =>
                   Ok (<[remove_all (lit ".txt") filename := text]> help_files)
               end)
            (Ok ∅) filenames
  end.

(** The three f-strings of [highlight_diff]. *)
Definition span_unchanged (text : str) : str :=
  lit "<span class=" ++ dq ++ lit "unchanged" ++ dq ++ lit ">"
  ++ text ++ lit "</span>".

Definition span_deleted (text : str) : str :=
  lit "<span class=" ++ dq ++ lit "deleted" ++ dq
  ++ lit " style=" ++ dq ++ lit "background-color: #ffeef0;" ++ dq ++ lit ">"
  ++ text ++ lit "</span>".

Definition span_added (text : str) : str :=
  lit "<span class=" ++ dq ++ lit "added" ++ dq
  ++ lit " style=" ++ dq ++ lit "background-color: #e6ffed;" ++ dq ++ lit ">"
  ++ text ++ lit "</span>".

(** The body of [for line in diff]; the state is
    [(highlighted_1, highlighted_2)]. *)
Definition annotate_step (st : list str * list str) (line : str)
    : list str * list str :=
  let '(highlighted_1, highlighted_2) := st in
  if startswith line (lit "  ") then
    (highlighted_1 ++ [span_unchanged (drop 2 line)],
     highlighted_2 ++ [span_unchanged (drop 2 line)])
  else if startswith line (lit "- ") then
    (highlighted_1 ++ [span_deleted (drop 2 line)], highlighted_2)
  else if startswith line (lit "+ ") then
    (highlighted_1, highlighted_2 ++ [span_added (drop 2 line)])
  else (highlighted_1, highlighted_2).

Definition annotate (diff : list str) : list str * list str :=
  foldl annotate_step ([], []) diff.

(** The wrapping of one side into its block. *)
Definition pre (highlighted : list str) : str :=
  lit "<pre>" ++ join nl highlighted ++ lit "</pre>".

(** The body of the two nested loops of [highlight_diff] for the pair
    [(i, j)]. *)
Definition highlight_pair (cmd_versions : odict str) (versions : list str)
    (highlighted : gmap str str) (i j : nat) : gmap str str :=
  let v1 := versions !!! i in
  let v2 := versions !!! j in
  let lines1 := splitlines (default [] (oget cmd_versions v1)) in
  let lines2 := splitlines (default [] (oget cmd_versions v2)) in
  let diff := Difflib.compare lines1 lines2 in
  let '(highlighted_1, highlighted_2) := annotate diff in
  <[v2 := pre highlighted_2]> (<[v1 := pre highlighted_1]> highlighted).

(** [highlight_diff(cmd_versions)] *)
Definition highlight_diff (cmd_versions : odict str) : gmap str str :=
  let versions := okeys cmd_versions in
  foldl (λ highlighted i,
           foldl (λ highlighted j,
                    highlight_pair cmd_versions versions highlighted i j)
                 highlighted (range (i + 1) (length versions)))
        ∅ (range 0 (length versions)).

(** [help_files[version].get(cmd, empty)] *)
Definition text_of (help_files : odict (gmap str str)) (cmd version : str)
    : str :=
  default [] (default ∅ (oget help_files version) !! cmd).

(** The test of [compare_versions] that decides whether an entry is
    reported: [any(cmd_versions[version] != cmd_versions[versions[0]] for
    version in versions[1:])]. *)
Definition differs (cmd_versions : odict str) (versions : list str) : bool :=
  match versions with
  | [] => false
  | v0 :: rest =>
      existsb (λ version,
                 bool_decide (oget cmd_versions version ≠ oget cmd_versions v0))
              rest
  end.

(** The body of [for cmd in sorted(all_commands)]. *)
Definition diff_step (help_files : odict (gmap str str)) (versions : list str)
    (diffs : gmap str (gmap str str)) (cmd : str) : gmap str (gmap str str) :=
  let cmd_versions := odict_comp (text_of help_files cmd) versions in
  if differs cmd_versions versions
  then <[cmd := highlight_diff cmd_versions]> diffs
  else diffs.

(** [compare_versions] from its second statement on, [help_files] being
    loaded. *)
Definition diff_loaded (help_files : odict (gmap str str))
    (versions : list str) : gmap str (gmap str str) :=
  let all_commands : gset str :=
    foldl (λ all_commands files, all_commands ∪ dom files)
          ∅ (ovalues help_files) in
  foldl (diff_step help_files versions) ∅
        (merge_sort str_le (elements all_commands)).

(** [{version: get_help_files(version) for version in versions}] *)
Definition load_all (fs : filesystem) (versions : list str)
    : result (odict (gmap str str)) :=
  foldl (λ (acc : result (odict (gmap str str))) version,
           help_files ← acc ;
           files ← get_help_files fs version ;
           Ok (oset version files help_files))
        (Ok []) versions.

(** [compare_versions(versions)] *)
Definition compare_versions (fs : filesystem) (versions : list str)
    : result (gmap str (gmap str str)) :=
  help_files ← load_all fs versions ;
  Ok (diff_loaded help_files versions).

(** The view [compare()], given the [versions] fields of the form. *)
Definition compare (fs : filesystem) (selected_versions : list str)
    : result response :=
  if decide (length selected_versions < 2) then
    Ok (Body (lit "Please select at least two versions for comparison.") 400)
  else
    diff_results ← compare_versions fs selected_versions ;
    Ok (Template (lit "compare.html") selected_versions diff_results).

(** The listing of the versions. The floating-point numbers are a
    parameter of the embedding: [F] stands for the type [float],
    [float text] for the value of [float(text)] ([None] when it raises
    [ValueError]) and [float_lt] for [<] on [F]. *)
Section Versions.
Context {F : Type} (float : str → option F) (float_lt : F → F → bool).

(** The argument of [float] in the key of the sort: [x.split(_)[1]].
    Every name that the filter lets through has a second field. *)
Definition version_field (x : str) : str := split 95 x !!! 1.

(** The keys [float(x.split(_)[1])] of the sort, which are all computed
    before the first comparison; the first that raises ends the call. *)
Fixpoint sort_keys (directories : list str) : listing (list (F * str)) :=
  match directories with
  | [] => Listed []
  | x :: rest =>
      match float (version_field x) with
      | None => Fails (ValueError (version_field x))
      | Some key => keyed ← sort_keys rest ; Listed ((key, x) :: keyed)
      end
  end.

(** [get_postgresql_versions()], given [os.scandir]. *)
Definition get_postgresql_versions (scandir : str → option (list DirEntry))
    : listing (list str) :=
  let help_files_dir := lit "help_files" in
  match scandir help_files_dir with
  | None => Fails (ScandirError help_files_dir)
  | Some entries =>
      let directories :=
        name <$> filter (λ d, is_dir d && startswith (name d) (lit "postgres_"))
                        entries in
      keyed ← sort_keys directories ;
      Listed (sorted_by_key float_lt keyed)
  end.

(** The view [index()]. *)
Definition index (scandir : str → option (list DirEntry))
    : listing index_response :=
  versions ← get_postgresql_versions scandir ;
  Listed (IndexTemplate (lit "index.html") versions).

End Versions.

End App.

(** * Properties

    The vocabulary in which the properties of the program are stated,
    followed by the properties themselves. *)

Import Difflib.

(** [positions x b]: where [x] occurs in [b], in increasing order. *)
Definition positions {A} `{EqDecision A} (x : A) (b : list A) : list nat :=
  filter (λ j, b !! j = Some x) (seq 0 (length b)).

(** A block [(i, j, k)] is a match when [a[i:i+k]] and [b[j:j+k]] agree
    element by element. *)
Definition match_ok {A} (a b : list A) (m : Match) : Prop :=
  ∀ d, d < m.2 → ∃ x, a !! (m.1.1 + d) = Some x ∧ b !! (m.1.2 + d) = Some x.

(** A block lies inside the rectangle [alo, ahi) x [blo, bhi). *)
Definition in_rect (alo ahi blo bhi : nat) (m : Match) : Prop :=
  alo ≤ m.1.1 ∧ m.1.1 + m.2 ≤ ahi ∧ blo ≤ m.1.2 ∧ m.1.2 + m.2 ≤ bhi.

(** Every two elements at different positions are related. *)
Fixpoint pairwise {T} (R : relation T) (l : list T) : Prop :=
  match l with
  | [] => True
  | x :: l' => Forall (R x) l' ∧ pairwise R l'
  end.

Abbreviation rect := (nat * nat * nat * nat)%type.

(** The rectangle [i, i+k) x [j, j+k) that a block covers. *)
Definition rect_of (m : Match) : rect :=
  (m.1.1, m.1.1 + m.2, m.1.2, m.1.2 + m.2).

(** One rectangle lies entirely before the other, in both sequences. *)
Definition rect_before (r s : rect) : Prop :=
  r.1.1.2 ≤ s.1.1.1 ∧ r.2 ≤ s.1.2.

Definition apart (r s : rect) : Prop := rect_before r s ∨ rect_before s r.

Definition inside (r s : rect) : Prop :=
  s.1.1.1 ≤ r.1.1.1 ∧ r.1.1.2 ≤ s.1.1.2 ∧ s.1.2 ≤ r.1.2 ∧ r.2 ≤ s.2.

Definition rect_ok (la lb : nat) (r : rect) : Prop :=
  r.1.1.1 ≤ r.1.1.2 ∧ r.1.1.2 ≤ la ∧ r.1.2 ≤ r.2 ∧ r.2 ≤ lb.

(** The bound of the loop of [get_matching_blocks]: every rectangle
    costs one step, and one more for every two rows that it spans. *)
Definition queue_size (queue : list rect) : nat :=
  sum_list_with (λ r : rect, 2 * (r.1.1.2 - r.1.1.1) + 1) queue.

Definition block_before (x y : Match) : Prop :=
  rect_before (rect_of x) (rect_of y).

(** The blocks of [l] are matches that follow each other, in both
    sequences, from [(i, j)] up to [(i', j')]. *)
Fixpoint chain {A} (a b : list A) (i j : nat) (l : list Match) (i' j' : nat)
    : Prop :=
  match l with
  | [] => i ≤ i' ∧ j ≤ j'
  | (ai, bj, k) :: l' =>
      i ≤ ai ∧ j ≤ bj ∧ match_ok a b (ai, bj, k) ∧
      chain a b (ai + k) (bj + k) l' i' j'
  end.

(** [l[lo:hi]] *)
Definition slice {T} (l : list T) (lo hi : nat) : list T :=
  take (hi - lo) (drop lo l).
Global Arguments slice : simpl never.

(** An opcode is well formed for [a] and [b]. *)
Definition op_wf {A} (a b : list A) (op : opcode) : Prop :=
  op_i1 op ≤ op_i2 op ∧ op_i2 op ≤ length a ∧
  op_j1 op ≤ op_j2 op ∧ op_j2 op ≤ length b ∧
  match op_tag op with
  | Replace => op_i1 op < op_i2 op ∧ op_j1 op < op_j2 op
  | Delete => op_i1 op < op_i2 op ∧ op_j1 op = op_j2 op
  | Insert => op_i1 op = op_i2 op ∧ op_j1 op < op_j2 op
  | Equal => slice a (op_i1 op) (op_i2 op) = slice b (op_j1 op) (op_j2 op)
  end.

(** The opcodes lead from [(i, j)] to [(i', j')] without gap or overlap. *)
Fixpoint tiles {A} (a b : list A) (i j : nat) (ops : list opcode) (i' j' : nat)
    : Prop :=
  match ops with
  | [] => i = i' ∧ j = j'
  | op :: ops' =>
      op_i1 op = i ∧ op_j1 op = j ∧ op_wf a b op ∧
      tiles a b (op_i2 op) (op_j2 op) ops' i' j'
  end.

(** The text of a delta line that belongs to the first sequence (common
    or unique to it), and to the second one. *)
Definition left_text (line : str) : option str :=
  if startswith line (lit "  ") || startswith line (lit "- ")
  then Some (drop 2 line) else None.

Definition right_text (line : str) : option str :=
  if startswith line (lit "  ") || startswith line (lit "+ ")
  then Some (drop 2 line) else None.

Definition lefts (diff : list str) : list str := omap left_text diff.
Definition rights (diff : list str) : list str := omap right_text diff.

(** What the search of [_fancy_replace] maintains. *)
Definition search_ok (a : list str) (alo ahi : nat) (b : list str)
    (blo bhi : nat) (st : search) : Prop :=
  (∀ i j, best_ij st = Some (i, j) → alo ≤ i < ahi ∧ blo ≤ j < bhi) ∧
  (∀ i j, eq_ij st = Some (i, j) →
     alo ≤ i < ahi ∧ blo ≤ j < bhi ∧ a !!! i = b !!! j) ∧
  (best_ij st = None → best_ratio st = (74 # 100)%Q).

(** The classification of a rendered line. *)
Inductive cls := Unchanged | Added | Deleted.

(** A rendered line of a given classification. *)
Definition span (c : cls) (text : str) : str :=
  match c with
  | Unchanged => App.span_unchanged text
  | Added => App.span_added text
  | Deleted => App.span_deleted text
  end.

(** The classification that [annotate_step] gives a delta line on the
    left side and on the right side, if it renders it there. *)
Definition left_cls (line : str) : option cls :=
  if startswith line (lit "  ") then Some Unchanged
  else if startswith line (lit "- ") then Some Deleted
  else None.

Definition right_cls (line : str) : option cls :=
  if startswith line (lit "  ") then Some Unchanged
  else if startswith line (lit "- ") then None
  else if startswith line (lit "+ ") then Some Added
  else None.

(** The pairs of positions that the two loops of [highlight_diff] visit,
    in the order of the visits. *)
Definition pairs (n : nat) : list (nat * nat) :=
  i ← range 0 n; (λ j, (i, j)) <$> range (i + 1) n.

(** The pairs of [ps] that version number [k] takes part in. *)
Definition pairs_with (k : nat) (ps : list (nat * nat)) : list (nat * nat) :=
  filter (λ p, p.1 = k ∨ p.2 = k) ps.

(** The rendering of the left text and of the right text of a pair. *)
Definition render_left (t1 t2 : str) : str :=
  App.pre (App.annotate (compare (splitlines t1) (splitlines t2))).1.

Definition render_right (t1 t2 : str) : str :=
  App.pre (App.annotate (compare (splitlines t1) (splitlines t2))).2.

(** The order of the pairs: by first position, then by second. *)
Definition pair_lt (p q : nat * nat) : Prop :=
  p.1 < q.1 ∨ (p.1 = q.1 ∧ p.2 < q.2).

(** The text of an entry in a corpus, the empty string when the corpus
    has no such entry. *)
Definition entry_text (corpus : gmap str str) (cmd : str) : str :=
  default [] (corpus !! cmd).

(** The dictionary [cmd_versions] that [compare_versions] builds for an
    entry. *)
Definition cmd_versions_of (corpus : str → gmap str str) (versions : list str)
    (cmd : str) : odict str :=
  odict_comp (λ version, entry_text (corpus version) cmd) versions.

(** A directory tree [help_files/<version>/<entry>.txt] given as the list
    of its versions, each with its files and their texts. *)
Definition help_tree (dirs : list (str * list (str * str))) : filesystem := {|
  listdir path :=
    (λ files : list (str * str), files.*1)
      <$> oget ((λ d : str * list (str * str),
                   (lit "help_files/" ++ d.1, d.2)) <$> dirs) path;
  read_text path :=
    oget (d ← dirs;
          (λ f : str * str,
             (lit "help_files/" ++ d.1 ++ lit "/" ++ f.1, f.2)) <$> d.2) path
|}.

(** The corpus that the loader returns for a version, empty when it
    raises. *)
Definition loaded (fs : filesystem) (version : str) : gmap str str :=
  match App.get_help_files fs version with
  | Ok files => files
  | Raise _ => ∅
  end.

(** The scenario with corpus A = {ABORT: x} and B = {ABORT: x, ALTER: y}. *)
Definition fs_AB : filesystem :=
  help_tree [(lit "A", [(lit "ABORT.txt", lit "x")]);
             (lit "B", [(lit "ABORT.txt", lit "x"); (lit "ALTER.txt", lit "y")])].

(** Two versions of one entry whose texts differ by a final newline. *)
Definition fs_newline : filesystem :=
  help_tree [(lit "A", [(lit "FOO.txt", lit "x")]);
             (lit "B", [(lit "FOO.txt", lit "x" ++ nl)])].

(** The delta lines of [difflib.Differ]: common to both sequences, unique
    to the first, unique to the second, or a hint in neither. *)
Inductive LineOp :=
  | EqualOp (text : str)
  | OnlyLeft (text : str)
  | OnlyRight (text : str)
  | HintOp (text : str).

Definition encode (op : LineOp) : str :=
  match op with
  | EqualOp text => lit "  " ++ text
  | OnlyLeft text => lit "- " ++ text
  | OnlyRight text => lit "+ " ++ text
  | HintOp text => lit "? " ++ text
  end.

(** What each delta line adds to the left and to the right rendering. *)
Definition left_of (op : LineOp) : list str :=
  match op with
  | EqualOp text => [span Unchanged text]
  | OnlyLeft text => [span Deleted text]
  | OnlyRight _ | HintOp _ => []
  end.

Definition right_of (op : LineOp) : list str :=
  match op with
  | EqualOp text => [span Unchanged text]
  | OnlyRight text => [span Added text]
  | OnlyLeft _ | HintOp _ => []
  end.

(** The opening tag of a rendered line. *)
Definition open_tag (c : cls) : str :=
  match c with
  | Unchanged => lit "<span class=" ++ dq ++ lit "unchanged" ++ dq ++ lit ">"
  | Added =>
      lit "<span class=" ++ dq ++ lit "added" ++ dq
      ++ lit " style=" ++ dq ++ lit "background-color: #e6ffed;" ++ dq ++ lit ">"
  | Deleted =>
      lit "<span class=" ++ dq ++ lit "deleted" ++ dq
      ++ lit " style=" ++ dq ++ lit "background-color: #ffeef0;" ++ dq ++ lit ">"
  end.

(** [p in s] *)
Fixpoint contains (s p : str) : bool :=
  startswith s p ||
  match s with
  | [] => false
  | _ :: s' => contains s' p
  end.

Definition tagged (line : str) : Prop := ∃ op, line = encode op.

(** The dictionary of three versions that the three-version examples
    use. *)
Definition cv_ABC : odict str :=
  [(lit "A", lit "x"); (lit "B", lit "y"); (lit "C", lit "x" ++ nl ++ lit "z")].

(** The body of the inner loop of [find_longest_match] for a [j] inside
    [blo, bhi). *)
Definition flm_cell (i : nat) (j2len : gmap nat nat)
    (st : gmap nat nat * Match) (j : nat) : gmap nat nat * Match :=
  let k := j2lenget j2len j + 1 in
  (<[j := k]> st.1,
   if decide (st.2.2 < k) then (i + 1 - k, j + 1 - k, k) else st.2).

(** The invariants of [SequenceMatcher], for sequences of any hashable
    element. *)
Section MatcherInvariants.
Context {A : Type} `{Countable A}.
Implicit Types (a b : list A) (sm : SequenceMatcher A) (m : Match).

(** Every index that [b2j] lists for [x] holds [x] in [b]. *)
Definition b2j_sound sm : Prop :=
  ∀ x js j, b2j sm !! x = Some js → j ∈ js → sm_b sm !! j = Some x.

(** The entries of [j2len] describe matches that end just before row
    [iend] and at column [j]. *)
Definition ends_ok sm (alo blo bhi iend : nat) (mp : gmap nat nat) : Prop :=
  ∀ j k, mp !! j = Some k →
    1 ≤ k ∧ alo + k ≤ iend ∧ blo + k ≤ j + 1 ∧ j < bhi ∧
    match_ok (sm_a sm) (sm_b sm) (iend - k, j + 1 - k, k).

Definition best_ok sm (alo ahi blo bhi : nat) m : Prop :=
  in_rect alo ahi blo bhi m ∧ match_ok (sm_a sm) (sm_b sm) m.

(** What the loop of [get_matching_blocks] maintains. *)
Definition gmb_inv sm (queue : list rect) (blocks : list Match) : Prop :=
  Forall (rect_ok (length (sm_a sm)) (length (sm_b sm))) queue ∧
  Forall (λ m, m.2 ≠ 0 ∧ match_ok (sm_a sm) (sm_b sm) m) blocks ∧
  pairwise apart (queue ++ (rect_of <$> blocks)).

(** Position [i] holds an element that [b2j] has kept. *)
Definition kept sm (i : nat) : bool :=
  match sm_a sm !! i with
  | Some x => bool_decide (is_Some (b2j sm !! x))
  | None => false
  end.

(** The length of the run of kept elements that ends at position [i]. *)
Fixpoint run sm (i : nat) : nat :=
  match i with
  | 0 => if kept sm 0 then 1 else 0
  | S i' => if kept sm (S i') then S (run sm i') else 0
  end.

Definition prev_run sm (i : nat) : nat :=
  match i with
  | 0 => 0
  | S i' => run sm i'
  end.

(** A self-comparison: both sequences are [a], nothing is junk, and
    [b2j] lists all positions of the elements it has kept. *)
Record self_matcher sm (a : list A) : Prop := {
  self_a : sm_a sm = a;
  self_b : sm_b sm = a;
  self_junk : bjunk sm = ∅;
  self_b2j : ∀ x js, b2j sm !! x = Some js → js = positions x a
}.

(** The state of the inner loop in row [i]. *)
Definition cell_inv sm (i : nat) (st : gmap nat nat * Match) : Prop :=
  (∀ j k, st.1 !! j = Some k → k ≤ run sm j ∧ k ≤ run sm i) ∧
  st.2.1.1 = st.2.1.2 ∧
  (∀ j, j < i → run sm j ≤ st.2.2).

(** The state of the outer loop before row [i]. *)
Definition row_inv sm (i : nat) (st : gmap nat nat * Match) : Prop :=
  (∀ j k, st.1 !! j = Some k → k ≤ run sm j ∧ k ≤ prev_run sm i) ∧
  (∀ i', i = S i' → default 0 (st.1 !! i') = run sm i') ∧
  st.2.1.1 = st.2.1.2 ∧
  (∀ j, j < i → run sm j ≤ st.2.2).

End MatcherInvariants.

(** ** The vocabulary of the loader and of the listing of the versions *)

(** The name under which the loader files the text of [filename]. *)
Definition entry_name (filename : str) : str :=
  remove_all (lit ".txt") filename.

(** The directory that the loader lists for a version. *)
Definition help_dir (version : str) : str := lit "help_files/" ++ version.

(** The elements of a list in the order of their first occurrences:
    [list(dict.fromkeys(l))]. *)
Definition distinct (l : list str) : list str :=
  foldl (λ acc x, if decide (x ∈ acc) then acc else acc ++ [x]) [] l.

(** The texts of the delta lines that are common to both sequences. *)
Definition commons (diff : list str) : list str :=
  omap (λ line, if startswith line (lit "  ") then Some (drop 2 line) else None)
       diff.

(** A rendered line carries the tag of an unchanged line. *)
Definition is_unchanged (row : str) : bool :=
  startswith row (open_tag Unchanged).

(** The number of newline characters in a string. *)
Definition newlines (s : str) : nat := length (filter (λ c, c = 10%N) s).

(** Decimal numerals read as exact rationals, and their order: what the
    examples of the listing of the versions take for [float] and for
    [<]. *)
Fixpoint digits_from (acc : N) (s : str) : option N :=
  match s with
  | [] => Some acc
  | c :: s' =>
      if ((48 <=? c) && (c <=? 57))%N
      then digits_from (acc * 10 + (c - 48))%N s'
      else None
  end.

Definition digits (s : str) : option N :=
  match s with
  | [] => None
  | _ => digits_from 0 s
  end.

Definition decimal (s : str) : option Q :=
  match split 46 s with
  | [whole] => n ← digits whole; Some (inject_Z (Z.of_N n))
  | [whole; frac] =>
      n ← digits whole; m ← digits frac;
      Some (Qmake (Z.of_N n * 10 ^ Z.of_nat (length frac) + Z.of_N m)
                  (Z.to_pos (10 ^ Z.of_nat (length frac))))
  | _ => None
  end.

Definition Qlt_bool (x y : Q) : bool := negb (Qle_bool y x).

(** A directory [help_files] with three version directories, two of
    which carry the same number, a directory of another name and two
    files. *)
Definition scan_sample (path : str) : option (list DirEntry) :=
  if decide (path = lit "help_files") then
    Some [ {| name := lit "postgres_10"; is_dir := true |};
           {| name := lit "README.md"; is_dir := false |};
           {| name := lit "postgres_9.6_rc"; is_dir := true |};
           {| name := lit "postgres_notes.txt"; is_dir := false |};
           {| name := lit "old"; is_dir := true |};
           {| name := lit "postgres_9.6"; is_dir := true |} ]
  else None.

(** The same directory with a version directory whose name carries no
    number. *)
Definition scan_unnumbered (path : str) : option (list DirEntry) :=
  if decide (path = lit "help_files") then
    Some [ {| name := lit "postgres_10"; is_dir := true |};
           {| name := lit "postgres_"; is_dir := true |};
           {| name := lit "postgres_old"; is_dir := true |} ]
  else None.

(** The order of two elements with their keys under [lt]: the second
    does not have the smaller key. *)
Definition key_le {K T} (lt : K → K → bool) (p q : K * T) : Prop :=
  lt q.1 p.1 = false.

(** A directory of version A in which the second of three files cannot
    be read. *)
Definition fs_unreadable : filesystem := {|
  listdir path :=
    if decide (path = lit "help_files/A")
    then Some [lit "ABORT.txt"; lit "ALTER.txt"; lit "BEGIN.txt"]
    else None;
  read_text path :=
    if decide (path = lit "help_files/A/ABORT.txt") then Some (lit "x")
    else if decide (path = lit "help_files/A/BEGIN.txt") then Some (lit "z")
    else None
|}.

(** A directory of version A with two files that are filed under the
    same name. *)
Definition fs_same_name : filesystem :=
  help_tree [(lit "A", [(lit "ABORT.txt", lit "x"); (lit "ABORT", lit "y")])].

(** Two versions, the first of which has an entry that is empty and that
    the second does not have. *)
Definition fs_empty_entry : filesystem :=
  help_tree [(lit "A", [(lit "ABORT.txt", lit "x"); (lit "NOTE.txt", [])]);
             (lit "B", [(lit "ABORT.txt", lit "x" ++ nl ++ lit "y")])].

(** ** Lists, ranges and folds *)

Lemma filter_ext_Forall {T} (P Q : T → Prop) `{!∀ x, Decision (P x)}
    `{!∀ x, Decision (Q x)} (l : list T) :
  Forall (λ x, P x ↔ Q x) l → filter P l = filter Q l.
Proof.
  induction 1 as [|x l Hx _ IH]; [done|].
  rewrite !filter_cons, IH. destruct (decide (P x)), (decide (Q x)); tauto.
Qed.

Lemma filter_nil_Forall {T} (P : T → Prop) `{!∀ x, Decision (P x)} (l : list T) :
  Forall (λ x, ¬ P x) l → filter P l = [].
Proof.
  induction 1 as [|x l Hx _ IH]; [done|].
  by rewrite filter_cons, decide_False.
Qed.

Lemma filter_all_Forall {T} (P : T → Prop) `{!∀ x, Decision (P x)} (l : list T) :
  Forall P l → filter P l = l.
Proof.
  induction 1 as [|x l Hx _ IH]; [done|].
  by rewrite filter_cons, decide_True, IH.
Qed.

Lemma foldl_bind {S T U} (f : S → U → S) (g : T → list U) (l : list T) (s : S) :
  foldl f s (l ≫= g) = foldl (λ s x, foldl f s (g x)) s l.
Proof.
  revert s. induction l as [|x l IH]; intros s; [done|].
  cbn [mbind list_bind foldl]. by rewrite foldl_app, IH.
Qed.

Lemma foldl_ext {S T} (f g : S → T → S) (l : list T) (s : S) :
  (∀ s x, f s x = g s x) → foldl f s l = foldl g s l.
Proof.
  intros Hfg. revert s. induction l as [|x l IH]; intros s; [done|].
  cbn [foldl]. by rewrite Hfg, IH.
Qed.

Lemma range_split lo mid hi :
  lo ≤ mid → mid ≤ hi → range lo hi = range lo mid ++ range mid hi.
Proof.
  intros H1 H2. unfold range.
  replace (hi - lo) with ((mid - lo) + (hi - mid)) by lia.
  rewrite seq_app. by replace (lo + (mid - lo)) with mid by lia.
Qed.

Lemma range_one i : range i (i + 1) = [i].
Proof. unfold range. by replace (i + 1 - i) with 1 by lia. Qed.

Lemma range_last lo hi : lo < hi → range lo hi = range lo (hi - 1) ++ [hi - 1].
Proof.
  intros Hlt. unfold range. replace (hi - lo) with (S (hi - 1 - lo)) by lia.
  rewrite seq_S. do 2 f_equal. lia.
Qed.

Lemma range_empty lo hi : hi ≤ lo → range lo hi = [].
Proof. intros. unfold range. by replace (hi - lo) with 0 by lia. Qed.

Lemma seq_sorted lo k : StronglySorted lt (seq lo k).
Proof.
  revert lo. induction k as [|k IH]; intros lo; constructor; [apply IH|].
  apply Forall_forall. intros j Hj. apply elem_of_seq in Hj. lia.
Qed.

Lemma startswith_tag (c1 c2 p1 p2 : N) (t : str) :
  startswith (c1 :: c2 :: t) [p1; p2] = bool_decide (c1 = p1 ∧ c2 = p2).
Proof.
  unfold startswith. simpl. apply bool_decide_ext. split.
  - by intros [= -> ->].
  - by intros [-> ->].
Qed.

(** ** [SequenceMatcher] *)

(** Closes a goal [l !! e = v] from [Hl : l !! e' = v] when [e] and [e']
    are equal by arithmetic. *)
Ltac same_index Hl := rewrite <- Hl; f_equal; lia.

Section SequenceMatcherFacts.
Context {A : Type} `{Countable A}.
Implicit Types (a b : list A) (sm : SequenceMatcher A) (m : Match).

Lemma elem_of_positions (x : A) b j : j ∈ positions x b ↔ b !! j = Some x.
Proof.
  unfold positions. rewrite list_elem_of_filter, elem_of_seq. split.
  - by intros [? _].
  - intros Hj. split; [done|]. apply lookup_lt_Some in Hj. lia.
Qed.

Lemma positions_snoc (x y : A) b :
  positions x (b ++ [y]) =
  positions x b ++ (if decide (y = x) then [length b] else []).
Proof.
  unfold positions. rewrite length_app. simpl.
  rewrite Nat.add_1_r, seq_S, filter_app. simpl. f_equal.
  - apply filter_ext_Forall. apply Forall_forall. intros j Hj.
    apply elem_of_seq in Hj. by rewrite lookup_app_l by lia.
  - rewrite filter_cons, filter_nil.
    rewrite lookup_app_r, Nat.sub_diag by lia. simpl.
    destruct (decide (y = x)) as [->|Hne].
    + by rewrite decide_True.
    + rewrite decide_False; [done|]. congruence.
Qed.

Lemma index_b_spec b (x : A) :
  index_b b !! x = if decide (x ∈ b) then Some (positions x b) else None.
Proof.
  unfold index_b. induction b as [|y b IH] using rev_ind.
  - simpl. rewrite lookup_empty. destruct (decide (x ∈ [])); [|done]. set_solver.
  - rewrite imap_app, foldl_app. simpl. rewrite Nat.add_0_r.
    rewrite positions_snoc. destruct (decide (y = x)) as [->|Hne].
    + rewrite lookup_insert_eq, IH.
      destruct (decide (x ∈ b ++ [x])) as [_|Hn]; [|set_solver].
      destruct (decide (x ∈ b)) as [Hin|Hin]; simpl; [done|].
      f_equal. replace (positions x b) with (@nil nat); [done|].
      symmetry. apply elem_of_nil_inv. intros j Hj.
      apply elem_of_positions in Hj.
      apply Hin. eapply list_elem_of_lookup_2. done.
    + rewrite lookup_insert_ne by done. rewrite IH, app_nil_r.
      destruct (decide (x ∈ b)) as [Hin|Hin];
        destruct (decide (x ∈ b ++ [y])) as [Hin'|Hin']; try done.
      * exfalso. apply Hin', elem_of_app. by left.
      * apply elem_of_app in Hin' as [?|Hy%list_elem_of_singleton]; [done|].
        by subst.
Qed.

Lemma purge_lookup_Some (s : gset A) (mp : gmap A (list nat)) x js :
  purge s mp !! x = Some js → mp !! x = Some js.
Proof. unfold purge. intros Hl. by apply map_lookup_filter_Some in Hl as [? _]. Qed.

Lemma new_sound isjunk a b : b2j_sound (new isjunk a b).
Proof.
  intros x js j Hl Hj. unfold new, chain_b in Hl. simpl in *.
  apply purge_lookup_Some, purge_lookup_Some in Hl.
  rewrite index_b_spec in Hl. case_decide; [|done].
  injection Hl as <-. by apply elem_of_positions in Hj.
Qed.

Lemma new_a isjunk a b : sm_a (new isjunk a b) = a.
Proof. done. Qed.
Lemma new_b isjunk a b : sm_b (new isjunk a b) = b.
Proof. done. Qed.

Lemma best_ok_mono sm alo ahi ahi' blo bhi m :
  ahi ≤ ahi' → best_ok sm alo ahi blo bhi m → best_ok sm alo ahi' blo bhi m.
Proof. unfold best_ok, in_rect. intros ? [(?&?&?&?) ?]. repeat split; [lia..|done]. Qed.

Lemma j2lenget_ok sm alo blo bhi i j j2len x :
  ends_ok sm alo blo bhi i j2len →
  sm_a sm !! i = Some x → sm_b sm !! j = Some x →
  alo ≤ i → blo ≤ j → j < bhi →
  let k := j2lenget j2len j + 1 in
  1 ≤ k ∧ alo + k ≤ i + 1 ∧ blo + k ≤ j + 1 ∧
  match_ok (sm_a sm) (sm_b sm) (i + 1 - k, j + 1 - k, k).
Proof.
  intros Hends Ha Hb Hi Hj Hj'. unfold j2lenget.
  assert (Hone : match_ok (sm_a sm) (sm_b sm) (i + 1 - (0 + 1), j + 1 - (0 + 1), 0 + 1)).
  { intros d Hd. cbn [fst snd] in *. exists x. split; [same_index Ha|same_index Hb]. }
  destruct j as [|j']; [repeat split; [lia..|done]|].
  destruct (j2len !! j') as [k'|] eqn:Hl; unfold default, from_option, id;
    [|repeat split; [lia..|done]].
  apply Hends in Hl as (Hk1 & Hk2 & Hk3 & Hk4 & Hm).
  repeat split; [lia..|]. intros d Hd. cbn [fst snd] in *.
  destruct (decide (d < k')) as [Hlt|Hge].
  - destruct (Hm d Hlt) as (y & Hy1 & Hy2). exists y. cbn [fst snd] in *.
    split; [same_index Hy1|same_index Hy2].
  - exists x. split; [same_index Ha|same_index Hb].
Qed.

Lemma flm_row_ok sm alo ahi blo bhi i j2len js newj2len best x :
  sm_a sm !! i = Some x → (∀ j, j ∈ js → sm_b sm !! j = Some x) →
  alo ≤ i → i < ahi →
  ends_ok sm alo blo bhi i j2len →
  ends_ok sm alo blo bhi (i + 1) newj2len →
  best_ok sm alo ahi blo bhi best →
  ends_ok sm alo blo bhi (i + 1) (flm_row i blo bhi j2len js newj2len best).1 ∧
  best_ok sm alo ahi blo bhi (flm_row i blo bhi j2len js newj2len best).2.
Proof.
  intros Ha Hjs Hi Hi' Hprev. revert newj2len best.
  induction js as [|j js IH]; intros newj2len best Hnew Hbest; simpl; [done|].
  assert (Hjs' : ∀ j, j ∈ js → sm_b sm !! j = Some x) by (intros; apply Hjs, elem_of_cons; by right).
  destruct (decide (j < blo)); [by apply IH|].
  destruct (decide (bhi ≤ j)); [done|].
  assert (Hb : sm_b sm !! j = Some x) by (apply Hjs, elem_of_cons; by left).
  destruct (j2lenget_ok sm alo blo bhi i j j2len x) as (Hk1 & Hk2 & Hk3 & Hm);
    [done|done|done|lia..|].
  apply IH; [done| |].
  - intros j0 k0. destruct (decide (j = j0)) as [<-|Hne].
    + rewrite lookup_insert_eq. intros [= <-]. repeat split; [lia..|done].
    + rewrite lookup_insert_ne by done. apply Hnew.
  - destruct (decide (best.2 < j2lenget j2len j + 1)); [|done].
    split; [|done]. unfold in_rect; cbn [fst snd]. lia.
Qed.

Lemma flm_step_ok sm alo ahi blo bhi st i :
  b2j_sound sm → alo ≤ i → i < ahi →
  ends_ok sm alo blo bhi i st.1 → best_ok sm alo ahi blo bhi st.2 →
  ends_ok sm alo blo bhi (i + 1) (flm_step sm blo bhi st i).1 ∧
  best_ok sm alo ahi blo bhi (flm_step sm blo bhi st i).2.
Proof.
  intros Hs Hi Hi' Hends Hbest. unfold flm_step.
  assert (Hempty : ends_ok sm alo blo bhi (i + 1) ∅).
  { intros j k. by rewrite lookup_empty. }
  destruct (sm_a sm !! i) as [x|] eqn:Ha; [|done].
  eapply flm_row_ok; try done.
  intros j Hj. destruct (b2j sm !! x) as [js|] eqn:Hl; simpl in Hj.
  - by eapply Hs.
  - by apply elem_of_nil in Hj.
Qed.

Lemma flm_fold_ok sm alo ahi blo bhi n i st :
  b2j_sound sm → alo ≤ i → i + n ≤ ahi →
  ends_ok sm alo blo bhi i st.1 → best_ok sm alo ahi blo bhi st.2 →
  best_ok sm alo ahi blo bhi (foldl (flm_step sm blo bhi) st (seq i n)).2.
Proof.
  intros Hs. revert i st. induction n as [|n IH]; intros i st Hi Hn Hends Hbest;
    simpl; [done|].
  destruct (flm_step_ok sm alo ahi blo bhi st i) as [H1 H2]; [done|lia..|done|done|].
  apply IH; [lia|lia| |done]. by rewrite <- Nat.add_1_r.
Qed.

Lemma eq_at_true a b i j :
  eq_at a b i j = true → ∃ x, a !! i = Some x ∧ b !! j = Some x.
Proof.
  unfold eq_at. destruct (a !! i) as [x|], (b !! j) as [y|]; try done.
  intros ->%bool_decide_eq_true. by exists y.
Qed.

Lemma extend_left_ok sm junk alo ahi blo bhi n m :
  best_ok sm alo ahi blo bhi m →
  best_ok sm alo ahi blo bhi (extend_left sm junk alo blo n m).
Proof.
  revert m. induction n as [|n IH]; intros [[bi bj] bs] Hm; simpl; [done|].
  destruct (_ && _) eqn:Hc; [|done].
  repeat (apply andb_prop in Hc as [Hc ?]).
  apply bool_decide_eq_true in Hc.
  match goal with Hx : bool_decide (blo < bj) = true |- _ =>
    apply bool_decide_eq_true in Hx end.
  match goal with Hx : eq_at _ _ _ _ = true |- _ =>
    apply eq_at_true in Hx as (x & Hx1 & Hx2) end.
  apply IH. destruct Hm as [(?&?&?&?) Hm]. cbn [fst snd] in *.
  split; [unfold in_rect; cbn [fst snd]; lia|].
  intros d Hd. cbn [fst snd] in *. destruct d as [|d].
  - exists x. split; [same_index Hx1|same_index Hx2].
  - destruct (Hm d) as (y & Hy1 & Hy2); [cbn [fst snd]; lia|]. exists y. cbn [fst snd] in *.
    split; [same_index Hy1|same_index Hy2].
Qed.

Lemma extend_right_ok sm junk alo ahi blo bhi n m :
  best_ok sm alo ahi blo bhi m →
  best_ok sm alo ahi blo bhi (extend_right sm junk ahi bhi n m).
Proof.
  revert m. induction n as [|n IH]; intros [[bi bj] bs] Hm; simpl; [done|].
  destruct (_ && _) eqn:Hc; [|done].
  repeat (apply andb_prop in Hc as [Hc ?]).
  apply bool_decide_eq_true in Hc.
  match goal with Hx : bool_decide (bj + bs < bhi) = true |- _ =>
    apply bool_decide_eq_true in Hx end.
  match goal with Hx : eq_at _ _ _ _ = true |- _ =>
    apply eq_at_true in Hx as (x & Hx1 & Hx2) end.
  apply IH. destruct Hm as [(?&?&?&?) Hm]. cbn [fst snd] in *.
  split; [unfold in_rect; cbn [fst snd]; lia|].
  intros d Hd. cbn [fst snd] in *. destruct (decide (d < bs)) as [Hlt|Hge].
  - by apply Hm.
  - exists x. split; [same_index Hx1|same_index Hx2].
Qed.

Lemma find_longest_match_ok sm alo ahi blo bhi :
  b2j_sound sm → alo ≤ ahi → blo ≤ bhi →
  best_ok sm alo ahi blo bhi (find_longest_match sm alo ahi blo bhi).
Proof.
  intros Hs Ha Hb. unfold find_longest_match.
  apply extend_right_ok, extend_left_ok, extend_right_ok, extend_left_ok.
  unfold range. apply flm_fold_ok; cbn [fst snd]; [done|lia|lia| |].
  - intros j k. by rewrite lookup_empty.
  - split; [unfold in_rect; cbn [fst snd]; lia|].
    intros d Hd. cbn [fst snd] in Hd. lia.
Qed.

End SequenceMatcherFacts.


(** *** [get_matching_blocks] returns matches in order *)

Lemma pairwise_app {T} (R : relation T) l1 l2 :
  pairwise R (l1 ++ l2) ↔
  pairwise R l1 ∧ pairwise R l2 ∧ ∀ x y, x ∈ l1 → y ∈ l2 → R x y.
Proof.
  induction l1 as [|x l1 IH]; simpl.
  - split; [intros ?; split_and!; [done..|]|tauto].
    intros x y Hx. by apply elem_of_nil in Hx.
  - rewrite Forall_app, IH. split.
    + intros [[H1 H2] (H3 & H4 & H5)]. split_and!; try done.
      intros x' y [->|Hx]%elem_of_cons Hy.
      * by eapply Forall_forall in H2.
      * by apply H5.
    + intros ([H1 H2] & H3 & H4). split_and!; try done.
      * apply Forall_forall. intros y Hy. apply H4; [by left|done].
      * intros x' y Hx Hy. apply H4; [by right|done].
Qed.

Lemma pairwise_elem {T} (R : relation T) `{!Symmetric R} l x y :
  pairwise R l → x ∈ l → y ∈ l → x = y ∨ R x y.
Proof.
  induction l as [|z l IH]; simpl; intros Hp Hx Hy.
  - by apply elem_of_nil in Hx.
  - destruct Hp as [Hz Hl].
    apply elem_of_cons in Hx as [->|Hx]; apply elem_of_cons in Hy as [->|Hy].
    + by left.
    + right. by eapply Forall_forall in Hz.
    + right. symmetry. by eapply Forall_forall in Hz.
    + by apply IH.
Qed.

Global Instance apart_sym : Symmetric apart.
Proof. unfold apart. intros r s. tauto. Qed.

Lemma blocks_NoDup (l : list Match) :
  pairwise apart (rect_of <$> l) → Forall (λ m, m.2 ≠ 0) l → NoDup l.
Proof.
  induction l as [|x l IH]; simpl; intros Hp Hk; [constructor|].
  destruct Hp as [Hx Hp]. apply Forall_cons in Hk as [Hkx Hk].
  constructor; [|by apply IH].
  intros Hin. eapply Forall_forall in Hx; [|by apply list_elem_of_fmap_2].
  revert Hx Hkx. unfold apart, rect_before, rect_of.
  destruct x as [[??]?]. cbn [fst snd]. lia.
Qed.

Lemma apart_inside e r r' : apart e r → inside r' r → apart e r'.
Proof. unfold apart, rect_before, inside. lia. Qed.

Section MatchingBlocks.
Context {A : Type} `{Countable A}.
Implicit Types (a b : list A) (sm : SequenceMatcher A) (m : Match).

Lemma gmb_loop_inv sm n queue blocks :
  b2j_sound sm → gmb_inv sm queue blocks →
  gmb_inv sm (gmb_loop sm n queue blocks).1 (gmb_loop sm n queue blocks).2 ∧
  (queue_size queue ≤ n → (gmb_loop sm n queue blocks).1 = []).
Proof.
  intros Hs. revert queue blocks.
  induction n as [|n IH]; intros queue blocks Hinv.
  { destruct queue as [|[[[alo ahi] blo] bhi] queue]; [done|].
    split; [done|]. unfold queue_size. simpl. lia. }
  destruct queue as [|[[[alo ahi] blo] bhi] queue]; [done|]. simpl.
  destruct Hinv as (Hq & Hb & Hp).
  apply Forall_cons in Hq as [(Hr1 & Hr2 & Hr3 & Hr4) Hq]. cbn [fst snd] in *.
  pose proof (find_longest_match_ok sm alo ahi blo bhi Hs Hr1 Hr3) as [Hin Hm].
  destruct (find_longest_match sm alo ahi blo bhi) as [[i j] k].
  destruct Hin as (Hi1 & Hi2 & Hi3 & Hi4). cbn [fst snd] in *.
  simpl in Hp. destruct Hp as [Hp1 Hp2].
  unfold queue_size. cbn [sum_list_with fst snd]. fold (queue_size queue).
  destruct (decide (k = 0)) as [->|Hk].
  { destruct (IH queue blocks) as [IH1 IH2]; [done|]. split; [done|].
    intros Hn. apply IH2. lia. }
  match goal with |- context [gmb_loop sm n ?q ?bl] =>
    destruct (IH q bl) as [IH1 IH2] end.
  2:{ split; [done|]. intros Hn. apply IH2.
      repeat case_decide; unfold queue_size;
        cbn [sum_list_with fst snd]; fold (queue_size queue); lia. }
  split_and!.
  - repeat case_decide; repeat apply Forall_cons_2; try done;
      unfold rect_ok; cbn [fst snd]; lia.
  - apply Forall_app. split; [done|]. by apply Forall_singleton.
  - rewrite fmap_app. simpl.
    set (rx := rect_of (i, j, k)).
    set (rl := (alo, i, blo, j)). set (rr := (i + k, ahi, j + k, bhi)).
    assert (Hothers : ∀ r', inside r' (alo, ahi, blo, bhi) →
              Forall (apart r') (queue ++ (rect_of <$> blocks))).
    { intros r' Hr'. eapply Forall_impl; [exact Hp1|]. intros e He. simpl in He.
      symmetry. eapply apart_inside; [symmetry; exact He|done]. }
    assert (Hx : inside rx (alo, ahi, blo, bhi))
      by (unfold inside, rx, rect_of; cbn [fst snd]; lia).
    assert (Hl : inside rl (alo, ahi, blo, bhi))
      by (unfold inside, rl; cbn [fst snd]; lia).
    assert (Hr : inside rr (alo, ahi, blo, bhi))
      by (unfold inside, rr; cbn [fst snd]; lia).
    assert (Hbase : pairwise apart (queue ++ (rect_of <$> blocks) ++ [rx])).
    { rewrite app_assoc. apply pairwise_app. split_and!; [done|simpl; auto|].
      intros e y He ->%list_elem_of_singleton.
      symmetry. eapply Forall_forall in He; [exact He|]. by apply Hothers. }
    assert (Hlx : apart rl rx)
      by (left; unfold rect_before, rl, rx, rect_of; cbn [fst snd]; lia).
    assert (Hrx : apart rr rx)
      by (right; unfold rect_before, rr, rx, rect_of; cbn [fst snd]; lia).
    assert (Hrl : apart rr rl)
      by (right; unfold rect_before, rr, rl; cbn [fst snd]; lia).
    assert (Hall : ∀ r', inside r' (alo, ahi, blo, bhi) → apart r' rx →
              Forall (apart r') (queue ++ (rect_of <$> blocks) ++ [rx])).
    { intros r' Hr' Hr'x. rewrite app_assoc. apply Forall_app. split; [by apply Hothers|].
      by apply Forall_singleton. }
    repeat case_decide; simpl; split_and?; try done; auto.
Qed.

(** The bound that [get_matching_blocks] gives to the loop is enough to
    empty the queue. *)
Lemma gmb_loop_terminates sm :
  b2j_sound sm →
  (gmb_loop sm (2 * length (sm_a sm) + 1)
            [(0, length (sm_a sm), 0, length (sm_b sm))] []).1 = [].
Proof.
  intros Hs. apply gmb_loop_inv; [done| |].
  - split_and!; [|done|simpl; auto].
    apply Forall_singleton. unfold rect_ok. cbn [fst snd]. lia.
  - unfold queue_size. simpl. lia.
Qed.

Global Instance Match_le_trans : Transitive Match_le.
Proof. unfold Match_le. intros [[??]?] [[??]?] [[??]?]. cbn [fst snd]. lia. Qed.

Global Instance Match_le_total : Total Match_le.
Proof. unfold Match_le. intros [[??]?] [[??]?]. cbn [fst snd]. lia. Qed.

Lemma sorted_blocks_before (l : list Match) :
  StronglySorted Match_le l → NoDup l →
  (∀ x y, x ∈ l → y ∈ l → x ≠ y → apart (rect_of x) (rect_of y)) →
  Forall (λ m, m.2 ≠ 0) l →
  StronglySorted block_before l.
Proof.
  induction 1 as [|x l Hl IH Hx]; intros Hnd Hap Hk; constructor.
  - apply IH.
    + by apply NoDup_cons in Hnd as [_ ?].
    + intros y z Hy Hz. apply Hap; by right.
    + by apply Forall_cons in Hk as [_ ?].
  - apply Forall_forall. intros y Hy.
    assert (Hne : x ≠ y).
    { apply NoDup_cons in Hnd as [Hnd _]. by intros ->. }
    eapply Forall_forall in Hx; [|exact Hy].
    assert (Hky : y.2 ≠ 0).
    { eapply Forall_forall in Hk; [exact Hk|by right]. }
    destruct (Hap x y) as [Hb|Hb]; [by left|by right|done|done|].
    exfalso. revert Hx Hb Hky. unfold Match_le, rect_before, rect_of.
    destruct x as [[??]?], y as [[??]?]. cbn [fst snd]. lia.
Qed.

Lemma match_ok_bounds a b m :
  match_ok a b m → m.2 ≠ 0 →
  m.1.1 + m.2 ≤ length a ∧ m.1.2 + m.2 ≤ length b.
Proof.
  intros Hm Hk. destruct (Hm (m.2 - 1)) as (x & Hx1 & Hx2); [lia|].
  apply lookup_lt_Some in Hx1, Hx2. lia.
Qed.

Lemma chain_of_sorted a b (l : list Match) i j :
  StronglySorted block_before l →
  Forall (λ m, m.2 ≠ 0 ∧ match_ok a b m) l →
  Forall (λ m, i ≤ m.1.1 ∧ j ≤ m.1.2) l →
  i ≤ length a → j ≤ length b →
  chain a b i j l (length a) (length b).
Proof.
  intros Hs. revert i j. induction Hs as [|x l Hl IH Hx]; intros i j Hok Hlo Hi Hj.
  - done.
  - apply Forall_cons in Hok as [[Hk Hm] Hok].
    apply Forall_cons in Hlo as [[Hi1 Hj1] Hlo].
    destruct (match_ok_bounds a b x Hm Hk) as [Hb1 Hb2].
    destruct x as [[xi xj] xk]. cbn [fst snd] in *. simpl. split_and!; [done..|].
    apply IH; [done| |done..].
    eapply Forall_impl; [exact Hx|]. intros [[yi yj] yk].
    unfold block_before, rect_before, rect_of. cbn [fst snd]. lia.
Qed.

Lemma chain_le a b i j l i' j' : chain a b i j l i' j' → i ≤ i' ∧ j ≤ j'.
Proof.
  revert i j. induction l as [|[[xi xj] xk] l IH]; intros i j; simpl; [done|].
  intros (? & ? & ? & Hc). apply IH in Hc. lia.
Qed.

Lemma chain_weaken a b i j i0 j0 l i' j' :
  chain a b i j l i' j' → i0 ≤ i → j0 ≤ j → chain a b i0 j0 l i' j'.
Proof.
  destruct l as [|[[xi xj] xk] l]; simpl; [lia|].
  intros (? & ? & ? & Hc) ??. split_and!; [lia..|done|done].
Qed.

Lemma chain_snoc a b i j l i'' j'' xi xj xk :
  chain a b i j l xi xj → match_ok a b (xi, xj, xk) →
  xi + xk ≤ i'' → xj + xk ≤ j'' →
  chain a b i j (l ++ [(xi, xj, xk)]) i'' j''.
Proof.
  revert i j. induction l as [|[[yi yj] yk] l IH]; intros i j; simpl.
  - intros [??] ???. split_and!; done.
  - intros (? & ? & ? & Hc) ???. split_and!; [done..|]. by apply IH.
Qed.

Lemma chain_ends a b i j l xi xj i' j' :
  chain a b i j l xi xj → xi ≤ i' → xj ≤ j' → chain a b i j l i' j'.
Proof.
  revert i j. induction l as [|[[yi yj] yk] l IH]; intros i j; simpl; [lia|].
  intros (? & ? & ? & Hc) ??. split_and!; [done..|]. by apply IH.
Qed.

Lemma match_ok_merge a b i1 j1 k1 k2 :
  match_ok a b (i1, j1, k1) → match_ok a b (i1 + k1, j1 + k1, k2) →
  match_ok a b (i1, j1, k1 + k2).
Proof.
  intros H1 H2 d Hd. cbn [fst snd] in *.
  destruct (decide (d < k1)) as [Hlt|Hge]; [by apply H1|].
  destruct (H2 (d - k1)) as (x & Hx1 & Hx2); [cbn [fst snd]; lia|].
  cbn [fst snd] in *.
  exists x. split; [same_index Hx1|same_index Hx2].
Qed.

Lemma collapse_ok a b (l : list Match) i1 j1 k1 non_adjacent :
  chain a b 0 0 non_adjacent i1 j1 → match_ok a b (i1, j1, k1) →
  chain a b (i1 + k1) (j1 + k1) l (length a) (length b) →
  let st := foldl collapse_step ((i1, j1, k1), non_adjacent) l in
  chain a b 0 0 st.2 st.1.1.1 st.1.1.2 ∧ match_ok a b st.1 ∧
  st.1.1.1 + st.1.2 ≤ length a ∧ st.1.1.2 + st.1.2 ≤ length b.
Proof.
  revert i1 j1 k1 non_adjacent.
  induction l as [|[[i2 j2] k2] l IH]; intros i1 j1 k1 na Hna Hm Hc; simpl.
  - simpl in Hc. split_and!; done || lia.
  - simpl in Hc. destruct Hc as (Hi & Hj & Hm2 & Hc).
    destruct (decide (i1 + k1 = i2 ∧ j1 + k1 = j2)) as [[<- <-]|Hna'].
    + apply IH; [done| |].
      * by apply match_ok_merge.
      * by rewrite <- !Nat.add_assoc in Hc.
    + apply IH; [|done|done].
      destruct (decide (k1 = 0)) as [->|Hk1].
      * eapply chain_ends; [done|lia..].
      * by apply chain_snoc.
Qed.

(** [get_matching_blocks] returns valid matches, one after the other in
    both sequences and ending with the sentinel. *)
Lemma get_matching_blocks_chain sm :
  b2j_sound sm →
  ∃ l, get_matching_blocks sm = l ++ [(length (sm_a sm), length (sm_b sm), 0)] ∧
       chain (sm_a sm) (sm_b sm) 0 0 l (length (sm_a sm)) (length (sm_b sm)).
Proof.
  intros Hs. unfold get_matching_blocks.
  set (la := length (sm_a sm)). set (lb := length (sm_b sm)).
  destruct (gmb_loop_inv sm (2 * la + 1) [(0, la, 0, lb)] [] Hs) as [(_ & Hb & Hp) _].
  { split_and!; [|done|simpl; auto].
    apply Forall_singleton. unfold rect_ok. cbn [fst snd]. lia. }
  set (blocks := (gmb_loop sm (2 * la + 1) [(0, la, 0, lb)] []).2) in *.
  apply pairwise_app in Hp as (_ & Hp & _).
  set (sorted := merge_sort Match_le blocks).
  assert (Hperm : sorted ≡ₚ blocks) by apply merge_sort_Permutation.
  assert (Hok : Forall (λ m, m.2 ≠ 0 ∧ match_ok (sm_a sm) (sm_b sm) m) sorted).
  { by rewrite Hperm. }
  assert (Hsorted : StronglySorted block_before sorted).
  { apply sorted_blocks_before.
    - apply StronglySorted_merge_sort; apply _.
    - rewrite Hperm. apply blocks_NoDup; [done|].
      eapply Forall_impl; [exact Hb|]. by intros ? [? _].
    - intros x y Hx Hy Hne. rewrite Hperm in Hx, Hy.
      destruct (pairwise_elem apart (rect_of <$> blocks) (rect_of x) (rect_of y))
        as [Heq|?]; [done|by apply list_elem_of_fmap_2..| |done].
      exfalso. apply Hne. revert Heq. unfold rect_of.
      destruct x as [[??]?], y as [[??]?]. cbn [fst snd]. intros [=]. f_equal; [f_equal|]; lia.
    - eapply Forall_impl; [exact Hok|]. by intros ? [? _]. }
  assert (Hchain : chain (sm_a sm) (sm_b sm) 0 0 sorted la lb).
  { apply chain_of_sorted; [done|done| |lia|lia].
    apply Forall_forall. intros; lia. }
  pose proof (collapse_ok (sm_a sm) (sm_b sm) sorted 0 0 0 []) as Hcol.
  destruct (foldl collapse_step (0, 0, 0, []) sorted) as [[[i1 j1] k1] na].
  destruct Hcol as (Hna & Hm & Hi & Hj); [simpl; lia| |done|].
  { intros d Hd. cbn [fst snd] in Hd. lia. }
  cbn [fst snd] in *.
  destruct (decide (k1 = 0)) as [->|Hk1].
  - exists na. split; [done|]. eapply chain_ends; [done|lia..].
  - exists (na ++ [(i1, j1, k1)]). split; [done|]. by apply chain_snoc.
Qed.

End MatchingBlocks.


(** *** [get_opcodes] covers both sequences *)

Lemma slice_lookup {T} (l : list T) lo hi d :
  d < hi - lo → slice l lo hi !! d = l !! (lo + d).
Proof. intros Hd. unfold slice. by rewrite lookup_take_lt, lookup_drop. Qed.

Lemma slice_length {T} (l : list T) lo hi :
  hi ≤ length l → length (slice l lo hi) = hi - lo.
Proof. intros Hhi. unfold slice. rewrite length_take, length_drop. lia. Qed.

Lemma slice_empty {T} (l : list T) lo hi : hi ≤ lo → slice l lo hi = [].
Proof. intros Hle. unfold slice. by replace (hi - lo) with 0 by lia. Qed.

Lemma slice_all {T} (l : list T) : slice l 0 (length l) = l.
Proof. unfold slice. rewrite drop_0, Nat.sub_0_r. apply firstn_all. Qed.

Lemma slice_app {T} (l : list T) lo mid hi :
  lo ≤ mid → mid ≤ hi → slice l lo hi = slice l lo mid ++ slice l mid hi.
Proof.
  intros H1 H2. unfold slice.
  replace (hi - lo) with ((mid - lo) + (hi - mid)) by lia.
  rewrite <- take_take_drop, drop_drop.
  by replace (lo + (mid - lo)) with mid by lia.
Qed.

Lemma slice_one {T} `{Inhabited T} (l : list T) i :
  i < length l → slice l i (i + 1) = [l !!! i].
Proof.
  intros Hi. apply list_eq. intros d. destruct d as [|d].
  - rewrite slice_lookup, Nat.add_0_r by lia. simpl.
    by apply list_lookup_lookup_total_lt.
  - simpl. apply lookup_ge_None. rewrite slice_length by lia. lia.
Qed.

Lemma match_ok_slice {A} (a b : list A) i j k :
  match_ok a b (i, j, k) → slice a i (i + k) = slice b j (j + k).
Proof.
  intros Hm. apply list_eq. intros d. destruct (decide (d < k)) as [Hlt|Hge].
  - rewrite !slice_lookup by lia. destruct (Hm d Hlt) as (x & Hx1 & Hx2).
    cbn [fst snd] in *. by rewrite Hx1, Hx2.
  - unfold slice. rewrite !lookup_take_ge; [done|lia..].
Qed.

Lemma tiles_snoc {A} (a b : list A) i j ops i' j' op :
  tiles a b i j ops i' j' → op_i1 op = i' → op_j1 op = j' → op_wf a b op →
  tiles a b i j (ops ++ [op]) (op_i2 op) (op_j2 op).
Proof.
  revert i j. induction ops as [|o ops IH]; intros i j; simpl.
  - intros [-> ->] ???. done.
  - intros (? & ? & ? & Ht) ???. split_and!; [done..|]. by apply IH.
Qed.

Lemma tiles_le {A} (a b : list A) i j ops i' j' :
  tiles a b i j ops i' j' → i ≤ i' ∧ j ≤ j'.
Proof.
  revert i j. induction ops as [|op ops IH]; intros i j; simpl; [lia|].
  intros (<- & <- & (? & ? & ? & ? & _) & Ht). apply IH in Ht. lia.
Qed.

Section Opcodes.
Context {A : Type} `{Countable A}.
Implicit Types (a b : list A) (sm : SequenceMatcher A) (m : Match).

Lemma opcode_step_ok a b i j answer ai bj size :
  tiles a b 0 0 answer i j → i ≤ ai → j ≤ bj →
  match_ok a b (ai, bj, size) →
  ai + size ≤ length a → bj + size ≤ length b →
  let st := opcode_step (i, j, answer) (ai, bj, size) in
  st.1.1 = ai + size ∧ st.1.2 = bj + size ∧
  tiles a b 0 0 st.2 (ai + size) (bj + size).
Proof.
  intros Ht Hi Hj Hm Ha Hb. unfold opcode_step. cbn [fst snd].
  split; [done|]. split; [done|].
  set (gap := if decide (i < ai ∧ j < bj) then _ else _).
  assert (Hgap : tiles a b 0 0 gap ai bj).
  { unfold gap. repeat case_decide.
    - apply (tiles_snoc a b 0 0 answer i j (Opcode Replace i ai j bj)); try done.
      unfold op_wf; cbn. lia.
    - apply (tiles_snoc a b 0 0 answer i j (Opcode Delete i ai j bj)); try done.
      unfold op_wf; cbn. lia.
    - apply (tiles_snoc a b 0 0 answer i j (Opcode Insert i ai j bj)); try done.
      unfold op_wf; cbn. lia.
    - by replace ai with i by lia; replace bj with j by lia. }
  case_decide as Hsz.
  - subst size. by rewrite !Nat.add_0_r.
  - apply (tiles_snoc a b 0 0 gap ai bj (Opcode Equal ai (ai + size) bj (bj + size)));
      try done.
    unfold op_wf; cbn. split_and!; [lia..|]. by apply match_ok_slice.
Qed.

Lemma opcode_fold_ok a b (l : list Match) i j answer :
  tiles a b 0 0 answer i j →
  chain a b i j l (length a) (length b) →
  let st := foldl opcode_step (i, j, answer) l in
  st.1.1 ≤ length a ∧ st.1.2 ≤ length b ∧ tiles a b 0 0 st.2 st.1.1 st.1.2.
Proof.
  revert i j answer. induction l as [|[[ai bj] size] l IH]; intros i j answer Ht Hc.
  - destruct Hc as [??]. cbn. done.
  - simpl in Hc. destruct Hc as (Hi & Hj & Hm & Hc).
    pose proof (chain_le _ _ _ _ _ _ _ Hc) as [Hla Hlb].
    destruct (opcode_step_ok a b i j answer ai bj size) as (E1 & E2 & Ht');
      [done..|].
    cbn [foldl]. destruct (opcode_step (i, j, answer) (ai, bj, size)) as [[i2 j2] ans2].
    cbn [fst snd] in *. subst i2 j2. by apply IH.
Qed.

(** [get_opcodes] describes how to turn all of [a] into all of [b]. *)
Lemma get_opcodes_tiles sm :
  b2j_sound sm →
  tiles (sm_a sm) (sm_b sm) 0 0 (get_opcodes sm)
        (length (sm_a sm)) (length (sm_b sm)).
Proof.
  intros Hs. unfold get_opcodes.
  destruct (get_matching_blocks_chain sm Hs) as (l & -> & Hc).
  rewrite foldl_app.
  pose proof (opcode_fold_ok (sm_a sm) (sm_b sm) l 0 0 []) as Hf.
  destruct (foldl opcode_step (0, 0, []) l) as [[i j] answer].
  destruct Hf as (Hi & Hj & Ht); [done|done|]. cbn [fst snd] in *.
  cbn [foldl].
  destruct (opcode_step_ok (sm_a sm) (sm_b sm) i j answer
              (length (sm_a sm)) (length (sm_b sm)) 0) as (_ & _ & Ht');
    [done|done|done| |lia|lia|].
  { intros d Hd. cbn [fst snd] in Hd. lia. }
  by rewrite !Nat.add_0_r in Ht'.
Qed.

End Opcodes.


(** *** The bounds of the loops *)

Section Bounds.
Context {A : Type} `{Countable A}.
Implicit Types (sm : SequenceMatcher A) (m : Match).

(** The bounds of the [while] loops that grow a match are never what
    ends them: with a larger bound they return the same. *)
Lemma extend_left_bound sm junk alo blo n n' m :
  m.1.1 - alo ≤ n → n ≤ n' →
  extend_left sm junk alo blo n' m = extend_left sm junk alo blo n m.
Proof.
  revert n' m. induction n as [|n IH]; intros n' [[bi bj] bs] Hm Hn; cbn [fst snd] in *.
  - destruct n' as [|n']; [done|]. cbn [extend_left].
    by rewrite (bool_decide_eq_false_2 (alo < bi)) by lia.
  - destruct n' as [|n']; [lia|]. cbn [extend_left].
    destruct (_ && _); [|done]. apply IH; cbn [fst snd]; lia.
Qed.

Lemma extend_right_bound sm junk ahi bhi n n' m :
  ahi - (m.1.1 + m.2) ≤ n → n ≤ n' →
  extend_right sm junk ahi bhi n' m = extend_right sm junk ahi bhi n m.
Proof.
  revert n' m. induction n as [|n IH]; intros n' [[bi bj] bs] Hm Hn; cbn [fst snd] in *.
  - destruct n' as [|n']; [done|]. cbn [extend_right].
    by rewrite (bool_decide_eq_false_2 (bi + bs < ahi)) by lia.
  - destruct n' as [|n']; [lia|]. cbn [extend_right].
    destruct (_ && _); [|done]. apply IH; cbn [fst snd]; lia.
Qed.

End Bounds.

(** *** A sequence against itself *)

Lemma find_longest_match_empty {A} `{Countable A} (sm : SequenceMatcher A)
    (alo blo bhi : nat) :
  find_longest_match sm alo alo blo bhi = (alo, blo, 0).
Proof.
  unfold find_longest_match. rewrite range_empty by lia. cbn [foldl fst snd].
  rewrite Nat.sub_diag. cbn [extend_left fst snd].
  replace (alo - (alo + 0)) with 0 by lia. cbn [extend_right fst snd].
  rewrite Nat.sub_diag. cbn [extend_left fst snd].
  by replace (alo - (alo + 0)) with 0 by lia.
Qed.

Section SameSequence.
Context {A : Type} `{Countable A}.
Implicit Types (a : list A) (sm : SequenceMatcher A) (m : Match).

Lemma run_kept sm i : kept sm i = true → run sm i = S (prev_run sm i).
Proof. destruct i; simpl; by intros ->. Qed.

Lemma run_not_kept sm i : kept sm i = false → run sm i = 0.
Proof. destruct i; simpl; by intros ->. Qed.

Lemma flm_row_cells i blo bhi j2len js newj2len best :
  Forall (λ j, blo ≤ j ∧ j < bhi) js →
  flm_row i blo bhi j2len js newj2len best =
  foldl (flm_cell i j2len) (newj2len, best) js.
Proof.
  revert newj2len best. induction js as [|j js IH]; intros newj2len best Hjs; [done|].
  apply Forall_cons in Hjs as [[Hlo Hhi] Hjs]. cbn [flm_row foldl].
  rewrite decide_False by lia. rewrite decide_False by lia.
  by rewrite IH.
Qed.

Lemma j2lenget_le sm i j2len j :
  (∀ j k, j2len !! j = Some k → k ≤ run sm j ∧ k ≤ prev_run sm i) →
  j2lenget j2len j ≤ prev_run sm j ∧ j2lenget j2len j ≤ prev_run sm i.
Proof.
  intros Hprev. destruct j as [|j']; simpl; [lia|].
  destruct (j2len !! j') as [k|] eqn:Hl; simpl; [|lia]. by apply Hprev.
Qed.

Lemma flm_cells_off_diagonal sm i j2len (js : list nat) st :
  (∀ j k, j2len !! j = Some k → k ≤ run sm j ∧ k ≤ prev_run sm i) →
  kept sm i = true →
  Forall (λ j, j ≠ i ∧ kept sm j = true ∧ (j < i ∨ run sm i ≤ st.2.2)) js →
  cell_inv sm i st →
  let st' := foldl (flm_cell i j2len) st js in
  cell_inv sm i st' ∧ st'.2 = st.2 ∧ st'.1 !! i = st.1 !! i.
Proof.
  intros Hprev Hi. revert st. induction js as [|j js IH]; intros st Hjs Hst; [done|].
  apply Forall_cons in Hjs as [(Hne & Hj & Hcase) Hjs]. cbn [foldl].
  destruct (j2lenget_le sm i j2len j Hprev) as [Hk1 Hk2].
  destruct Hst as (Hnew & Hdiag & Hbest).
  assert (Hk : j2lenget j2len j + 1 ≤ st.2.2).
  { rewrite (run_kept sm i Hi) in Hcase. destruct Hcase as [Hlt|Hge]; [|lia].
    specialize (Hbest j Hlt). rewrite (run_kept sm j Hj) in Hbest. lia. }
  assert (Hcell : flm_cell i j2len st j = (<[j := j2lenget j2len j + 1]> st.1, st.2)).
  { unfold flm_cell. by rewrite decide_False by lia. }
  destruct (IH (flm_cell i j2len st j)) as (IH1 & IH2 & IH3).
  - rewrite Hcell. exact Hjs.
  - rewrite Hcell. split_and!; [|done..]. cbn [fst]. intros j0 k0.
    destruct (decide (j = j0)) as [<-|Hne'].
    + rewrite lookup_insert_eq. intros [= <-].
      rewrite (run_kept sm j Hj), (run_kept sm i Hi). lia.
    + rewrite lookup_insert_ne by done. apply Hnew.
  - split_and!; [done|by rewrite IH2, Hcell|].
    rewrite IH3, Hcell. cbn [fst]. by rewrite lookup_insert_ne.
Qed.

Lemma positions_split (x : A) a i :
  a !! i = Some x →
  positions x a =
  filter (λ j, a !! j = Some x) (seq 0 i) ++ [i] ++
  filter (λ j, a !! j = Some x) (seq (S i) (length a - S i)).
Proof.
  intros Hi. pose proof (lookup_lt_Some _ _ _ Hi) as Hlt. unfold positions.
  replace (length a) with (i + S (length a - S i)) at 1 by lia.
  rewrite seq_app, filter_app. cbn [seq]. rewrite filter_cons.
  by rewrite decide_True.
Qed.

Lemma main_loop_row sm a st i :
  self_matcher sm a → i < length a →
  row_inv sm i st →
  row_inv sm (S i) (flm_step sm 0 (length a) st i).
Proof.
  intros Hself Hi (Hprev & Hdiag & Hbd & Hbest). unfold flm_step.
  rewrite (self_a _ _ Hself).
  destruct (a !! i) as [x|] eqn:Ha; [|by apply lookup_ge_None in Ha; lia].
  assert (Hkept_eq : kept sm i = bool_decide (is_Some (b2j sm !! x))).
  { unfold kept. by rewrite (self_a _ _ Hself), Ha. }
  destruct (b2j sm !! x) as [js|] eqn:Hjs; cbn [default from_option id].
  2:{ cbn [flm_row fst snd].
      assert (Hrun : run sm i = 0).
      { apply run_not_kept. rewrite Hkept_eq. apply bool_decide_eq_false.
        by intros [? ?]. }
      unfold row_inv. cbn [fst snd].
      split_and!; [by intros j k; rewrite lookup_empty| |done|].
      - intros i' [= <-]. by rewrite lookup_empty.
      - intros j Hj. destruct (decide (j = i)) as [->|]; [lia|]. apply Hbest. lia. }
  assert (Hki : kept sm i = true).
  { rewrite Hkept_eq. apply bool_decide_eq_true. by eexists. }
  assert (Hkept : ∀ j, a !! j = Some x → kept sm j = true).
  { intros j Hj. unfold kept. rewrite (self_a _ _ Hself), Hj.
    apply bool_decide_eq_true. by eexists. }
  rewrite (self_b2j _ _ Hself x js Hjs).
  rewrite flm_row_cells.
  2:{ apply Forall_forall. intros j Hj.
      apply elem_of_positions, lookup_lt_Some in Hj. lia. }
  rewrite (positions_split x a i Ha).
  set (P := λ j, a !! j = Some x).
  rewrite !foldl_app. cbn [foldl].
  (* the columns before the diagonal *)
  destruct (flm_cells_off_diagonal sm i st.1 (filter P (seq 0 i)) (∅, st.2))
    as ((Hn1 & Hd1 & Hb1) & E1 & L1); [done|done| | |].
  { apply Forall_forall. intros j [Hj Hr]%list_elem_of_filter.
    apply elem_of_seq in Hr. split_and!; [lia|by apply Hkept|left; lia]. }
  { unfold cell_inv. cbn [fst snd].
    split_and!; [by intros j k; rewrite lookup_empty|done|done]. }
  set (st1 := foldl (flm_cell i st.1) (∅, st.2) (filter P (seq 0 i))) in *.
  cbn [fst snd] in E1, L1. rewrite lookup_empty in L1.
  (* the diagonal *)
  assert (Hk : j2lenget st.1 i + 1 = run sm i).
  { rewrite (run_kept sm i Hki). unfold j2lenget, prev_run.
    destruct i as [|i']; [done|]. rewrite (Hdiag i' eq_refl). lia. }
  set (st2 := flm_cell i st.1 st1 i).
  assert (Hst2 : cell_inv sm i st2 ∧ run sm i ≤ st2.2.2 ∧
                 st2.1 !! i = Some (run sm i)).
  { unfold st2, flm_cell, cell_inv. rewrite Hk. cbn [fst snd].
    split; [split; [|split]|split].
    - intros j k. destruct (decide (i = j)) as [<-|Hne].
      + rewrite lookup_insert_eq. by intros [= <-].
      + rewrite lookup_insert_ne by done. apply Hn1.
    - by case_decide.
    - intros j Hj. case_decide; cbn [fst snd]; [|by apply Hb1].
      specialize (Hb1 j Hj). lia.
    - case_decide; cbn [snd]; lia.
    - by rewrite lookup_insert_eq. }
  destruct Hst2 as (Hc2 & Hr2 & L2).
  (* the columns after the diagonal *)
  destruct (flm_cells_off_diagonal sm i st.1
              (filter P (seq (S i) (length a - S i))) st2)
    as ((Hn3 & Hd3 & Hb3) & E3 & L3); [done|done| |done|].
  { apply Forall_forall. intros j [Hj Hr]%list_elem_of_filter.
    apply elem_of_seq in Hr. split_and!; [lia|by apply Hkept|by right]. }
  split_and!.
  - intros j k Hl. by apply Hn3.
  - intros i' [= <-]. by rewrite L3, L2.
  - done.
  - intros j Hj. rewrite E3. destruct (decide (j = i)) as [->|]; [done|].
    destruct Hc2 as (_ & _ & Hb2). apply Hb2. lia.
Qed.

Lemma main_loop_diagonal sm a n i st :
  self_matcher sm a → i + n ≤ length a →
  row_inv sm i st →
  row_inv sm (i + n) (foldl (flm_step sm 0 (length a)) st (seq i n)).
Proof.
  intros Hself. revert i st. induction n as [|n IH]; intros i st Hn Hst.
  - by rewrite Nat.add_0_r.
  - cbn [seq foldl]. replace (i + S n) with (S i + n) by lia.
    apply IH; [lia|]. apply (main_loop_row sm a); [done|lia|done].
Qed.

Lemma extend_left_self sm a junk d s :
  self_matcher sm a → d + s ≤ length a →
  extend_left sm junk 0 0 d (d, d, s) =
  if junk then (d, d, s) else (0, 0, s + d).
Proof.
  intros Hself. revert s. induction d as [|d IH]; intros s Hle.
  { cbn. destruct junk; [done|]. by rewrite Nat.add_0_r. }
  cbn [extend_left].
  assert (Hj : junk_at sm (S d - 1) = false).
  { unfold junk_at. destruct (sm_b sm !! _); [|done].
    rewrite (self_junk _ _ Hself). apply bool_decide_eq_false. set_solver. }
  rewrite Hj. destruct junk.
  { rewrite (bool_decide_eq_false_2 (false = true)) by done.
    by rewrite !andb_false_r. }
  assert (He : eq_at (sm_a sm) (sm_b sm) (S d - 1) (S d - 1) = true).
  { unfold eq_at. rewrite (self_a _ _ Hself), (self_b _ _ Hself).
    destruct (a !! (S d - 1)) eqn:Hl; [by apply bool_decide_eq_true|].
    apply lookup_ge_None in Hl. lia. }
  rewrite He, !bool_decide_eq_true_2 by (done || lia). cbn [andb].
  replace (S d - 1) with d by lia. rewrite IH by lia. f_equal. lia.
Qed.

Lemma extend_right_self sm a junk n s :
  self_matcher sm a → s + n ≤ length a →
  extend_right sm junk (length a) (length a) n (0, 0, s) =
  if junk then (0, 0, s) else (0, 0, s + n).
Proof.
  intros Hself. revert s. induction n as [|n IH]; intros s Hle.
  { cbn. destruct junk; [done|]. by rewrite Nat.add_0_r. }
  cbn [extend_right].
  assert (Hj : junk_at sm (0 + s) = false).
  { unfold junk_at. destruct (sm_b sm !! _); [|done].
    rewrite (self_junk _ _ Hself). apply bool_decide_eq_false. set_solver. }
  rewrite Hj. destruct junk.
  { rewrite (bool_decide_eq_false_2 (false = true)) by done.
    by rewrite !andb_false_r. }
  assert (He : eq_at (sm_a sm) (sm_b sm) (0 + s) (0 + s) = true).
  { unfold eq_at. rewrite (self_a _ _ Hself), (self_b _ _ Hself).
    destruct (a !! (0 + s)) eqn:Hl; [by apply bool_decide_eq_true|].
    apply lookup_ge_None in Hl. lia. }
  rewrite He, !bool_decide_eq_true_2 by (done || lia). cbn [andb].
  rewrite IH by lia. f_equal. lia.
Qed.

(** Comparing a sequence with itself, the longest match is all of it. *)
Lemma find_longest_match_self sm a :
  self_matcher sm a → b2j_sound sm →
  find_longest_match sm 0 (length a) 0 (length a) = (0, 0, length a).
Proof.
  intros Hself Hsound. unfold find_longest_match.
  set (st := foldl (flm_step sm 0 (length a)) (∅, (0, 0, 0)) (range 0 (length a))).
  assert (Hdiag : st.2.1.1 = st.2.1.2).
  { unfold st, range. rewrite Nat.sub_0_r.
    apply (main_loop_diagonal sm a (length a) 0 (∅, (0, 0, 0))); [done|lia|].
    unfold row_inv. cbn [fst snd].
    split_and!; [by intros j k; rewrite lookup_empty|done|done|].
    intros j Hj. lia. }
  assert (Hok : best_ok sm 0 (length a) 0 (length a) st.2).
  { unfold st, range.
    apply flm_fold_ok; cbn [fst snd]; [done|lia|lia| |].
    - intros j k. by rewrite lookup_empty.
    - split; [unfold in_rect; cbn [fst snd]; lia|].
      intros d Hd. cbn [fst snd] in Hd. lia. }
  destruct st.2 as [[d d'] s] eqn:Est. cbn [fst snd] in *. subst d'.
  destruct Hok as [(_ & Hle & _ & _) _]. cbn [fst snd] in Hle.
  rewrite !Nat.sub_0_r.
  rewrite (extend_left_self sm a false d s Hself Hle). cbn [fst snd].
  replace (length a - (0 + (s + d))) with (length a - (s + d)) by lia.
  rewrite (extend_right_self sm a false _ (s + d) Hself) by lia. cbn [fst snd].
  replace (s + d + (length a - (s + d))) with (length a) by lia.
  cbn [extend_left fst snd Nat.add]. rewrite Nat.sub_diag. done.
Qed.

End SameSequence.

(** ** [Differ] *)

(** *** Both sides of a delta *)

Lemma left_text_tagged (c : N) (t : str) :
  left_text ([c; 32%N] ++ t) =
  if bool_decide (c = 32%N ∨ c = 45%N) then Some t else None.
Proof.
  unfold left_text. change (lit "  ") with [32%N; 32%N].
  change (lit "- ") with [45%N; 32%N]. simpl. rewrite !startswith_tag.
  repeat case_bool_decide; simpl; try done; exfalso; intuition congruence.
Qed.

Lemma right_text_tagged (c : N) (t : str) :
  right_text ([c; 32%N] ++ t) =
  if bool_decide (c = 32%N ∨ c = 43%N) then Some t else None.
Proof.
  unfold right_text. change (lit "  ") with [32%N; 32%N].
  change (lit "+ ") with [43%N; 32%N]. simpl. rewrite !startswith_tag.
  repeat case_bool_decide; simpl; try done; exfalso; intuition congruence.
Qed.

Lemma lefts_cons line d :
  lefts (line :: d) = option_list (left_text line) ++ lefts d.
Proof. unfold lefts. simpl. by destruct (left_text line). Qed.

Lemma rights_cons line d :
  rights (line :: d) = option_list (right_text line) ++ rights d.
Proof. unfold rights. simpl. by destruct (right_text line). Qed.

Lemma lefts_app d1 d2 : lefts (d1 ++ d2) = lefts d1 ++ lefts d2.
Proof. apply omap_app. Qed.

Lemma rights_app d1 d2 : rights (d1 ++ d2) = rights d1 ++ rights d2.
Proof. apply omap_app. Qed.

Lemma slice_range {T} `{Inhabited T} (x : list T) lo hi :
  hi ≤ length x → slice x lo hi = (λ i, x !!! i) <$> range lo hi.
Proof.
  intros Hhi. apply list_eq. intros d. unfold range.
  rewrite list_lookup_fmap. destruct (decide (d < hi - lo)) as [Hlt|Hge].
  - rewrite slice_lookup, lookup_seq_lt by done. simpl.
    apply list_lookup_lookup_total_lt. lia.
  - rewrite lookup_seq_ge by lia. simpl. apply lookup_ge_None.
    rewrite slice_length by done. lia.
Qed.

Lemma dump_slice (tag : N) (x : list str) lo hi :
  hi ≤ length x → dump tag x lo hi = (λ t, [tag; 32%N] ++ t) <$> slice x lo hi.
Proof.
  intros Hhi. unfold dump. rewrite slice_range by done.
  by rewrite <- list_fmap_compose.
Qed.

Lemma lefts_tagged (c : N) (l : list str) :
  lefts ((λ t, [c; 32%N] ++ t) <$> l) =
  if bool_decide (c = 32%N ∨ c = 45%N) then l else [].
Proof.
  induction l as [|t l IH].
  - simpl. by case_bool_decide.
  - rewrite fmap_cons, lefts_cons, IH, left_text_tagged. by case_bool_decide.
Qed.

Lemma rights_tagged (c : N) (l : list str) :
  rights ((λ t, [c; 32%N] ++ t) <$> l) =
  if bool_decide (c = 32%N ∨ c = 43%N) then l else [].
Proof.
  induction l as [|t l IH].
  - simpl. by case_bool_decide.
  - rewrite fmap_cons, rights_cons, IH, right_text_tagged. by case_bool_decide.
Qed.

Lemma lefts_dump (c : N) (x : list str) lo hi :
  hi ≤ length x →
  lefts (dump c x lo hi) =
  if bool_decide (c = 32%N ∨ c = 45%N) then slice x lo hi else [].
Proof. intros. rewrite dump_slice by done. apply lefts_tagged. Qed.

Lemma rights_dump (c : N) (x : list str) lo hi :
  hi ≤ length x →
  rights (dump c x lo hi) =
  if bool_decide (c = 32%N ∨ c = 43%N) then slice x lo hi else [].
Proof. intros. rewrite dump_slice by done. apply rights_tagged. Qed.

Lemma plain_replace_sides a alo ahi b blo bhi :
  ahi ≤ length a → bhi ≤ length b →
  lefts (plain_replace a alo ahi b blo bhi) = slice a alo ahi ∧
  rights (plain_replace a alo ahi b blo bhi) = slice b blo bhi.
Proof.
  intros Ha Hb. unfold plain_replace. case_decide;
    rewrite lefts_app, rights_app, !lefts_dump, !rights_dump by done;
    simpl; by rewrite ?app_nil_r.
Qed.

Lemma qformat_sides aline bline atags btags :
  lefts (qformat aline bline atags btags) = [aline] ∧
  rights (qformat aline bline atags btags) = [bline].
Proof.
  unfold qformat. change (lit "- ") with [45%N; 32%N].
  change (lit "+ ") with [43%N; 32%N]. change (lit "? ") with [63%N; 32%N].
  destruct (rstrip (keep_original_ws aline atags));
    destruct (rstrip (keep_original_ws bline btags)); done.
Qed.

Lemma intraline_sides aelt belt :
  lefts (intraline aelt belt) = [aelt] ∧ rights (intraline aelt belt) = [belt].
Proof.
  unfold intraline. destruct (foldl tags_step _ _). apply qformat_sides.
Qed.

Lemma search_step_ok a alo ahi b blo bhi st i j :
  alo ≤ i < ahi → blo ≤ j < bhi →
  search_ok a alo ahi b blo bhi st →
  search_ok a alo ahi b blo bhi (search_step a b j st i).
Proof.
  intros Hi Hj Hst. unfold search_step.
  destruct (decide (a !!! i = b !!! j)) as [Heq|Hne].
  - destruct (eq_ij st) eqn:Heqij; [done|].
    destruct Hst as (Hb & He & Hr).
    split_and!; simpl; [done| |done]. by intros ?? [= <- <-].
  - destruct (_ && _); [|done].
    destruct Hst as (Hb & He & Hr).
    split_and!; simpl; [|done|done]. by intros ?? [= <- <-].
Qed.

Lemma search_pairs_ok a alo ahi b blo bhi :
  search_ok a alo ahi b blo bhi (search_pairs a alo ahi b blo bhi).
Proof.
  unfold search_pairs.
  assert (Hin : ∀ lo hi k, k ∈ range lo hi → lo ≤ k < hi).
  { intros lo hi k Hk. unfold range in Hk. apply elem_of_seq in Hk. lia. }
  assert (Hfold : ∀ (l : list nat) (f : search → nat → search) st,
    (∀ st k, k ∈ l → search_ok a alo ahi b blo bhi st →
             search_ok a alo ahi b blo bhi (f st k)) →
    search_ok a alo ahi b blo bhi st →
    search_ok a alo ahi b blo bhi (foldl f st l)).
  { induction l as [|k l IH]; intros f st Hf Hst; simpl; [done|].
    apply IH.
    - intros st' k' Hk'. apply Hf. by right.
    - apply Hf; [by left|done]. }
  apply Hfold.
  - intros st j Hj Hst. apply Hfold; [|done].
    intros st' i Hi Hst'. apply search_step_ok; auto.
  - split_and!; done.
Qed.

Lemma fancy_replace_sides n a alo ahi b blo bhi :
  (ahi - alo) + (bhi - blo) ≤ n →
  alo < ahi → ahi ≤ length a → blo < bhi → bhi ≤ length b →
  lefts (fancy_replace n a alo ahi b blo bhi) = slice a alo ahi ∧
  rights (fancy_replace n a alo ahi b blo bhi) = slice b blo bhi.
Proof.
  revert alo ahi blo bhi.
  induction n as [|n IH]; intros alo ahi blo bhi Hn Ha Ha' Hb Hb'; [lia|].
  cbn [fancy_replace].
  pose proof (search_pairs_ok a alo ahi b blo bhi) as (Hbest & Heq & _).
  set (st := search_pairs a alo ahi b blo bhi) in *.
  set (helper := λ alo ahi blo bhi,
         if decide (alo < ahi)
         then if decide (blo < bhi) then fancy_replace n a alo ahi b blo bhi
              else dump 45 a alo ahi
         else if decide (blo < bhi) then dump 43 b blo bhi else []).
  assert (Hhelper : ∀ alo' ahi' blo' bhi',
    (ahi' - alo') + (bhi' - blo') ≤ n → ahi' ≤ length a → bhi' ≤ length b →
    lefts (helper alo' ahi' blo' bhi') = slice a alo' ahi' ∧
    rights (helper alo' ahi' blo' bhi') = slice b blo' bhi').
  { intros alo' ahi' blo' bhi' Hn' Hla Hlb. unfold helper.
    repeat case_decide.
    - by apply IH.
    - rewrite lefts_dump, rights_dump by done. simpl.
      by rewrite (slice_empty b) by lia.
    - rewrite lefts_dump, rights_dump by done. simpl.
      by rewrite (slice_empty a) by lia.
    - by rewrite (slice_empty a), (slice_empty b) by lia. }
  assert (Hsynch : ∀ best_i best_j mid,
    alo ≤ best_i < ahi → blo ≤ best_j < bhi →
    lefts mid = [a !!! best_i] → rights mid = [b !!! best_j] →
    lefts (helper alo best_i blo best_j ++ mid
           ++ helper (best_i + 1) ahi (best_j + 1) bhi) = slice a alo ahi ∧
    rights (helper alo best_i blo best_j ++ mid
            ++ helper (best_i + 1) ahi (best_j + 1) bhi) = slice b blo bhi).
  { intros best_i best_j mid Hi Hj Hl Hr.
    destruct (Hhelper alo best_i blo best_j) as [E1 E2]; [lia..|].
    destruct (Hhelper (best_i + 1) ahi (best_j + 1) bhi) as [E3 E4]; [lia..|].
    rewrite !lefts_app, !rights_app, E1, E2, E3, E4, Hl, Hr.
    rewrite <- (slice_one a), <- (slice_one b) by lia.
    rewrite (slice_app a alo best_i ahi), (slice_app a best_i (best_i + 1) ahi) by lia.
    by rewrite (slice_app b blo best_j bhi), (slice_app b best_j (best_j + 1) bhi) by lia. }
  destruct (ratio_gt (75 # 100) (best_ratio st)).
  - destruct (eq_ij st) as [[best_i best_j]|] eqn:E.
    + destruct (Heq best_i best_j) as (Hi & Hj & Hsame); [done|].
      apply Hsynch; [done..| |].
      * change (lit "  ") with [32%N; 32%N]. apply (lefts_tagged 32 [_]).
      * change (lit "  ") with [32%N; 32%N]. rewrite Hsame.
        apply (rights_tagged 32 [_]).
    + by apply plain_replace_sides.
  - destruct (best_ij st) as [[best_i best_j]|] eqn:E.
    + destruct (Hbest best_i best_j) as (Hi & Hj); [done|].
      apply Hsynch; [done..| |]; apply intraline_sides.
    + by apply plain_replace_sides.
Qed.

(** The search never leaves [best_i] and [best_j] unassigned when it is
    about to use them. *)
Lemma search_pairs_assigned a alo ahi b blo bhi :
  ratio_gt (75 # 100) (best_ratio (search_pairs a alo ahi b blo bhi)) = false →
  is_Some (best_ij (search_pairs a alo ahi b blo bhi)).
Proof.
  pose proof (search_pairs_ok a alo ahi b blo bhi) as (_ & _ & Hr).
  destruct (best_ij _) as [ij|]; [by eexists|].
  rewrite Hr by done. done.
Qed.

Lemma compare_op_sides a b op :
  op_wf a b op →
  lefts (compare_op a b op) = slice a (op_i1 op) (op_i2 op) ∧
  rights (compare_op a b op) = slice b (op_j1 op) (op_j2 op).
Proof.
  destruct op as [tg i1 i2 j1 j2]. unfold op_wf. cbn.
  intros (Hi & Hi' & Hj & Hj' & Htag). destruct tg.
  - apply fancy_replace_sides; lia.
  - rewrite lefts_dump, rights_dump by done. simpl.
    by rewrite (slice_empty b) by lia.
  - rewrite lefts_dump, rights_dump by done. simpl.
    by rewrite (slice_empty a) by lia.
  - rewrite lefts_dump, rights_dump by done. simpl. done.
Qed.

Lemma compare_ops_sides a b ops i j i' j' :
  tiles a b i j ops i' j' →
  lefts (mjoin (compare_op a b <$> ops)) = slice a i i' ∧
  rights (mjoin (compare_op a b <$> ops)) = slice b j j'.
Proof.
  revert i j. induction ops as [|op ops IH]; intros i j; cbn [tiles].
  - intros [<- <-]. by rewrite !slice_empty by lia.
  - intros (<- & <- & Hwf & Ht). destruct (IH _ _ Ht) as [E1 E2].
    destruct (compare_op_sides a b op Hwf) as [E3 E4].
    rewrite fmap_cons.
    change (mjoin (?x :: ?l)) with (x ++ mjoin l).
    rewrite lefts_app, rights_app, E1, E2, E3, E4.
    destruct Hwf as (? & ? & ? & ? & _).
    apply tiles_le in Ht.
    by rewrite <- !slice_app by lia.
Qed.

(** The delta of [Differ.compare] holds every line of [a] once and in
    order among its common and deleted lines, and every line of [b] once
    and in order among its common and added lines. *)
Lemma compare_sides (a b : list str) :
  lefts (compare a b) = a ∧ rights (compare a b) = b.
Proof.
  unfold compare.
  pose proof (get_opcodes_tiles (new None a b) (new_sound None a b)) as Ht.
  rewrite new_a, new_b in Ht.
  apply compare_ops_sides in Ht. by rewrite !slice_all in Ht.
Qed.


(** The bound on the depth of [_fancy_replace] is never reached: with a
    larger bound the delta is the same. *)
Lemma fancy_replace_bound n n' a alo ahi b blo bhi :
  (ahi - alo) + (bhi - blo) ≤ n → n ≤ n' → alo < ahi → blo < bhi →
  fancy_replace n' a alo ahi b blo bhi = fancy_replace n a alo ahi b blo bhi.
Proof.
  revert n' alo ahi blo bhi.
  induction n as [|n IH]; intros n' alo ahi blo bhi Hn Hn' Ha Hb; [lia|].
  destruct n' as [|n']; [lia|]. cbn [fancy_replace].
  pose proof (search_pairs_ok a alo ahi b blo bhi) as (Hbest & Heq & _).
  set (st := search_pairs a alo ahi b blo bhi) in *.
  assert (Hhelper : ∀ alo' ahi' blo' bhi',
    (ahi' - alo') + (bhi' - blo') ≤ n →
    (if decide (alo' < ahi')
     then if decide (blo' < bhi') then fancy_replace n' a alo' ahi' b blo' bhi'
          else dump 45 a alo' ahi'
     else if decide (blo' < bhi') then dump 43 b blo' bhi' else []) =
    (if decide (alo' < ahi')
     then if decide (blo' < bhi') then fancy_replace n a alo' ahi' b blo' bhi'
          else dump 45 a alo' ahi'
     else if decide (blo' < bhi') then dump 43 b blo' bhi' else [])).
  { intros. repeat case_decide; try done. apply IH; lia. }
  destruct (ratio_gt _ _).
  - destruct (eq_ij st) as [[best_i best_j]|] eqn:E; [|done].
    destruct (Heq best_i best_j) as (Hi & Hj & _); [done|].
    by rewrite !Hhelper by lia.
  - destruct (best_ij st) as [[best_i best_j]|] eqn:E; [|done].
    destruct (Hbest best_i best_j) as (Hi & Hj); [done|].
    by rewrite !Hhelper by lia.
Qed.


(** *** The lines of a delta *)

Lemma tagged_cons (c : N) (t : str) :
  c ∈ [32; 45; 43; 63]%N → tagged ([c; 32%N] ++ t).
Proof.
  intros Hc. repeat (apply elem_of_cons in Hc as [->|Hc]);
    [by exists (EqualOp t)|by exists (OnlyLeft t)|by exists (OnlyRight t)
    |by exists (HintOp t)|by apply elem_of_nil in Hc].
Qed.

Lemma dump_tagged (c : N) x lo hi :
  c ∈ [32; 45; 43; 63]%N → Forall tagged (dump c x lo hi).
Proof.
  intros Hc. unfold dump. apply Forall_fmap, Forall_forall.
  intros i _. by apply tagged_cons.
Qed.

Lemma qformat_tagged aline bline atags btags :
  Forall tagged (qformat aline bline atags btags).
Proof.
  unfold qformat.
  repeat (apply Forall_app; split);
    repeat match goal with |- context [match ?l with [] => _ | _ => _ end] =>
             destruct l end;
    repeat constructor;
    first [by exists (OnlyLeft aline)|by exists (OnlyRight bline)
          |eexists (HintOp _); reflexivity].
Qed.

Lemma fancy_replace_tagged n a alo ahi b blo bhi :
  Forall tagged (fancy_replace n a alo ahi b blo bhi).
Proof.
  revert alo ahi blo bhi. induction n as [|n IH]; intros alo ahi blo bhi;
    [constructor|].
  cbn [fancy_replace].
  assert (Hplain : Forall tagged (plain_replace a alo ahi b blo bhi)).
  { unfold plain_replace. case_decide; apply Forall_app; split;
      apply dump_tagged; set_solver. }
  assert (Hhelper : ∀ alo ahi blo bhi,
    Forall tagged
      (if decide (alo < ahi)
       then if decide (blo < bhi) then fancy_replace n a alo ahi b blo bhi
            else dump 45 a alo ahi
       else if decide (blo < bhi) then dump 43 b blo bhi else [])).
  { intros. repeat case_decide; [apply IH|apply dump_tagged; set_solver..
                                |constructor]. }
  destruct (ratio_gt _ _).
  - destruct (eq_ij _) as [[best_i best_j]|]; [|done].
    repeat (apply Forall_app; split); [apply Hhelper| |apply Hhelper].
    constructor; [|constructor]. by exists (EqualOp (a !!! best_i)).
  - destruct (best_ij _) as [[best_i best_j]|]; [|done].
    repeat (apply Forall_app; split); [apply Hhelper| |apply Hhelper].
    unfold intraline. destruct (foldl tags_step _ _). apply qformat_tagged.
Qed.

(** Every line of a delta is one of the four kinds of line. *)
Lemma compare_tagged (a b : list str) : ∃ ops, compare a b = encode <$> ops.
Proof.
  assert (Hall : Forall tagged (compare a b)).
  { unfold compare. apply Forall_join, Forall_fmap, Forall_forall.
    intros [tg i1 i2 j1 j2] _. cbn. destruct tg;
      [apply fancy_replace_tagged|apply dump_tagged; set_solver..]. }
  induction Hall as [|line l [op ->] _ [ops ->]]; [by exists []|].
  by exists (op :: ops).
Qed.

(** *** Two special deltas *)

Lemma compare_nil_l (b : list str) :
  compare [] b = (λ t, lit "+ " ++ t) <$> b.
Proof.
  unfold compare, get_opcodes, get_matching_blocks. rewrite new_a, new_b.
  cbn [length Nat.mul Nat.add gmb_loop]. rewrite find_longest_match_empty.
  rewrite decide_True by done. cbn [snd merge_sort foldl].
  change (merge_sort Match_le []) with (@nil Match). cbn [foldl].
  rewrite decide_True by done. cbn [app foldl opcode_step].
  rewrite (decide_True (P := 0 = 0)) by done.
  rewrite (decide_False (P := 0 < 0 ∧ 0 < length b)) by lia.
  rewrite (decide_False (P := 0 < 0)) by lia.
  destruct (decide (0 < length b)) as [Hlt|Hge]; cbn [snd fmap list_fmap app].
  - cbn [mjoin list_join compare_op]. rewrite app_nil_r, dump_slice by done.
    by rewrite slice_all.
  - destruct b; [done|]. simpl in Hge. lia.
Qed.

Lemma new_self (a : list str) : self_matcher (new None a a) a.
Proof.
  split; [done|done|done|].
  intros x js Hl. unfold new, chain_b in Hl. cbn [b2j] in Hl.
  apply purge_lookup_Some, purge_lookup_Some in Hl.
  rewrite index_b_spec in Hl. case_decide; [|done]. by injection Hl as <-.
Qed.

(** The delta of a sequence of lines against itself: every line, marked
    as common. *)
Lemma compare_same (a : list str) : compare a a = (λ t, lit "  " ++ t) <$> a.
Proof.
  destruct (decide (a = [])) as [->|Hne]; [by rewrite compare_nil_l|].
  assert (Hlen : length a ≠ 0) by (by destruct a).
  unfold compare, get_opcodes, get_matching_blocks. rewrite new_a, new_b.
  replace (2 * length a + 1) with (S (2 * length a)) by lia.
  cbn [gmb_loop].
  rewrite (find_longest_match_self _ a (new_self a) (new_sound None a a)).
  rewrite (decide_False (P := length a = 0)) by done.
  rewrite (decide_False (P := 0 < 0 ∧ 0 < 0)) by lia.
  rewrite (decide_False (P := 0 + length a < length a ∧ 0 + length a < length a))
    by lia.
  assert (Hloop : ∀ n bl, gmb_loop (new None a a) n [] bl = ([], bl))
    by (by intros []).
  rewrite Hloop. cbn [snd app].
  change (merge_sort Match_le [(0, 0, length a)]) with [(0, 0, length a)].
  cbn [foldl collapse_step].
  rewrite (decide_True (P := 0 + 0 = 0 ∧ 0 + 0 = 0)) by done.
  rewrite (decide_False (P := 0 + length a = 0)) by lia.
  cbn [app foldl opcode_step Nat.add].
  repeat case_decide; try lia.
  cbn [snd app fmap list_fmap mjoin list_join compare_op].
  rewrite app_nil_r, dump_slice by done. by rewrite slice_all.
Qed.

(** ** The annotator *)

Lemma annotate_from h1 h2 diff :
  foldl App.annotate_step (h1, h2) diff =
  (h1 ++ zip_with span (omap left_cls diff) (lefts diff),
   h2 ++ zip_with span (omap right_cls diff) (rights diff)).
Proof.
  revert h1 h2. induction diff as [|line diff IH]; intros h1 h2.
  - simpl. by rewrite !app_nil_r.
  - cbn [foldl]. rewrite lefts_cons, rights_cons.
    unfold App.annotate_step at 2.
    unfold left_text, right_text. cbn [omap list_omap]. unfold left_cls, right_cls.
    destruct (startswith line (lit "  ")) eqn:E1.
    { rewrite IH. simpl. by rewrite <- !app_assoc. }
    destruct (startswith line (lit "- ")) eqn:E2.
    { rewrite IH. simpl. destruct (startswith line (lit "+ ")) eqn:E3.
      - exfalso. revert E2 E3. unfold startswith.
        change (lit "- ") with [45%N; 32%N]. change (lit "+ ") with [43%N; 32%N].
        intros H2%bool_decide_eq_true H3%bool_decide_eq_true. simpl in *. congruence.
      - simpl. by rewrite <- !app_assoc. }
    destruct (startswith line (lit "+ ")) eqn:E3.
    { rewrite IH. simpl. by rewrite <- !app_assoc. }
    rewrite IH. done.
Qed.

Lemma annotate_spans diff :
  App.annotate diff =
  (zip_with span (omap left_cls diff) (lefts diff),
   zip_with span (omap right_cls diff) (rights diff)).
Proof. unfold App.annotate. by rewrite annotate_from. Qed.

Lemma left_cls_facts diff :
  length (omap left_cls diff) = length (lefts diff) ∧
  Forall (λ c, c = Unchanged ∨ c = Deleted) (omap left_cls diff).
Proof.
  induction diff as [|line diff [IH1 IH2]]; [by split; [|constructor]|].
  rewrite lefts_cons. cbn [omap list_omap].
  set (rest := omap left_cls diff) in *. unfold left_cls, left_text.
  destruct (startswith line (lit "  ")); simpl.
  { split; [by f_equal|]. constructor; [by left|done]. }
  destruct (startswith line (lit "- ")); simpl.
  { split; [by f_equal|]. constructor; [by right|done]. }
  done.
Qed.

Lemma right_cls_facts diff :
  length (omap right_cls diff) = length (rights diff) ∧
  Forall (λ c, c = Unchanged ∨ c = Added) (omap right_cls diff).
Proof.
  induction diff as [|line diff [IH1 IH2]]; [by split; [|constructor]|].
  rewrite rights_cons. cbn [omap list_omap].
  set (rest := omap right_cls diff) in *. unfold right_cls, right_text.
  destruct (startswith line (lit "  ")); simpl.
  { split; [by f_equal|]. constructor; [by left|done]. }
  destruct (startswith line (lit "- ")) eqn:E2; simpl.
  { destruct (startswith line (lit "+ ")) eqn:E3; [|done].
    exfalso. revert E2 E3. unfold startswith.
    change (lit "- ") with [45%N; 32%N]. change (lit "+ ") with [43%N; 32%N].
    intros H2%bool_decide_eq_true H3%bool_decide_eq_true. simpl in *. congruence. }
  destruct (startswith line (lit "+ ")); simpl; [|done].
  split; [by f_equal|]. constructor; [by right|done].
Qed.

(** The two sides that one pair of texts is rendered to. *)
Lemma annotate_compare (lines1 lines2 : list str) :
  ∃ cs1 cs2,
    length cs1 = length lines1 ∧ length cs2 = length lines2 ∧
    Forall (λ c, c = Unchanged ∨ c = Deleted) cs1 ∧
    Forall (λ c, c = Unchanged ∨ c = Added) cs2 ∧
    App.annotate (compare lines1 lines2) =
      (zip_with span cs1 lines1, zip_with span cs2 lines2).
Proof.
  destruct (compare_sides lines1 lines2) as [El Er].
  destruct (left_cls_facts (compare lines1 lines2)) as [L1 L2].
  destruct (right_cls_facts (compare lines1 lines2)) as [R1 R2].
  exists (omap left_cls (compare lines1 lines2)),
         (omap right_cls (compare lines1 lines2)).
  rewrite annotate_spans, El, Er in *. done.
Qed.


Lemma annotate_step_encode h1 h2 op :
  App.annotate_step (h1, h2) (encode op) = (h1 ++ left_of op, h2 ++ right_of op).
Proof.
  unfold App.annotate_step.
  change (lit "  ") with [32%N; 32%N]. change (lit "- ") with [45%N; 32%N].
  change (lit "+ ") with [43%N; 32%N].
  destruct op as [t|t|t|t]; cbn [encode left_of right_of];
    [change (lit "  ") with [32%N; 32%N]|change (lit "- ") with [45%N; 32%N]
    |change (lit "+ ") with [43%N; 32%N]|change (lit "? ") with [63%N; 32%N]];
    cbn [app]; rewrite !startswith_tag; cbn; by rewrite ?app_nil_r.
Qed.

Lemma annotate_encode_from h1 h2 ops :
  foldl App.annotate_step (h1, h2) (encode <$> ops) =
  (h1 ++ (ops ≫= left_of), h2 ++ (ops ≫= right_of)).
Proof.
  revert h1 h2. induction ops as [|op ops IH]; intros h1 h2.
  - simpl. by rewrite !app_nil_r.
  - rewrite fmap_cons. cbn [foldl]. rewrite annotate_step_encode, IH.
    cbn [mbind list_bind]. by rewrite <- !app_assoc.
Qed.


Lemma annotate_added (b : list str) :
  App.annotate ((λ t, lit "+ " ++ t) <$> b) = ([], span Added <$> b).
Proof.
  replace ((λ t, lit "+ " ++ t) <$> b) with (encode <$> (OnlyRight <$> b))
    by (by rewrite <- list_fmap_compose).
  unfold App.annotate. rewrite annotate_encode_from. f_equal.
  - induction b as [|t b IH]; [done|]. by rewrite fmap_cons.
  - induction b as [|t b IH]; [done|]. rewrite !fmap_cons. cbn. by f_equal.
Qed.

Lemma annotate_unchanged (a : list str) :
  App.annotate ((λ t, lit "  " ++ t) <$> a) =
  (span Unchanged <$> a, span Unchanged <$> a).
Proof.
  replace ((λ t, lit "  " ++ t) <$> a) with (encode <$> (EqualOp <$> a))
    by (by rewrite <- list_fmap_compose).
  unfold App.annotate. rewrite annotate_encode_from. f_equal.
  - induction a as [|t a IH]; [done|]. rewrite !fmap_cons. cbn. by f_equal.
  - induction a as [|t a IH]; [done|]. rewrite !fmap_cons. cbn. by f_equal.
Qed.


(** ** Ordered dictionaries *)

Lemma oget_oset {V} (d : odict V) k v k' :
  oget (oset k v d) k' = if decide (k = k') then Some v else oget d k'.
Proof.
  induction d as [|[k0 v0] d IH]; simpl.
  - done.
  - destruct (decide (k0 = k)) as [->|Hne]; simpl.
    + by destruct (decide (k = k')).
    + rewrite IH. destruct (decide (k0 = k')) as [->|]; [|done].
      by rewrite decide_False by done.
Qed.

Lemma okeys_oset {V} (d : odict V) k v :
  okeys (oset k v d) = if decide (k ∈ okeys d) then okeys d else okeys d ++ [k].
Proof.
  unfold okeys. induction d as [|[k0 v0] d IH].
  - destruct (decide (k ∈ ([] : odict V).*1)) as [Hin|_]; [|done].
    by apply elem_of_nil in Hin.
  - cbn [oset]. destruct (decide (k0 = k)) as [->|Hne].
    + destruct (decide (k ∈ ((k, v0) :: d).*1)) as [_|Hn]; [done|].
      exfalso. apply Hn. by left.
    + rewrite !fmap_cons, IH. cbn [fst].
      destruct (decide (k ∈ d.*1)) as [Hin|Hin];
        destruct (decide (k ∈ k0 :: d.*1)) as [Hin'|Hin']; try done.
      * exfalso. apply Hin'. by right.
      * apply elem_of_cons in Hin' as [->|?]; done.
Qed.

Lemma odict_comp_from {V} (f : str → V) ks (d0 : odict V) :
  let d := foldl (λ d k, oset k (f k) d) d0 ks in
  (∀ k, oget d k = if decide (k ∈ ks) then Some (f k) else oget d0 k) ∧
  (∀ k, k ∈ okeys d ↔ k ∈ okeys d0 ∨ k ∈ ks) ∧
  (NoDup (okeys d0) → NoDup (okeys d)).
Proof.
  revert d0. induction ks as [|k0 ks IH]; intros d0; cbn [foldl].
  - split_and!; [|intros k; rewrite elem_of_nil; tauto|done].
    intros k. rewrite decide_False; [done|]. by intros ?%elem_of_nil.
  - destruct (IH (oset k0 (f k0) d0)) as (IH1 & IH2 & IH3). split_and!.
    + intros k. rewrite IH1, oget_oset.
      destruct (decide (k ∈ ks)) as [Hin|Hin].
      * rewrite decide_True; [done|]. by right.
      * destruct (decide (k0 = k)) as [->|Hne].
        -- rewrite decide_True; [done|]. by left.
        -- rewrite decide_False; [done|]. intros [->|?]%elem_of_cons; done.
    + intros k. rewrite IH2, okeys_oset, elem_of_cons.
      destruct (decide (k0 ∈ okeys d0)) as [Hin|Hin].
      * split; [tauto|]. intros [?|[->|?]]; tauto.
      * rewrite elem_of_app, list_elem_of_singleton. tauto.
    + intros Hnd. apply IH3. rewrite okeys_oset.
      destruct (decide (k0 ∈ okeys d0)) as [Hin|Hin]; [done|].
      apply NoDup_app. split_and!; [done| |apply NoDup_singleton].
      intros k Hk ->%list_elem_of_singleton. done.
Qed.

Lemma oget_odict_comp {V} (f : str → V) ks k :
  oget (odict_comp f ks) k = if decide (k ∈ ks) then Some (f k) else None.
Proof. apply (odict_comp_from f ks []). Qed.

Lemma elem_of_okeys_odict_comp {V} (f : str → V) ks k :
  k ∈ okeys (odict_comp f ks) ↔ k ∈ ks.
Proof.
  destruct (odict_comp_from f ks []) as (_ & Hk & _). unfold odict_comp.
  rewrite Hk. simpl. rewrite elem_of_nil. tauto.
Qed.

Lemma NoDup_okeys_odict_comp {V} (f : str → V) ks :
  NoDup (okeys (odict_comp f ks)).
Proof. apply (odict_comp_from f ks []). constructor. Qed.

Lemma odict_comp_ext {V} (f g : str → V) ks :
  (∀ k, k ∈ ks → f k = g k) → odict_comp f ks = odict_comp g ks.
Proof.
  unfold odict_comp. generalize (@nil (str * V)).
  induction ks as [|k ks IH]; intros d0 Hfg; [done|].
  cbn [foldl]. rewrite Hfg by (by left). apply IH. intros; apply Hfg; by right.
Qed.

Lemma oget_ovalues {V} (d : odict V) k v : oget d k = Some v → v ∈ ovalues d.
Proof.
  unfold ovalues. induction d as [|[k0 v0] d IH]; simpl; [done|].
  case_decide.
  - intros [= ->]. by left.
  - intros ?. right. by apply IH.
Qed.

(** ** [highlight_diff] *)

Lemma highlight_pair_eq cv versions h i j :
  App.highlight_pair cv versions h i j =
  <[versions !!! j :=
      render_right (default [] (oget cv (versions !!! i)))
                   (default [] (oget cv (versions !!! j)))]>
    (<[versions !!! i :=
         render_left (default [] (oget cv (versions !!! i)))
                     (default [] (oget cv (versions !!! j)))]> h).
Proof.
  unfold App.highlight_pair, render_left, render_right.
  by destruct (App.annotate _).
Qed.

(** [highlight_diff] runs [highlight_pair] over [pairs], in that order. *)
Lemma highlight_diff_pairs cv :
  App.highlight_diff cv =
  foldl (λ h p, App.highlight_pair cv (okeys cv) h p.1 p.2) ∅
        (pairs (length (okeys cv))).
Proof.
  unfold App.highlight_diff, pairs. rewrite foldl_bind.
  apply foldl_ext. intros h i. by rewrite foldl_fmap.
Qed.

Lemma elem_of_pairs n i j : (i, j) ∈ pairs n ↔ i < j ∧ j < n.
Proof.
  unfold pairs, range. rewrite list_elem_of_bind. split.
  - intros (i' & Hj & Hi). apply list_elem_of_fmap in Hj as (j' & [= -> ->] & Hj).
    apply elem_of_seq in Hi, Hj. lia.
  - intros [Hi Hj]. exists i. split.
    + apply list_elem_of_fmap. exists j. split; [done|]. apply elem_of_seq. lia.
    + apply elem_of_seq. lia.
Qed.

Lemma pairs_bounds n : Forall (λ p, p.1 < n ∧ p.2 < n) (pairs n).
Proof.
  apply Forall_forall. intros [i j] Hp. apply elem_of_pairs in Hp.
  cbn [fst snd]. lia.
Qed.

(** The pairs are visited in increasing order. *)
Lemma pairs_sorted n : StronglySorted pair_lt (pairs n).
Proof.
  unfold pairs. unfold range at 1. generalize (n - 0).
  assert (Hfrom : ∀ k lo, StronglySorted pair_lt
            (seq lo k ≫= λ i, (λ j, (i, j)) <$> range (i + 1) n));
    [|intros k; apply Hfrom].
  intros k. induction k as [|k IH]; intros lo; [constructor|].
  cbn [seq mbind list_bind]. apply StronglySorted_app_2.
  - intros [i j] [i' j'] Hp Hq.
    apply list_elem_of_fmap in Hp as (? & [= -> ->] & _).
    apply list_elem_of_bind in Hq as (i0 & Hq & Hi0).
    apply list_elem_of_fmap in Hq as (? & [= -> ->] & _).
    apply elem_of_seq in Hi0. left. cbn [fst]. lia.
  - apply (StronglySorted_fmap _ lt); [|apply seq_sorted].
    intros x y Hxy. right. by split.
  - apply IH.
Qed.

Lemma pairs_with_nonempty n k : 2 ≤ n → k < n → pairs_with k (pairs n) ≠ [].
Proof.
  intros Hn Hk Hnil.
  assert (Hin : ∃ p, p ∈ pairs_with k (pairs n)).
  { destruct (decide (k = 0)) as [->|Hk0].
    - exists (0, 1). apply list_elem_of_filter. split; [by left|].
      apply elem_of_pairs. lia.
    - exists (0, k). apply list_elem_of_filter. split; [by right|].
      apply elem_of_pairs. lia. }
  destruct Hin as [p Hp]. rewrite Hnil in Hp. by apply elem_of_nil in Hp.
Qed.

(** The last pair that version number [k] takes part in: with the last
    version for every version but the last, which is last paired with the
    version before it. *)
Lemma last_pairs_with n k :
  2 ≤ n → k < n →
  last (pairs_with k (pairs n)) =
  Some (if decide (k + 1 < n) then (k, n - 1) else (n - 2, n - 1)).
Proof.
  intros Hn Hk. unfold pairs, pairs_with.
  set (row := λ i, (λ j, (i, j)) <$> range (i + 1) n).
  assert (Hrow_last : ∀ i, i + 1 < n →
            row i = ((λ j, (i, j)) <$> range (i + 1) (n - 1)) ++ [(i, n - 1)]).
  { intros i Hi. unfold row. rewrite (range_last (i + 1) n) by lia.
    by rewrite fmap_app. }
  assert (Hafter : ∀ lo, k < lo →
            filter (λ p : nat * nat, p.1 = k ∨ p.2 = k) (range lo n ≫= row) = []).
  { intros lo Hlo. apply filter_nil_Forall, Forall_forall. intros [i j] Hp.
    apply list_elem_of_bind in Hp as (i' & Hj & Hi).
    apply list_elem_of_fmap in Hj as (j' & [= -> ->] & Hj).
    unfold range in Hi, Hj. apply elem_of_seq in Hi, Hj. cbn [fst snd]. lia. }
  case_decide as Hlast.
  - rewrite (range_split 0 k n), (range_split k (k + 1) n), range_one by lia.
    rewrite !bind_app, !filter_app. cbn [mbind list_bind]. rewrite app_nil_r.
    rewrite Hafter by lia.
    rewrite (filter_all_Forall _ (row k)).
    2:{ apply Forall_forall. intros [i j] Hp.
        apply list_elem_of_fmap in Hp as (j' & [= -> ->] & Hj). by left. }
    rewrite app_nil_r, Hrow_last by done. by rewrite app_assoc, last_snoc.
  - assert (k = n - 1) as -> by lia.
    rewrite (range_last 0 n) by lia. rewrite (range_last 0 (n - 1)) by lia.
    rewrite !bind_app, !filter_app. cbn [mbind list_bind]. rewrite !app_nil_r.
    unfold row at 3. rewrite (range_empty (n - 1 + 1) n) by lia.
    cbn [fmap list_fmap]. rewrite filter_nil, app_nil_r.
    rewrite Hrow_last by lia. rewrite filter_app, filter_cons, filter_nil.
    cbn [fst snd]. rewrite decide_True by (by right).
    replace (n - 1 - 1) with (n - 2) by lia. by rewrite app_assoc, last_snoc.
Qed.

Lemma lookup_total_inj (versions : list str) i j :
  NoDup versions → i < length versions → j < length versions →
  versions !!! i = versions !!! j → i = j.
Proof.
  intros Hnd Hi Hj Heq.
  eapply NoDup_lookup; [done| |].
  - by apply list_lookup_lookup_total_lt.
  - rewrite Heq. by apply list_lookup_lookup_total_lt.
Qed.

(** After any run of pairs, the rendering of version number [k] is the
    one that the last pair with [k] has computed. *)
Lemma highlight_pairs_lookup cv versions (ps : list (nat * nat)) h k :
  NoDup versions → k < length versions →
  Forall (λ p, p.1 < length versions ∧ p.2 < length versions) ps →
  foldl (λ h p, App.highlight_pair cv versions h p.1 p.2) h ps
    !! (versions !!! k) =
  match last (pairs_with k ps) with
  | Some p => App.highlight_pair cv versions ∅ p.1 p.2 !! (versions !!! k)
  | None => h !! (versions !!! k)
  end.
Proof.
  intros Hnd Hk. induction ps as [|[i j] ps IH] using rev_ind; intros Hps.
  - done.
  - apply Forall_app in Hps as [Hps [Hi Hj]%Forall_singleton].
    cbn [fst snd] in *.
    rewrite foldl_app. cbn [foldl fst snd]. unfold pairs_with in *.
    rewrite filter_app, filter_cons, filter_nil. cbn [fst snd].
    rewrite !highlight_pair_eq.
    destruct (decide (i = k ∨ j = k)) as [Hin|Hout].
    + rewrite last_snoc. cbn [fst snd]. rewrite highlight_pair_eq.
      destruct (decide (j = k)) as [->|Hjk].
      * by rewrite !lookup_insert_eq.
      * assert (i = k) as -> by tauto.
        rewrite !(lookup_insert_ne _ (versions !!! j)), !lookup_insert_eq; [done|..];
          intros Heq; by apply lookup_total_inj in Heq.
    + rewrite app_nil_r, <- IH by done.
      rewrite !lookup_insert_ne; [done|..];
        intros Heq; apply lookup_total_inj in Heq; try done; lia.
Qed.

Lemma highlight_fold_dom (cv : odict str) (versions : list str) (ps : list (nat * nat))
    (h : gmap str str) (v : str) :
  Forall (λ p, p.1 < length versions ∧ p.2 < length versions) ps →
  is_Some (foldl (λ h p, App.highlight_pair cv versions h p.1 p.2) h ps !! v) →
  is_Some (h !! v) ∨ v ∈ versions.
Proof.
  induction ps as [|[i j] ps IH] using rev_ind; intros Hps; [by left|].
  apply Forall_app in Hps as [Hps [Hi Hj]%Forall_singleton]. cbn [fst snd] in *.
  rewrite foldl_app. cbn [foldl fst snd]. rewrite highlight_pair_eq.
  destruct (decide (versions !!! j = v)) as [<-|Hnj].
  { intros _. right. by apply list_elem_of_lookup_total_2. }
  rewrite lookup_insert_ne by done.
  destruct (decide (versions !!! i = v)) as [<-|Hni].
  { intros _. right. by apply list_elem_of_lookup_total_2. }
  rewrite lookup_insert_ne by done. by apply IH.
Qed.

Lemma highlight_pair_is_pre (cv : odict str) (versions : list str)
    (i j : nat) (k r : str) :
  App.highlight_pair cv versions ∅ i j !! k = Some r →
  ∃ body, r = lit "<pre>" ++ body ++ lit "</pre>".
Proof.
  rewrite highlight_pair_eq.
  destruct (decide (versions !!! j = k)) as [<-|Hnj].
  { rewrite lookup_insert_eq. intros [= <-]. by eexists. }
  rewrite lookup_insert_ne by done.
  destruct (decide (versions !!! i = k)) as [<-|Hni].
  { rewrite lookup_insert_eq. intros [= <-]. by eexists. }
  by rewrite lookup_insert_ne, lookup_empty by done.
Qed.

(** What [highlight_diff] returns for a dictionary of at least two
    versions: a block for every version and for nothing else. *)
Lemma highlight_diff_dom (cv : odict str) (v : str) :
  NoDup (okeys cv) → 2 ≤ length (okeys cv) →
  (is_Some (App.highlight_diff cv !! v) ↔ v ∈ okeys cv) ∧
  (∀ r, App.highlight_diff cv !! v = Some r →
        ∃ body, r = lit "<pre>" ++ body ++ lit "</pre>").
Proof.
  intros Hnd Hn. rewrite highlight_diff_pairs.
  assert (Hin : v ∈ okeys cv →
    ∃ p, foldl (λ h p, App.highlight_pair cv (okeys cv) h p.1 p.2) ∅
           (pairs (length (okeys cv))) !! v =
         App.highlight_pair cv (okeys cv) ∅ p.1 p.2 !! v ∧
         (p.1 < length (okeys cv) ∧ p.2 < length (okeys cv)) ∧
         (okeys cv !!! p.1 = v ∨ okeys cv !!! p.2 = v)).
  { intros Hv. apply list_elem_of_lookup_total_1 in Hv as (k & Hk & <-).
    rewrite (highlight_pairs_lookup cv (okeys cv) _ ∅ k Hnd Hk (pairs_bounds _)).
    destruct (last _) as [p|] eqn:Hlast.
    - exists p. split; [done|].
      apply last_Some_elem_of, list_elem_of_filter in Hlast as [Hp Hpin].
      destruct p as [i j]. apply elem_of_pairs in Hpin. cbn [fst snd] in *.
      split; [lia|]. destruct Hp as [->| ->]; auto.
    - apply last_None in Hlast. by apply pairs_with_nonempty in Hlast. }
  split.
  - split.
    + intros Hsome. apply highlight_fold_dom in Hsome as [Hsome|?];
        [|done|apply pairs_bounds].
      rewrite lookup_empty in Hsome. by destruct Hsome.
    + intros Hv. destruct (Hin Hv) as (p & -> & _ & Hp).
      rewrite highlight_pair_eq. destruct Hp as [<-|<-].
      * destruct (decide (okeys cv !!! p.2 = okeys cv !!! p.1)) as [->|?].
        -- by rewrite lookup_insert_eq.
        -- by rewrite lookup_insert_ne, lookup_insert_eq.
      * by rewrite lookup_insert_eq.
  - intros r Hr.
    assert (Hv : v ∈ okeys cv).
    { assert (Hsome : is_Some (foldl (λ h p, App.highlight_pair cv (okeys cv) h p.1 p.2)
                         ∅ (pairs (length (okeys cv))) !! v)) by (by eexists).
      apply highlight_fold_dom in Hsome as [Hsome|?]; [|done|apply pairs_bounds].
      rewrite lookup_empty in Hsome. by destruct Hsome. }
    destruct (Hin Hv) as (p & Hp & _). rewrite Hp in Hr.
    by eapply highlight_pair_is_pre.
Qed.

Lemma highlight_diff_two (v1 v2 t1 t2 : str) :
  v1 ≠ v2 →
  App.highlight_diff [(v1, t1); (v2, t2)] =
  <[v2 := render_right t1 t2]> {[v1 := render_left t1 t2]}.
Proof.
  intros Hne. rewrite highlight_diff_pairs. cbn [okeys fmap list_fmap fst length].
  change (pairs 2) with [(0, 1)]. cbn [foldl fst snd].
  rewrite highlight_pair_eq.
  change ([v1; v2] !!! 0) with v1. change ([v1; v2] !!! 1) with v2.
  cbn [oget]. rewrite decide_True by done. rewrite decide_False by done.
  rewrite decide_True by done. by rewrite insert_empty.
Qed.

(** ** [compare_versions] *)

(** *** Loading *)

Lemma load_all_from (fs : filesystem) (versions : list str)
    (corpus : str → gmap str str) (d0 : odict (gmap str str)) :
  (∀ v, v ∈ versions → App.get_help_files fs v = Ok (corpus v)) →
  foldl (λ (acc : result (odict (gmap str str))) version,
           help_files ← acc;
           files ← App.get_help_files fs version;
           Ok (oset version files help_files))
        (Ok d0) versions
  = Ok (foldl (λ d k, oset k (corpus k) d) d0 versions).
Proof.
  revert d0. induction versions as [|v versions IH]; intros d0 Hload; [done|].
  cbn [foldl]. rewrite <- IH by (intros; apply Hload; by right).
  f_equal. cbn. rewrite Hload by (by left). done.
Qed.

Lemma load_all_ok (fs : filesystem) (versions : list str) (corpus : str → gmap str str) :
  (∀ v, v ∈ versions → App.get_help_files fs v = Ok (corpus v)) →
  App.load_all fs versions = Ok (odict_comp corpus versions).
Proof. apply load_all_from. Qed.

Lemma compare_versions_loaded (fs : filesystem) (versions : list str) (corpus : str → gmap str str) :
  (∀ v, v ∈ versions → App.get_help_files fs v = Ok (corpus v)) →
  App.compare_versions fs versions =
  Ok (App.diff_loaded (odict_comp corpus versions) versions).
Proof.
  intros Hload. unfold App.compare_versions. by rewrite (load_all_ok _ _ corpus).
Qed.

Lemma loaded_ok (fs : filesystem) (versions : list str) :
  Forall (λ v, ∃ files, App.get_help_files fs v = Ok files) versions →
  ∀ v, v ∈ versions → App.get_help_files fs v = Ok (loaded fs v).
Proof.
  intros Hall v Hv. eapply Forall_forall in Hall as [files Hf]; [|done].
  unfold loaded. by rewrite Hf.
Qed.

Lemma fs_AB_loads :
  ∀ v, v ∈ [lit "A"; lit "B"] → App.get_help_files fs_AB v = Ok (loaded fs_AB v).
Proof. apply loaded_ok. repeat constructor; eexists; vm_compute; reflexivity. Qed.

Lemma text_of_odict_comp (corpus : str → gmap str str) (versions : list str) (cmd v : str) :
  v ∈ versions →
  App.text_of (odict_comp corpus versions) cmd v = entry_text (corpus v) cmd.
Proof.
  intros Hv. unfold App.text_of, entry_text.
  rewrite oget_odict_comp. by rewrite decide_True.
Qed.

Lemma cmd_versions_loaded (corpus : str → gmap str str) (versions : list str) (cmd : str) :
  odict_comp (App.text_of (odict_comp corpus versions) cmd) versions =
  cmd_versions_of corpus versions cmd.
Proof.
  apply odict_comp_ext. intros v Hv. by apply text_of_odict_comp.
Qed.

(** *** The test that decides whether an entry is reported *)

Lemma differs_spec (f : str → str) (versions : list str) :
  App.differs (odict_comp f versions) versions = true ↔
  ∃ v, v ∈ versions ∧ f v ≠ f (versions !!! 0).
Proof.
  unfold App.differs. destruct versions as [|v0 rest].
  - split; [done|]. intros (v & Hv & _). by apply elem_of_nil in Hv.
  - change ((v0 :: rest) !!! 0) with v0.
    rewrite existsb_exists. split.
    + intros (v & Hv%list_elem_of_In & Hne). exists v. split; [by right|].
      apply bool_decide_eq_true in Hne. revert Hne.
      rewrite !oget_odict_comp, !decide_True; [congruence|by left|by right].
    + intros (v & Hv & Hne). apply elem_of_cons in Hv as [->|Hv]; [done|].
      exists v. split; [by apply list_elem_of_In|]. apply bool_decide_eq_true.
      rewrite !oget_odict_comp, !decide_True; [congruence|by left|by right].
Qed.

Lemma differs_single (cv : odict str) (versions : list str) :
  (∀ v w, v ∈ versions → w ∈ versions → v = w) →
  App.differs cv versions = false.
Proof.
  intros Hone. unfold App.differs. destruct versions as [|v0 rest]; [done|].
  apply not_true_is_false. rewrite existsb_exists.
  intros (v & Hv%list_elem_of_In & Hne). apply bool_decide_eq_true in Hne.
  apply Hne. f_equal. apply Hone; [by right|by left].
Qed.

(** *** The loop over the entries *)

Lemma diff_fold_lookup (hf : odict (gmap str str)) (versions l : list str)
    (cmd : str) :
  foldl (App.diff_step hf versions) ∅ l !! cmd =
  if decide (cmd ∈ l ∧
             App.differs (odict_comp (App.text_of hf cmd) versions) versions = true)
  then Some (App.highlight_diff (odict_comp (App.text_of hf cmd) versions))
  else None.
Proof.
  induction l as [|c l IH] using rev_ind.
  - cbn [foldl]. rewrite lookup_empty. case_decide; [|done].
    match goal with Hc : _ ∧ _ |- _ => destruct Hc as [Hc _];
      by apply elem_of_nil in Hc end.
  - rewrite foldl_app. cbn [foldl].
    set (acc := foldl (App.diff_step hf versions) ∅ l) in *.
    unfold App.diff_step.
    destruct (decide (c = cmd)) as [->|Hne].
    + destruct (App.differs _ versions) eqn:Hd.
      * rewrite lookup_insert_eq. rewrite decide_True; [done|].
        split; [|done]. apply elem_of_app. right. by left.
      * rewrite IH. repeat case_decide; try done; exfalso; intuition congruence.
    + assert (Hin : cmd ∈ l ++ [c] ↔ cmd ∈ l).
      { rewrite elem_of_app, list_elem_of_singleton. split; [|tauto].
        intros [?|?]; [done|congruence]. }
      destruct (App.differs (odict_comp (App.text_of hf c) versions) versions).
      * rewrite lookup_insert_ne, IH by done.
        repeat case_decide; try done; exfalso; intuition congruence.
      * rewrite IH. repeat case_decide; try done; exfalso; intuition congruence.
Qed.

Lemma diff_fold_single hf (versions l : list str) :
  (∀ v w, v ∈ versions → w ∈ versions → v = w) →
  foldl (App.diff_step hf versions) ∅ l = ∅.
Proof.
  intros Hone. induction l as [|c l IH] using rev_ind; [done|].
  rewrite foldl_app, IH. cbn [foldl]. unfold App.diff_step.
  by rewrite differs_single.
Qed.

Lemma elem_of_all_commands (l : list (gmap str str)) (s : gset str) (cmd : str) :
  cmd ∈ foldl (λ (all_commands : gset str) (files : gmap str str),
                 all_commands ∪ dom files) s l
  ↔ cmd ∈ s ∨ ∃ files, files ∈ l ∧ cmd ∈ dom files.
Proof.
  revert s. induction l as [|files l IH]; intros s; cbn [foldl].
  - split; [by left|]. intros [?|(? & ?%elem_of_nil & _)]; done.
  - rewrite IH, elem_of_union. split.
    + intros [[?|?]|(files' & ? & ?)]; [by left| |].
      * right. exists files. split; [by left|done].
      * right. exists files'. split; [by right|done].
    + intros [?|(files' & [->|?]%elem_of_cons & ?)]; [by left; left|by left; right|].
      right. by exists files'.
Qed.

Lemma diff_loaded_lookup (corpus : str → gmap str str) (versions : list str) (cmd : str) :
  App.diff_loaded (odict_comp corpus versions) versions !! cmd =
  if App.differs (cmd_versions_of corpus versions cmd) versions
  then Some (App.highlight_diff (cmd_versions_of corpus versions cmd))
  else None.
Proof.
  unfold App.diff_loaded. rewrite diff_fold_lookup, cmd_versions_loaded.
  destruct (App.differs _ versions) eqn:Hd.
  - rewrite decide_True; [done|]. split; [|done].
    rewrite merge_sort_Permutation, elem_of_elements, elem_of_all_commands.
    right. apply differs_spec in Hd as (v & Hv & Hne).
    assert (Hex : ∃ w, w ∈ versions ∧ entry_text (corpus w) cmd ≠ []).
    { destruct (decide (entry_text (corpus v) cmd = [])) as [Hnil|Hnn].
      - exists (versions !!! 0). split; [|congruence].
        apply list_elem_of_lookup_total_2.
        destruct versions; [by apply elem_of_nil in Hv|simpl; lia].
      - by exists v. }
    destruct Hex as (w & Hw & Hne'). exists (corpus w). split.
    + apply (oget_ovalues _ w). rewrite oget_odict_comp. by rewrite decide_True.
    + apply elem_of_dom. unfold entry_text in Hne'.
      destruct (corpus w !! cmd); [by eexists|done].
  - rewrite decide_False; [done|]. by intros [_ ?].
Qed.

Lemma elem_of_dom_diff_loaded (corpus : str → gmap str str) (versions : list str) (cmd : str) :
  cmd ∈ dom (App.diff_loaded (odict_comp corpus versions) versions) ↔
  ∃ v, v ∈ versions ∧
       entry_text (corpus v) cmd ≠ entry_text (corpus (versions !!! 0)) cmd.
Proof.
  rewrite elem_of_dom, diff_loaded_lookup.
  rewrite <- (differs_spec (λ v, entry_text (corpus v) cmd)).
  fold (cmd_versions_of corpus versions cmd).
  destruct (App.differs _ versions); split; try done.
Qed.


(** ** The claims *)

(** *** The examples of the docstring of [highlight_diff] *)

Example highlight_diff_same_text :
  App.highlight_diff [(lit "postgres_10", lit "<HELP_TEXT>");
                      (lit "postgres_11", lit "<HELP_TEXT>")] =
  {[ lit "postgres_10" :=
       lit "<pre>" ++ App.span_unchanged (lit "<HELP_TEXT>") ++ lit "</pre>";
     lit "postgres_11" :=
       lit "<pre>" ++ App.span_unchanged (lit "<HELP_TEXT>") ++ lit "</pre>" ]}.
Proof. vm_compute. reflexivity. Qed.

Example highlight_diff_changed_line :
  App.highlight_diff [(lit "postgres_10", lit "<HELP" ++ nl ++ lit "HELP10>");
                      (lit "postgres_11", lit "<HELP" ++ nl ++ lit "HELP11>")] =
  {[ lit "postgres_10" :=
       lit "<pre>" ++ App.span_unchanged (lit "<HELP") ++ nl
       ++ App.span_deleted (lit "HELP10>") ++ lit "</pre>";
     lit "postgres_11" :=
       lit "<pre>" ++ App.span_unchanged (lit "<HELP") ++ nl
       ++ App.span_added (lit "HELP11>") ++ lit "</pre>" ]}.
Proof. vm_compute. reflexivity. Qed.

(** The delta behind the second example: the two changed lines are close
    enough to be synched, and each is followed by a hint line, which the
    annotator passes over. *)
Example compare_changed_line :
  compare [lit "<HELP"; lit "HELP10>"] [lit "<HELP"; lit "HELP11>"] =
  [lit "  <HELP";
   lit "- HELP10>"; lit "?      ^" ++ nl;
   lit "+ HELP11>"; lit "?      ^" ++ nl].
Proof. vm_compute. reflexivity. Qed.

(** C1. For two versions of an entry, [highlight_diff] renders the left
    text as one tagged line per line of the left text, in order, each
    tagged unchanged or deleted, and the right text as one tagged line
    per line of the right text, in order, each tagged unchanged or
    added: no line is dropped and none appears twice. *)
Theorem highlight_diff_accounts_for_every_line (v1 v2 t1 t2 : str) :
  v1 ≠ v2 →
  ∃ cs1 cs2 : list cls,
    length cs1 = length (splitlines t1) ∧
    length cs2 = length (splitlines t2) ∧
    Forall (λ c, c = Unchanged ∨ c = Deleted) cs1 ∧
    Forall (λ c, c = Unchanged ∨ c = Added) cs2 ∧
    App.highlight_diff [(v1, t1); (v2, t2)] =
      <[v2 := App.pre (zip_with span cs2 (splitlines t2))]>
        {[v1 := App.pre (zip_with span cs1 (splitlines t1))]}.
Proof.
  intros Hne.
  destruct (annotate_compare (splitlines t1) (splitlines t2))
    as (cs1 & cs2 & L1 & L2 & F1 & F2 & Ha).
  exists cs1, cs2. split_and!; [done..|].
  rewrite highlight_diff_two by done. unfold render_left, render_right.
  by rewrite Ha.
Qed.

Lemma highlight_diff_accounts_for_every_line_witness :
  lit "A" ≠ lit "B" ∧
  ∃ cs1 cs2 : list cls,
    length cs1 = length (splitlines (lit "x" ++ nl ++ lit "y")) ∧
    length cs2 = length (splitlines (lit "x" ++ nl ++ lit "z")) ∧
    Forall (λ c, c = Unchanged ∨ c = Deleted) cs1 ∧
    Forall (λ c, c = Unchanged ∨ c = Added) cs2 ∧
    App.highlight_diff [(lit "A", lit "x" ++ nl ++ lit "y");
                        (lit "B", lit "x" ++ nl ++ lit "z")] =
      <[lit "B" := App.pre (zip_with span cs2 (splitlines (lit "x" ++ nl ++ lit "z")))]>
        {[lit "A" := App.pre (zip_with span cs1 (splitlines (lit "x" ++ nl ++ lit "y")))]}.
Proof.
  split; [done|]. apply highlight_diff_accounts_for_every_line. done.
Defined.

(** C2. When the corpora of the selected versions load, an entry is a
    key of the result of [compare_versions] exactly when the text of some
    selected version for it (the empty string when the version has no
    such entry) differs from the text of the first selected version. *)
Theorem compare_versions_keys (fs : filesystem) (versions : list str)
    (corpus : str → gmap str str) :
  2 ≤ length versions →
  (∀ v, v ∈ versions → App.get_help_files fs v = Ok (corpus v)) →
  ∃ diffs, App.compare_versions fs versions = Ok diffs ∧
    ∀ cmd : str,
      cmd ∈ dom diffs ↔
      ∃ v, v ∈ versions ∧
           entry_text (corpus v) cmd ≠ entry_text (corpus (versions !!! 0)) cmd.
Proof.
  intros _ Hload. eexists. split; [by apply compare_versions_loaded|].
  intros cmd. apply elem_of_dom_diff_loaded.
Qed.

Lemma compare_versions_keys_witness :
  2 ≤ length [lit "A"; lit "B"] ∧
  (∀ v, v ∈ [lit "A"; lit "B"] →
        App.get_help_files fs_AB v = Ok (loaded fs_AB v)) ∧
  ∃ diffs, App.compare_versions fs_AB [lit "A"; lit "B"] = Ok diffs ∧
    ∀ cmd : str,
      cmd ∈ dom diffs ↔
      ∃ v, v ∈ [lit "A"; lit "B"] ∧
           entry_text (loaded fs_AB v) cmd ≠
           entry_text (loaded fs_AB ([lit "A"; lit "B"] !!! 0)) cmd.
Proof.
  split; [simpl; lia|]. split; [apply fs_AB_loads|].
  apply (compare_versions_keys fs_AB [lit "A"; lit "B"] (loaded fs_AB)).
  - simpl. lia.
  - apply fs_AB_loads.
Defined.

(** C3, the counterexample. Called with no version, with one version and
    with the same version twice, [compare_versions] returns the ordinary
    empty result and raises nothing. *)
Lemma compare_versions_too_few_returns :
  App.compare_versions fs_AB [] = Ok ∅ ∧
  App.compare_versions fs_AB [lit "A"] = Ok ∅ ∧
  App.compare_versions fs_AB [lit "A"; lit "A"] = Ok ∅.
Proof. split_and!; vm_compute; reflexivity. Qed.

(** C3, as the code has it. The check for fewer than two selected
    versions is made by the view [compare], which answers with the
    message and status 400 and does not call [compare_versions];
    [compare_versions] itself makes no such check: given fewer than two
    distinct versions whose corpora load, it returns the ordinary empty
    result. *)
Theorem too_few_versions_rejected_by_view (fs : filesystem)
    (versions : list str) (corpus : str → gmap str str) :
  (length versions < 2 →
   App.compare fs versions =
   Ok (Body (lit "Please select at least two versions for comparison.") 400)) ∧
  ((∀ v, v ∈ versions → App.get_help_files fs v = Ok (corpus v)) →
   (∀ v w, v ∈ versions → w ∈ versions → v = w) →
   App.compare_versions fs versions = Ok ∅).
Proof.
  split.
  - intros Hlen. unfold App.compare. by rewrite decide_True.
  - intros Hload Hone.
    rewrite (compare_versions_loaded fs versions corpus Hload).
    f_equal. unfold App.diff_loaded. by apply diff_fold_single.
Qed.

Lemma too_few_versions_rejected_by_view_witness :
  length [lit "A"] < 2 ∧
  (∀ v, v ∈ [lit "A"] → App.get_help_files fs_AB v = Ok (loaded fs_AB v)) ∧
  (∀ v w, v ∈ [lit "A"] → w ∈ [lit "A"] → v = w) ∧
  App.compare fs_AB [lit "A"] =
    Ok (Body (lit "Please select at least two versions for comparison.") 400) ∧
  App.compare_versions fs_AB [lit "A"] = Ok ∅.
Proof.
  assert (H0 : length [lit "A"] < 2) by (simpl; lia).
  assert (H1 : ∀ v, v ∈ [lit "A"] →
                    App.get_help_files fs_AB v = Ok (loaded fs_AB v)).
  { apply loaded_ok. repeat constructor; eexists; vm_compute; reflexivity. }
  assert (H2 : ∀ v w : str, v ∈ [lit "A"] → w ∈ [lit "A"] → v = w).
  { intros v w ->%list_elem_of_singleton ->%list_elem_of_singleton. reflexivity. }
  split; [exact H0|]. split; [exact H1|]. split; [exact H2|].
  destruct (too_few_versions_rejected_by_view fs_AB [lit "A"] (loaded fs_AB))
    as [Hview Hcore].
  split; [exact (Hview H0)|exact (Hcore H1 H2)].
Defined.

(** The view answers before anything is loaded: for a version without a
    directory, [compare_versions] raises and the view does not. *)
Example view_rejects_before_loading :
  App.compare_versions fs_AB [lit "C"] = Raise (ListdirError (lit "help_files/C")) ∧
  App.compare fs_AB [lit "C"] =
    Ok (Body (lit "Please select at least two versions for comparison.") 400).
Proof. split; vm_compute; reflexivity. Qed.

(** C4. For more than two versions, [highlight_diff] runs over the pairs
    of positions [(i, j)], [i < j], in the order [(0,1), (0,2), ...,
    (1,2), ...] (all of them, in increasing order of [i] and then of
    [j]), and what it returns for a version is what the last pair
    with that version has computed for it: its rendering as the left
    text against the last version for every version but the last, and
    for the last version its rendering as the right text against the
    one before it. *)
Theorem highlight_diff_last_pair_wins (cv : odict str) (k : nat) :
  NoDup (okeys cv) → 2 < length (okeys cv) → k < length (okeys cv) →
  let versions := okeys cv in
  let n := length versions in
  let text i := default [] (oget cv (versions !!! i)) in
  App.highlight_diff cv =
    foldl (λ h p, App.highlight_pair cv versions h p.1 p.2) ∅ (pairs n) ∧
  (∀ i j, (i, j) ∈ pairs n ↔ i < j ∧ j < n) ∧
  StronglySorted pair_lt (pairs n) ∧
  (∃ p, last (pairs_with k (pairs n)) = Some p ∧
        p = (if decide (k + 1 < n) then (k, n - 1) else (n - 2, n - 1)) ∧
        App.highlight_diff cv !! (versions !!! k) =
        App.highlight_pair cv versions ∅ p.1 p.2 !! (versions !!! k)) ∧
  App.highlight_diff cv !! (versions !!! k) =
    Some (if decide (k + 1 < n) then render_left (text k) (text (n - 1))
          else render_right (text (n - 2)) (text (n - 1))).
Proof.
  intros Hnd Hn Hk versions n text.
  change (2 < n) in Hn. change (k < n) in Hk. change (NoDup versions) in Hnd.
  assert (Hlen : length versions = n) by done.
  assert (Hlookup :
    App.highlight_diff cv !! (versions !!! k) =
    App.highlight_pair cv versions ∅
      (if decide (k + 1 < n) then (k, n - 1) else (n - 2, n - 1)).1
      (if decide (k + 1 < n) then (k, n - 1) else (n - 2, n - 1)).2
      !! (versions !!! k)).
  { rewrite highlight_diff_pairs.
    rewrite (highlight_pairs_lookup cv versions (pairs n) ∅ k Hnd);
      [|lia|rewrite Hlen; apply pairs_bounds].
    by rewrite last_pairs_with by lia. }
  split_and!.
  - apply highlight_diff_pairs.
  - apply elem_of_pairs.
  - apply pairs_sorted.
  - eexists. split; [apply last_pairs_with; lia|]. by split.
  - rewrite Hlookup, highlight_pair_eq. case_decide; cbn [fst snd].
    + rewrite lookup_insert_ne, lookup_insert_eq; [done|].
      intros Heq. apply lookup_total_inj in Heq; [lia|done|lia..].
    + replace k with (n - 1) by lia. by rewrite lookup_insert_eq.
Qed.

Lemma highlight_diff_last_pair_wins_witness :
  NoDup (okeys cv_ABC) ∧ 2 < length (okeys cv_ABC) ∧ 1 < length (okeys cv_ABC) ∧
  let versions := okeys cv_ABC in
  let n := length versions in
  let text i := default [] (oget cv_ABC (versions !!! i)) in
  App.highlight_diff cv_ABC =
    foldl (λ h p, App.highlight_pair cv_ABC versions h p.1 p.2) ∅ (pairs n) ∧
  (∀ i j, (i, j) ∈ pairs n ↔ i < j ∧ j < n) ∧
  StronglySorted pair_lt (pairs n) ∧
  (∃ p, last (pairs_with 1 (pairs n)) = Some p ∧
        p = (if decide (1 + 1 < n) then (1, n - 1) else (n - 2, n - 1)) ∧
        App.highlight_diff cv_ABC !! (versions !!! 1) =
        App.highlight_pair cv_ABC versions ∅ p.1 p.2 !! (versions !!! 1)) ∧
  App.highlight_diff cv_ABC !! (versions !!! 1) =
    Some (if decide (1 + 1 < n) then render_left (text 1) (text (n - 1))
          else render_right (text (n - 2)) (text (n - 1))).
Proof.
  assert (H1 : NoDup (okeys cv_ABC)) by (apply (bool_decide_unpack _); vm_compute; exact I).
  assert (H2 : 2 < length (okeys cv_ABC)) by (simpl; lia).
  assert (H3 : 1 < length (okeys cv_ABC)) by (simpl; lia).
  split_and!; [exact H1|exact H2|exact H3|].
  exact (highlight_diff_last_pair_wins cv_ABC 1 H1 H2 H3).
Defined.

(** C5. The annotator renders a delta line by line: a common line adds
    an unchanged line to both sides, a line unique to the left text adds
    a deleted line to the left side only, a line unique to the right
    text adds an added line to the right side only (a hint line adds
    nothing), and every delta of [Differ.compare] consists of such
    lines. A rendered line is its opening tag, the text of the line as
    it is, and the closing tag; the opening tags of added and deleted
    lines carry a background-color style, each its own, and the opening
    tag of an unchanged line carries no style. *)
Theorem annotate_line_by_line :
  (∀ ops : list LineOp,
     App.annotate (encode <$> ops) = (ops ≫= left_of, ops ≫= right_of)) ∧
  (∀ (h1 h2 : list str) (op : LineOp),
     App.annotate_step (h1, h2) (encode op) =
     (h1 ++ left_of op, h2 ++ right_of op)) ∧
  (∀ lines1 lines2 : list str, ∃ ops, compare lines1 lines2 = encode <$> ops) ∧
  (∀ (c : cls) (text : str), span c text = open_tag c ++ text ++ lit "</span>") ∧
  contains (open_tag Added)
    (lit " style=" ++ dq ++ lit "background-color: #e6ffed;" ++ dq) = true ∧
  contains (open_tag Deleted)
    (lit " style=" ++ dq ++ lit "background-color: #ffeef0;" ++ dq) = true ∧
  contains (open_tag Unchanged) (lit "style") = false.
Proof.
  split_and!.
  - intros ops. unfold App.annotate. by rewrite annotate_encode_from.
  - apply annotate_step_encode.
  - apply compare_tagged.
  - intros [] text; unfold span, open_tag, App.span_unchanged, App.span_added,
      App.span_deleted; by rewrite <- ?app_assoc.
  - vm_compute. reflexivity.
  - vm_compute. reflexivity.
  - vm_compute. reflexivity.
Qed.

(** C6, the counterexample. In the scenario with A = {ABORT: x} and
    B = {ABORT: x, ALTER: y} the result does not map ALTER and A to the
    empty string. *)
Lemma compare_versions_absent_entry_not_empty_string :
  App.compare_versions fs_AB [lit "A"; lit "B"] ≠
  Ok {[ lit "ALTER" :=
          {[ lit "A" := []; lit "B" := App.pre [span Added (lit "y")] ]} ]}.
Proof.
  intros Heq.
  apply (f_equal (λ r : result (gmap str (gmap str str)),
                    match r with
                    | Ok diffs => diffs !! lit "ALTER" ≫= (λ m, m !! lit "A")
                    | Raise _ => None
                    end)) in Heq.
  vm_compute in Heq. discriminate Heq.
Qed.

(** C6, as the code has it. A selected version whose corpus lacks an
    entry takes part in the comparison of that entry with the empty
    string as its text, and no exception is raised for it. For two
    versions, the first without the entry and the second with a text
    for it, the result maps the entry to the empty block for the first
    version and to the block of all lines of the text, each tagged
    added, for the second. In the scenario with A = {ABORT: x} and
    B = {ABORT: x, ALTER: y} the result is exactly
    {ALTER: {A: the empty block, B: y tagged added}}; ABORT is not in
    it. *)
Theorem compare_versions_absent_entry (fs : filesystem)
    (versions : list str) (corpus : str → gmap str str) :
  (∀ v, v ∈ versions → App.get_help_files fs v = Ok (corpus v)) →
  (∃ diffs, App.compare_versions fs versions = Ok diffs ∧
     ∀ cmd m, diffs !! cmd = Some m →
       m = App.highlight_diff
             (odict_comp (λ v, match corpus v !! cmd with
                               | Some text => text
                               | None => []
                               end) versions)) ∧
  (∀ vA vB cmd text,
     versions = [vA; vB] → vA ≠ vB →
     corpus vA !! cmd = None → corpus vB !! cmd = Some text → text ≠ [] →
     ∃ diffs, App.compare_versions fs versions = Ok diffs ∧
       diffs !! cmd =
       Some {[ vA := lit "<pre></pre>";
               vB := App.pre (span Added <$> splitlines text) ]}) ∧
  App.compare_versions fs_AB [lit "A"; lit "B"] =
    Ok {[ lit "ALTER" :=
            {[ lit "A" := lit "<pre></pre>";
               lit "B" := App.pre [span Added (lit "y")] ]} ]}.
Proof.
  intros Hload. split_and!.
  - eexists. split; [by apply compare_versions_loaded|].
    intros cmd m. rewrite diff_loaded_lookup.
    destruct (App.differs _ versions); [|done]. by intros [= <-].
  - intros vA vB cmd text -> Hne HA HB Htext.
    eexists. split; [by apply compare_versions_loaded|].
    rewrite diff_loaded_lookup.
    assert (Hd : App.differs (cmd_versions_of corpus [vA; vB] cmd) [vA; vB] = true).
    { apply differs_spec. exists vB. split; [by right; left|].
      change ([vA; vB] !!! 0) with vA. unfold entry_text. rewrite HA, HB. done. }
    rewrite Hd. f_equal. unfold cmd_versions_of, odict_comp. cbn [foldl oset].
    rewrite decide_False by done. unfold entry_text. rewrite HA, HB.
    cbn [default from_option id].
    rewrite highlight_diff_two by done. unfold render_left, render_right.
    change (splitlines []) with (@nil str).
    rewrite compare_nil_l, annotate_added. cbn [fst snd].
    by rewrite insert_singleton_ne by done.
  - vm_compute. reflexivity.
Qed.

Lemma compare_versions_absent_entry_witness :
  (∀ v, v ∈ [lit "A"; lit "B"] →
        App.get_help_files fs_AB v = Ok (loaded fs_AB v)) ∧
  (∃ diffs, App.compare_versions fs_AB [lit "A"; lit "B"] = Ok diffs ∧
     ∀ cmd m, diffs !! cmd = Some m →
       m = App.highlight_diff
             (odict_comp (λ v, match loaded fs_AB v !! cmd with
                               | Some text => text
                               | None => []
                               end) [lit "A"; lit "B"])) ∧
  (∀ vA vB cmd text,
     [lit "A"; lit "B"] = [vA; vB] → vA ≠ vB →
     loaded fs_AB vA !! cmd = None → loaded fs_AB vB !! cmd = Some text →
     text ≠ [] →
     ∃ diffs, App.compare_versions fs_AB [lit "A"; lit "B"] = Ok diffs ∧
       diffs !! cmd =
       Some {[ vA := lit "<pre></pre>";
               vB := App.pre (span Added <$> splitlines text) ]}) ∧
  App.compare_versions fs_AB [lit "A"; lit "B"] =
    Ok {[ lit "ALTER" :=
            {[ lit "A" := lit "<pre></pre>";
               lit "B" := App.pre [span Added (lit "y")] ]} ]}.
Proof.
  split; [apply fs_AB_loads|].
  apply (compare_versions_absent_entry fs_AB [lit "A"; lit "B"] (loaded fs_AB)).
  apply fs_AB_loads.
Defined.

(** C7. For two versions whose corpora load, the result of comparing
    them in one order and the result of comparing them in the other
    order have the same entry names as keys. *)
Theorem reversed_selection_same_keys (fs : filesystem) (vA vB : str)
    (corpus : str → gmap str str) :
  App.get_help_files fs vA = Ok (corpus vA) →
  App.get_help_files fs vB = Ok (corpus vB) →
  ∃ diffs diffs',
    App.compare_versions fs [vA; vB] = Ok diffs ∧
    App.compare_versions fs [vB; vA] = Ok diffs' ∧
    dom diffs = dom diffs'.
Proof.
  intros HA HB.
  assert (Hload : ∀ versions : list str,
            (∀ v, v ∈ versions → v = vA ∨ v = vB) →
            ∀ v, v ∈ versions → App.get_help_files fs v = Ok (corpus v)).
  { intros versions Hsub v Hv. by destruct (Hsub v Hv) as [->| ->]. }
  do 2 eexists. split_and!.
  - apply compare_versions_loaded, Hload.
    intros v [->|[->|[]%elem_of_nil]%elem_of_cons]%elem_of_cons; auto.
  - apply compare_versions_loaded, Hload.
    intros v [->|[->|[]%elem_of_nil]%elem_of_cons]%elem_of_cons; auto.
  - apply set_eq. intros cmd. rewrite !elem_of_dom_diff_loaded.
    change ([vA; vB] !!! 0) with vA. change ([vB; vA] !!! 0) with vB. split.
    + intros (v & [->|[->|[]%elem_of_nil]%elem_of_cons]%elem_of_cons & Hne);
        [done|]. exists vA. split; [by right; left|done].
    + intros (v & [->|[->|[]%elem_of_nil]%elem_of_cons]%elem_of_cons & Hne);
        [done|]. exists vB. split; [by right; left|done].
Qed.

Lemma reversed_selection_same_keys_witness :
  App.get_help_files fs_AB (lit "A") = Ok (loaded fs_AB (lit "A")) ∧
  App.get_help_files fs_AB (lit "B") = Ok (loaded fs_AB (lit "B")) ∧
  ∃ diffs diffs',
    App.compare_versions fs_AB [lit "A"; lit "B"] = Ok diffs ∧
    App.compare_versions fs_AB [lit "B"; lit "A"] = Ok diffs' ∧
    dom diffs = dom diffs'.
Proof.
  split; [vm_compute; reflexivity|]. split; [vm_compute; reflexivity|].
  apply (reversed_selection_same_keys fs_AB (lit "A") (lit "B") (loaded fs_AB));
    vm_compute; reflexivity.
Defined.

(** C8. Comparing a version against itself, or against another version
    with the same corpus, yields the empty result. *)
Theorem compare_versions_same_corpus (fs : filesystem) (vA vB : str)
    (files : gmap str str) :
  App.get_help_files fs vA = Ok files →
  App.get_help_files fs vB = Ok files →
  App.compare_versions fs [vA; vB] = Ok ∅.
Proof.
  intros HA HB.
  rewrite (compare_versions_loaded fs [vA; vB] (λ _, files)).
  - f_equal. apply map_eq. intros cmd. rewrite diff_loaded_lookup, lookup_empty.
    destruct (App.differs _ _) eqn:Hd; [|done].
    apply differs_spec in Hd as (v & _ & Hne). done.
  - intros v [->|[->|[]%elem_of_nil]%elem_of_cons]%elem_of_cons; done.
Qed.

Lemma compare_versions_same_corpus_witness :
  App.get_help_files fs_AB (lit "B") = Ok (loaded fs_AB (lit "B")) ∧
  App.compare_versions fs_AB [lit "B"; lit "B"] = Ok ∅.
Proof.
  split; [vm_compute; reflexivity|].
  apply (compare_versions_same_corpus fs_AB (lit "B") (lit "B")
           (loaded fs_AB (lit "B")));
    vm_compute; reflexivity.
Defined.

(** C9. When the corpora of the selected versions load, every entry of
    the result of [compare_versions] maps exactly the selected versions,
    each to a string that starts with the opening and ends with the
    closing tag of one block. *)
Theorem compare_versions_entries_cover_versions (fs : filesystem)
    (versions : list str) (corpus : str → gmap str str) :
  2 ≤ length versions →
  (∀ v, v ∈ versions → App.get_help_files fs v = Ok (corpus v)) →
  ∃ diffs, App.compare_versions fs versions = Ok diffs ∧
    ∀ (cmd : str) (m : gmap str str),
      diffs !! cmd = Some m →
      (∀ v, is_Some (m !! v) ↔ v ∈ versions) ∧
      (∀ v r, m !! v = Some r →
              ∃ body, r = lit "<pre>" ++ body ++ lit "</pre>").
Proof.
  intros _ Hload. eexists. split; [by apply compare_versions_loaded|].
  intros cmd m. rewrite diff_loaded_lookup.
  destruct (App.differs _ versions) eqn:Hd; [|done]. intros [= <-].
  set (cv := cmd_versions_of corpus versions cmd) in *.
  assert (Hnd : NoDup (okeys cv)) by apply NoDup_okeys_odict_comp.
  assert (Hkeys : ∀ v, v ∈ okeys cv ↔ v ∈ versions)
    by apply elem_of_okeys_odict_comp.
  assert (Hn : 2 ≤ length (okeys cv)).
  { apply differs_spec in Hd as (v & Hv & Hne).
    assert (H0 : versions !!! 0 ∈ versions).
    { apply list_elem_of_lookup_total_2.
      destruct versions; [by apply elem_of_nil in Hv|simpl; lia]. }
    assert (Hvne : v ≠ versions !!! 0) by congruence.
    apply Hkeys in Hv, H0.
    apply list_elem_of_lookup_total_1 in Hv as (i & Hi & Ei).
    apply list_elem_of_lookup_total_1 in H0 as (j & Hj & Ej).
    destruct (decide (i = j)) as [->|Hij]; [congruence|lia]. }
  split.
  - intros v. rewrite <- Hkeys. by apply highlight_diff_dom.
  - intros v. by apply highlight_diff_dom.
Qed.

Lemma compare_versions_entries_cover_versions_witness :
  2 ≤ length [lit "A"; lit "B"] ∧
  (∀ v, v ∈ [lit "A"; lit "B"] →
        App.get_help_files fs_AB v = Ok (loaded fs_AB v)) ∧
  ∃ diffs, App.compare_versions fs_AB [lit "A"; lit "B"] = Ok diffs ∧
    ∀ (cmd : str) (m : gmap str str),
      diffs !! cmd = Some m →
      (∀ v, is_Some (m !! v) ↔ v ∈ [lit "A"; lit "B"]) ∧
      (∀ v r, m !! v = Some r →
              ∃ body, r = lit "<pre>" ++ body ++ lit "</pre>").
Proof.
  split; [simpl; lia|]. split; [apply fs_AB_loads|].
  apply (compare_versions_entries_cover_versions fs_AB [lit "A"; lit "B"]
           (loaded fs_AB)).
  - simpl. lia.
  - apply fs_AB_loads.
Defined.


(** C10. There are texts that differ as strings and have the same lines:
    [x], and [x] followed by a newline. Whenever two versions hold such
    texts for an entry, the entry is in the result of the comparison,
    and both renderings consist of the lines of the entry, each tagged
    unchanged: the result shows the entry without an added or a deleted
    line. *)
Theorem same_lines_reported_without_change (fs : filesystem) (vA vB : str)
    (corpus : str → gmap str str) (cmd t1 t2 : str) :
  vA ≠ vB →
  App.get_help_files fs vA = Ok (corpus vA) →
  App.get_help_files fs vB = Ok (corpus vB) →
  corpus vA !! cmd = Some t1 → corpus vB !! cmd = Some t2 →
  t1 ≠ t2 → splitlines t1 = splitlines t2 →
  (lit "x" ≠ lit "x" ++ nl ∧ splitlines (lit "x") = splitlines (lit "x" ++ nl)) ∧
  ∃ diffs, App.compare_versions fs [vA; vB] = Ok diffs ∧
    diffs !! cmd =
    Some {[ vA := App.pre (span Unchanged <$> splitlines t1);
            vB := App.pre (span Unchanged <$> splitlines t2) ]}.
Proof.
  intros Hne HA HB H1 H2 Ht Hlines. split; [by split|].
  eexists. split.
  { apply (compare_versions_loaded fs [vA; vB] corpus).
    intros v [->|[->|[]%elem_of_nil]%elem_of_cons]%elem_of_cons; done. }
  rewrite diff_loaded_lookup.
  assert (Hd : App.differs (cmd_versions_of corpus [vA; vB] cmd) [vA; vB] = true).
  { apply differs_spec. exists vB. split; [by right; left|].
    change ([vA; vB] !!! 0) with vA. unfold entry_text. rewrite H1, H2.
    cbn. congruence. }
  rewrite Hd. f_equal. unfold cmd_versions_of, odict_comp. cbn [foldl oset].
  rewrite decide_False by done. unfold entry_text. rewrite H1, H2.
  cbn [default from_option id].
  rewrite highlight_diff_two by done. unfold render_left, render_right.
  rewrite <- Hlines, compare_same, annotate_unchanged. cbn [fst snd].
  by rewrite insert_singleton_ne by done.
Qed.

Lemma same_lines_reported_without_change_witness :
  lit "A" ≠ lit "B" ∧
  App.get_help_files fs_newline (lit "A") = Ok (loaded fs_newline (lit "A")) ∧
  App.get_help_files fs_newline (lit "B") = Ok (loaded fs_newline (lit "B")) ∧
  loaded fs_newline (lit "A") !! lit "FOO" = Some (lit "x") ∧
  loaded fs_newline (lit "B") !! lit "FOO" = Some (lit "x" ++ nl) ∧
  lit "x" ≠ lit "x" ++ nl ∧
  splitlines (lit "x") = splitlines (lit "x" ++ nl) ∧
  (lit "x" ≠ lit "x" ++ nl ∧ splitlines (lit "x") = splitlines (lit "x" ++ nl)) ∧
  ∃ diffs, App.compare_versions fs_newline [lit "A"; lit "B"] = Ok diffs ∧
    diffs !! lit "FOO" =
    Some {[ lit "A" := App.pre (span Unchanged <$> splitlines (lit "x"));
            lit "B" := App.pre (span Unchanged <$> splitlines (lit "x" ++ nl)) ]}.
Proof.
  split; [done|]. do 4 (split; [vm_compute; reflexivity|]).
  split; [done|]. split; [vm_compute; reflexivity|].
  apply (same_lines_reported_without_change fs_newline (lit "A") (lit "B")
           (loaded fs_newline) (lit "FOO") (lit "x") (lit "x" ++ nl));
    first [done | vm_compute; reflexivity].
Defined.


(** * Further properties of the application *)

(** ** The loader, [get_help_files] *)

Lemma contains_cons_false (c : N) (s p : str) :
  contains (c :: s) p = false →
  startswith (c :: s) p = false ∧ contains s p = false.
Proof. cbn [contains]. by intros [? ?]%orb_false_elim. Qed.

Lemma remove_all_txt (x y : str) :
  contains x (lit ".txt") = false →
  remove_all (lit ".txt") (x ++ lit ".txt" ++ y) =
  x ++ remove_all (lit ".txt") y.
Proof.
  change (lit ".txt") with [46; 116; 120; 116]%N. unfold remove_all.
  induction x as [|c x IH]; intros Hfree.
  - cbn [app remove_all_from]. unfold startswith at 1. cbn [length take].
    rewrite bool_decide_eq_true_2 by done. done.
  - apply contains_cons_false in Hfree as [Hs Hfree].
    rewrite <- app_comm_cons. cbn [remove_all_from].
    assert (Hs' : startswith (c :: x ++ [46; 116; 120; 116]%N ++ y)
                    [46; 116; 120; 116]%N = false).
    { revert Hs. unfold startswith. cbn [length].
      destruct x as [|c2 [|c3 [|c4 x]]]; cbn [take app]; intros Hs;
        apply bool_decide_eq_false_2; try (intros [=]; done).
      by apply bool_decide_eq_false_1 in Hs. }
    rewrite Hs'. change ((c :: x) ++ ?z) with (c :: (x ++ z)). f_equal.
    exact (IH Hfree).
Qed.

Lemma remove_all_free (x : str) :
  contains x (lit ".txt") = false → remove_all (lit ".txt") x = x.
Proof.
  change (lit ".txt") with [46; 116; 120; 116]%N. unfold remove_all.
  induction x as [|c x IH]; intros Hfree; [done|].
  apply contains_cons_false in Hfree as [Hs Hfree].
  cbn [remove_all_from]. rewrite Hs. f_equal. by apply IH.
Qed.

Lemma entry_name_txt (stem : str) :
  contains stem (lit ".txt") = false → entry_name (stem ++ lit ".txt") = stem.
Proof.
  intros Hfree. unfold entry_name.
  rewrite <- (app_nil_r (lit ".txt")) at 2.
  rewrite remove_all_txt by done. cbn. by rewrite app_nil_r.
Qed.

(** The loop of the loader once a file could not be read. *)
Lemma load_fold_raise (fs : filesystem) (dir : str) (filenames : list str) (e : exn) :
  foldl (λ (acc : result (gmap str str)) filename,
           help_files ← acc;
           match read_text fs (path_join dir filename) with
           | None => Raise (ReadError (path_join dir filename))
           | Some text => Ok (<[remove_all (lit ".txt") filename := text]> help_files)
           end) (Raise e) filenames = Raise e.
Proof. induction filenames as [|f l IH]; [done|]. cbn [foldl]. exact IH. Qed.

(** The loop of the loader over files that can be read. *)
Lemma load_fold_ok (fs : filesystem) (dir : str) (filenames : list str)
    (text : str → str) (m0 : gmap str str) :
  (∀ f, f ∈ filenames → read_text fs (path_join dir f) = Some (text f)) →
  foldl (λ (acc : result (gmap str str)) filename,
           help_files ← acc;
           match read_text fs (path_join dir filename) with
           | None => Raise (ReadError (path_join dir filename))
           | Some text => Ok (<[remove_all (lit ".txt") filename := text]> help_files)
           end) (Ok m0) filenames
  = Ok (foldl (λ m f, <[entry_name f := text f]> m) m0 filenames).
Proof.
  revert m0. induction filenames as [|f l IH]; intros m0 Hread; [done|].
  cbn [foldl]. rewrite <- IH by (intros; apply Hread; by right).
  f_equal. cbn. rewrite Hread by (by left). done.
Qed.

Lemma insert_fold_lookup {V} (key : str → str) (val : str → V)
    (l : list str) (m0 : gmap str V) (k : str) :
  foldl (λ m f, <[key f := val f]> m) m0 l !! k =
  match last (filter (λ f, key f = k) l) with
  | Some f => Some (val f)
  | None => m0 !! k
  end.
Proof.
  induction l as [|f l IH] using rev_ind; [done|].
  rewrite foldl_app, filter_app. cbn [foldl].
  destruct (decide (key f = k)) as [<-|Hne].
  - rewrite lookup_insert_eq. rewrite filter_cons_True by done.
    rewrite filter_nil. by rewrite last_snoc.
  - rewrite lookup_insert_ne by done. rewrite filter_cons_False by done.
    rewrite filter_nil, app_nil_r. exact IH.
Qed.

(** X1. When the directory of a version can be listed and a file in it
    cannot be read, the loader raises the error of the first such file
    in the order of the listing, whatever the files after it hold: it
    returns no partial corpus. *)
Theorem get_help_files_unreadable_file (fs : filesystem) (version : str)
    (before after : list str) (bad : str) :
  listdir fs (help_dir version) = Some (before ++ bad :: after) →
  (∀ f, f ∈ before → is_Some (read_text fs (path_join (help_dir version) f))) →
  read_text fs (path_join (help_dir version) bad) = None →
  App.get_help_files fs version =
  Raise (ReadError (path_join (help_dir version) bad)).
Proof.
  intros Hlist Hread Hbad. unfold App.get_help_files.
  fold (help_dir version). cbv zeta. rewrite Hlist, foldl_app.
  rewrite (load_fold_ok _ _ _
             (λ f, default [] (read_text fs (path_join (help_dir version) f)))).
  - cbn [foldl]. cbn [mbind result_bind]. rewrite Hbad. apply load_fold_raise.
  - intros f Hf. destruct (Hread f Hf) as [t ->]. done.
Qed.

Lemma get_help_files_unreadable_file_witness :
  listdir fs_unreadable (help_dir (lit "A")) =
    Some ([lit "ABORT.txt"] ++ lit "ALTER.txt" :: [lit "BEGIN.txt"]) ∧
  (∀ f, f ∈ [lit "ABORT.txt"] →
        is_Some (read_text fs_unreadable (path_join (help_dir (lit "A")) f))) ∧
  read_text fs_unreadable (path_join (help_dir (lit "A")) (lit "ALTER.txt"))
    = None ∧
  App.get_help_files fs_unreadable (lit "A") =
    Raise (ReadError (path_join (help_dir (lit "A")) (lit "ALTER.txt"))).
Proof.
  assert (H1 : listdir fs_unreadable (help_dir (lit "A")) =
               Some ([lit "ABORT.txt"] ++ lit "ALTER.txt" :: [lit "BEGIN.txt"]))
    by (vm_compute; reflexivity).
  assert (H2 : ∀ f, f ∈ [lit "ABORT.txt"] →
            is_Some (read_text fs_unreadable (path_join (help_dir (lit "A")) f))).
  { intros f ->%list_elem_of_singleton. vm_compute. by eexists. }
  assert (H3 : read_text fs_unreadable
                 (path_join (help_dir (lit "A")) (lit "ALTER.txt")) = None)
    by (vm_compute; reflexivity).
  split; [exact H1|]. split; [exact H2|]. split; [exact H3|].
  exact (get_help_files_unreadable_file fs_unreadable (lit "A")
           [lit "ABORT.txt"] [lit "BEGIN.txt"] (lit "ALTER.txt") H1 H2 H3).
Defined.

(** X2. When the directory of a version can be listed and all its files
    can be read, the loader returns a corpus that holds, under each
    name, the text of the last file of the listing that is filed under
    that name, and nothing under a name that no file is filed under. An
    empty directory gives the empty corpus. *)
Theorem get_help_files_last_file_wins (fs : filesystem) (version : str)
    (filenames : list str) (text : str → str) :
  listdir fs (help_dir version) = Some filenames →
  (∀ f, f ∈ filenames →
        read_text fs (path_join (help_dir version) f) = Some (text f)) →
  ∃ files, App.get_help_files fs version = Ok files ∧
    (∀ cmd, files !! cmd =
            text <$> last (filter (λ f, entry_name f = cmd) filenames)) ∧
    (filenames = [] → files = ∅).
Proof.
  intros Hlist Hread. eexists. split; [|split].
  - unfold App.get_help_files. fold (help_dir version). cbv zeta.
    rewrite Hlist. by apply load_fold_ok.
  - intros cmd. rewrite insert_fold_lookup, lookup_empty.
    by destruct (last _).
  - by intros ->.
Qed.

Lemma get_help_files_last_file_wins_witness :
  listdir fs_same_name (help_dir (lit "A")) = Some [lit "ABORT.txt"; lit "ABORT"] ∧
  (∀ f, f ∈ [lit "ABORT.txt"; lit "ABORT"] →
        read_text fs_same_name (path_join (help_dir (lit "A")) f) =
        Some (default [] (read_text fs_same_name
                            (path_join (help_dir (lit "A")) f)))) ∧
  ∃ files, App.get_help_files fs_same_name (lit "A") = Ok files ∧
    (∀ cmd, files !! cmd =
            (λ f, default [] (read_text fs_same_name
                                (path_join (help_dir (lit "A")) f)))
            <$> last (filter (λ f, entry_name f = cmd)
                             [lit "ABORT.txt"; lit "ABORT"])) ∧
    ([lit "ABORT.txt"; lit "ABORT"] = [] → files = ∅).
Proof.
  assert (H1 : listdir fs_same_name (help_dir (lit "A")) =
               Some [lit "ABORT.txt"; lit "ABORT"]) by (vm_compute; reflexivity).
  assert (H2 : ∀ f, f ∈ [lit "ABORT.txt"; lit "ABORT"] →
            read_text fs_same_name (path_join (help_dir (lit "A")) f) =
            Some (default [] (read_text fs_same_name
                                (path_join (help_dir (lit "A")) f)))).
  { intros f Hf.
    repeat (apply elem_of_cons in Hf as [->|Hf]; [vm_compute; reflexivity|]).
    by apply elem_of_nil in Hf. }
  split; [exact H1|]. split; [exact H2|].
  exact (get_help_files_last_file_wins fs_same_name (lit "A") _ _ H1 H2).
Defined.

Lemma last_elem_of {T} (l : list T) (x : T) : last l = Some x → x ∈ l.
Proof.
  induction l as [|y l IH] using rev_ind; [done|].
  rewrite last_snoc. intros [= ->]. apply elem_of_app. right. by left.
Qed.

Lemma last_is_Some_2 {T} (l : list T) : l ≠ [] → is_Some (last l).
Proof.
  destruct l as [|y l] using rev_ind; [done|]. rewrite last_snoc. by eexists.
Qed.

(** X3. A directory that holds the files [stem.txt] for the stems of a
    list, none of which contains [.txt], loads as the corpus that maps
    every stem to the text of its file, and holds no other name. *)
Theorem get_help_files_txt_files (fs : filesystem) (version : str)
    (stems : list str) (text : str → str) :
  Forall (λ stem, contains stem (lit ".txt") = false) stems →
  listdir fs (help_dir version) = Some ((λ stem, stem ++ lit ".txt") <$> stems) →
  (∀ stem, stem ∈ stems →
     read_text fs (path_join (help_dir version) (stem ++ lit ".txt"))
     = Some (text stem)) →
  ∃ files, App.get_help_files fs version = Ok files ∧
    ∀ cmd, files !! cmd = if decide (cmd ∈ stems) then Some (text cmd) else None.
Proof.
  intros Hfree Hlist Hread. eexists. split.
  - unfold App.get_help_files. fold (help_dir version). cbv zeta.
    rewrite Hlist. apply (load_fold_ok _ _ _ (λ f, text (entry_name f))).
    intros f (stem & -> & Hstem)%list_elem_of_fmap.
    rewrite entry_name_txt; [by apply Hread|].
    by eapply Forall_forall in Hfree.
  - intros cmd. rewrite insert_fold_lookup, lookup_empty.
    set (fl := filter _ _).
    assert (Hfl : ∀ f, f ∈ fl → entry_name f = cmd ∧ cmd ∈ stems).
    { intros f [Hk (stem & -> & Hstem)%list_elem_of_fmap]%list_elem_of_filter.
      split; [done|]. rewrite entry_name_txt in Hk; [by subst|].
      by eapply Forall_forall in Hfree. }
    destruct (last fl) as [f|] eqn:Hlast.
    + apply last_elem_of, Hfl in Hlast as [-> Hin]. by rewrite decide_True.
    + rewrite decide_False; [done|]. intros Hin.
      assert (Hne : fl ≠ []).
      { intros Hnil. assert (Hf : cmd ++ lit ".txt" ∈ fl).
        { apply list_elem_of_filter. split.
          - apply entry_name_txt. by eapply Forall_forall in Hfree.
          - apply list_elem_of_fmap. by exists cmd. }
        rewrite Hnil in Hf. by apply elem_of_nil in Hf. }
      apply last_is_Some_2 in Hne as [? ?]. congruence.
Qed.

Lemma get_help_files_txt_files_witness :
  Forall (λ stem, contains stem (lit ".txt") = false) [lit "ABORT"; lit "ALTER"] ∧
  listdir fs_AB (help_dir (lit "B")) =
    Some ((λ stem, stem ++ lit ".txt") <$> [lit "ABORT"; lit "ALTER"]) ∧
  (∀ stem, stem ∈ [lit "ABORT"; lit "ALTER"] →
     read_text fs_AB (path_join (help_dir (lit "B")) (stem ++ lit ".txt")) =
     Some (default [] (read_text fs_AB (path_join (help_dir (lit "B"))
                                          (stem ++ lit ".txt"))))) ∧
  ∃ files, App.get_help_files fs_AB (lit "B") = Ok files ∧
    ∀ cmd, files !! cmd =
      if decide (cmd ∈ [lit "ABORT"; lit "ALTER"])
      then Some (default [] (read_text fs_AB (path_join (help_dir (lit "B"))
                                                (cmd ++ lit ".txt"))))
      else None.
Proof.
  assert (H1 : Forall (λ stem, contains stem (lit ".txt") = false)
                 [lit "ABORT"; lit "ALTER"])
    by (repeat constructor; vm_compute; reflexivity).
  assert (H2 : listdir fs_AB (help_dir (lit "B")) =
               Some ((λ stem, stem ++ lit ".txt") <$> [lit "ABORT"; lit "ALTER"]))
    by (vm_compute; reflexivity).
  assert (H3 : ∀ stem, stem ∈ [lit "ABORT"; lit "ALTER"] →
     read_text fs_AB (path_join (help_dir (lit "B")) (stem ++ lit ".txt")) =
     Some (default [] (read_text fs_AB (path_join (help_dir (lit "B"))
                                          (stem ++ lit ".txt"))))).
  { intros stem Hs.
    repeat (apply elem_of_cons in Hs as [->|Hs]; [vm_compute; reflexivity|]).
    by apply elem_of_nil in Hs. }
  split; [exact H1|]. split; [exact H2|]. split; [exact H3|].
  exact (get_help_files_txt_files fs_AB (lit "B") _
           (λ stem, default [] (read_text fs_AB (path_join (help_dir (lit "B"))
                                                   (stem ++ lit ".txt"))))
           H1 H2 H3).
Defined.

(** X4. The name under which a file is filed drops [.txt] wherever it
    stands in the file name, not only at its end: after a part that is
    free of [.txt], an occurrence is dropped and the rest of the name is
    treated alike. A name that is free of [.txt] is kept as it is, so
    the files [stem] and [stem.txt] are filed under the same name. *)
Theorem entry_name_drops_txt_anywhere (x y : str) :
  contains x (lit ".txt") = false →
  entry_name (x ++ lit ".txt" ++ y) = x ++ entry_name y ∧
  entry_name x = x ∧
  entry_name (x ++ lit ".txt") = entry_name x.
Proof.
  intros Hfree. split; [by apply remove_all_txt|].
  split; [by apply remove_all_free|].
  rewrite entry_name_txt by done. symmetry. by apply remove_all_free.
Qed.

Lemma entry_name_drops_txt_anywhere_witness :
  contains (lit "ABORT") (lit ".txt") = false ∧
  entry_name (lit "ABORT" ++ lit ".txt" ++ lit ".bak") =
    lit "ABORT" ++ entry_name (lit ".bak") ∧
  entry_name (lit "ABORT") = lit "ABORT" ∧
  entry_name (lit "ABORT" ++ lit ".txt") = entry_name (lit "ABORT").
Proof.
  assert (H1 : contains (lit "ABORT") (lit ".txt") = false)
    by (vm_compute; reflexivity).
  split; [exact H1|].
  exact (entry_name_drops_txt_anywhere (lit "ABORT") (lit ".bak") H1).
Defined.

(** ** [compare_versions]: errors of the loader *)

Lemma load_all_raise (fs : filesystem) (versions : list str) (e : exn) :
  foldl (λ (acc : result (odict (gmap str str))) version,
           help_files ← acc;
           files ← App.get_help_files fs version;
           Ok (oset version files help_files))
        (Raise e) versions = Raise e.
Proof. induction versions as [|v l IH]; [done|]. cbn [foldl]. exact IH. Qed.

Lemma load_all_first_failure (fs : filesystem) (before after : list str)
    (v : str) (e : exn) :
  Forall (λ u, ∃ files, App.get_help_files fs u = Ok files) before →
  App.get_help_files fs v = Raise e →
  App.load_all fs (before ++ v :: after) = Raise e.
Proof.
  intros Hbefore Hv. unfold App.load_all. rewrite foldl_app.
  rewrite (load_all_from fs before (loaded fs)) by (by apply loaded_ok).
  cbn [foldl]. cbn [mbind result_bind]. rewrite Hv. apply load_all_raise.
Qed.

(** Either every version loads, or there is a first one that does not. *)
Lemma loads_or_fails (fs : filesystem) (versions : list str) :
  Forall (λ u, ∃ files, App.get_help_files fs u = Ok files) versions ∨
  ∃ before v after e,
    versions = before ++ v :: after ∧
    Forall (λ u, ∃ files, App.get_help_files fs u = Ok files) before ∧
    App.get_help_files fs v = Raise e.
Proof.
  induction versions as [|v l IH]; [by left|].
  destruct (App.get_help_files fs v) as [files|e] eqn:Hv.
  - destruct IH as [Hall|(before & w & after & e & -> & Hb & Hw)].
    + left. constructor; [by eexists|done].
    + right. exists (v :: before), w, after, e. split; [done|].
      split; [|done]. constructor; [by eexists|done].
  - right. by exists [], v, l, e.
Qed.

(** X5. When a selected version does not load and all versions selected
    before it do, the comparison raises the error of that version,
    whatever is selected after it, and the view passes the error on
    when two or more versions are selected: neither returns a partial
    result. *)
Theorem compare_versions_first_failure (fs : filesystem)
    (before after : list str) (v : str) (e : exn) :
  Forall (λ u, ∃ files, App.get_help_files fs u = Ok files) before →
  App.get_help_files fs v = Raise e →
  App.compare_versions fs (before ++ v :: after) = Raise e ∧
  (2 ≤ length (before ++ v :: after) →
   App.compare fs (before ++ v :: after) = Raise e).
Proof.
  intros Hbefore Hv.
  assert (Hcv : App.compare_versions fs (before ++ v :: after) = Raise e).
  { unfold App.compare_versions.
    by rewrite (load_all_first_failure fs before after v e). }
  split; [done|]. intros Hlen. unfold App.compare.
  rewrite decide_False by lia. by rewrite Hcv.
Qed.

Lemma compare_versions_first_failure_witness :
  Forall (λ u, ∃ files, App.get_help_files fs_AB u = Ok files) [lit "A"] ∧
  App.get_help_files fs_AB (lit "C") = Raise (ListdirError (lit "help_files/C")) ∧
  App.compare_versions fs_AB ([lit "A"] ++ lit "C" :: [lit "B"]) =
    Raise (ListdirError (lit "help_files/C")) ∧
  (2 ≤ length ([lit "A"] ++ lit "C" :: [lit "B"]) →
   App.compare fs_AB ([lit "A"] ++ lit "C" :: [lit "B"]) =
     Raise (ListdirError (lit "help_files/C"))).
Proof.
  assert (H1 : Forall (λ u, ∃ files, App.get_help_files fs_AB u = Ok files)
                 [lit "A"])
    by (repeat constructor; eexists; vm_compute; reflexivity).
  assert (H2 : App.get_help_files fs_AB (lit "C") =
               Raise (ListdirError (lit "help_files/C")))
    by (vm_compute; reflexivity).
  split; [exact H1|]. split; [exact H2|].
  exact (compare_versions_first_failure fs_AB [lit "A"] [lit "B"] (lit "C")
           _ H1 H2).
Defined.

(** ** [compare_versions]: the entries that are reported *)

Lemma differs_any (f : str → str) (versions : list str) :
  (∃ v, v ∈ versions ∧ f v ≠ f (versions !!! 0)) ↔
  (∃ v w, v ∈ versions ∧ w ∈ versions ∧ f v ≠ f w).
Proof.
  split.
  - intros (v & Hv & Hne). exists v, (versions !!! 0). split; [done|].
    split; [|done]. apply list_elem_of_lookup_total_2.
    destruct versions; [by apply elem_of_nil in Hv|simpl; lia].
  - intros (v & w & Hv & Hw & Hne).
    destruct (decide (f v = f (versions !!! 0))) as [Heq|Hne'].
    + exists w. split; [done|]. congruence.
    + by exists v.
Qed.

(** X6. The names of the entries that are reported do not depend on the
    order in which the versions are selected, for any number of
    versions: two selections that are permutations of each other give
    results with the same keys. *)
Theorem compare_versions_keys_any_order (fs : filesystem)
    (versions versions' : list str) (corpus : str → gmap str str) :
  versions ≡ₚ versions' →
  (∀ v, v ∈ versions → App.get_help_files fs v = Ok (corpus v)) →
  ∃ diffs diffs',
    App.compare_versions fs versions = Ok diffs ∧
    App.compare_versions fs versions' = Ok diffs' ∧
    dom diffs = dom diffs'.
Proof.
  intros Hperm Hload. do 2 eexists.
  split; [by apply compare_versions_loaded|].
  split.
  { apply compare_versions_loaded. intros v Hv. apply Hload. by rewrite Hperm. }
  apply set_eq. intros cmd. rewrite !elem_of_dom_diff_loaded.
  rewrite !(differs_any (λ v, entry_text (corpus v) cmd)).
  by setoid_rewrite Hperm.
Qed.

Lemma compare_versions_keys_any_order_witness :
  [lit "A"; lit "B"] ≡ₚ [lit "B"; lit "A"] ∧
  (∀ v, v ∈ [lit "A"; lit "B"] →
        App.get_help_files fs_AB v = Ok (loaded fs_AB v)) ∧
  ∃ diffs diffs',
    App.compare_versions fs_AB [lit "A"; lit "B"] = Ok diffs ∧
    App.compare_versions fs_AB [lit "B"; lit "A"] = Ok diffs' ∧
    dom diffs = dom diffs'.
Proof.
  assert (H1 : [lit "A"; lit "B"] ≡ₚ [lit "B"; lit "A"])
    by apply Permutation_swap.
  split; [exact H1|]. split; [exact fs_AB_loads|].
  exact (compare_versions_keys_any_order fs_AB _ _ (loaded fs_AB)
           H1 fs_AB_loads).
Defined.

(** X7. An entry whose text is empty in the versions that have it, and
    that the other versions do not have, is never reported: a missing
    entry and an empty one are not told apart. Every entry that is
    reported has a text that is not empty in one of the versions. *)
Theorem empty_and_missing_entries_alike (fs : filesystem)
    (versions : list str) (corpus : str → gmap str str) :
  (∀ v, v ∈ versions → App.get_help_files fs v = Ok (corpus v)) →
  ∃ diffs, App.compare_versions fs versions = Ok diffs ∧
    (∀ cmd,
       (∀ v, v ∈ versions → corpus v !! cmd = None ∨ corpus v !! cmd = Some []) →
       diffs !! cmd = None) ∧
    (∀ cmd, is_Some (diffs !! cmd) →
       ∃ v text, v ∈ versions ∧ corpus v !! cmd = Some text ∧ text ≠ []).
Proof.
  intros Hload. eexists. split; [by apply compare_versions_loaded|].
  assert (Hempty : ∀ cmd v,
            (corpus v !! cmd = None ∨ corpus v !! cmd = Some []) →
            entry_text (corpus v) cmd = []).
  { intros cmd v. unfold entry_text. by intros [->| ->]. }
  split.
  - intros cmd Hall. apply not_elem_of_dom. rewrite elem_of_dom_diff_loaded.
    intros (v & Hv & Hne). apply Hne. rewrite (Hempty cmd v) by auto.
    symmetry. apply Hempty, Hall. apply list_elem_of_lookup_total_2.
    destruct versions; [by apply elem_of_nil in Hv|simpl; lia].
  - intros cmd Hin%elem_of_dom.
    apply elem_of_dom_diff_loaded, differs_any in Hin as (v & w & Hv & Hw & Hne).
    destruct (corpus v !! cmd) as [t|] eqn:Ev.
    + destruct (decide (t = [])) as [->|Hnn]; [|by exists v, t].
      destruct (corpus w !! cmd) as [t'|] eqn:Ew.
      * destruct (decide (t' = [])) as [->|Hnn']; [|by exists w, t'].
        exfalso. apply Hne. unfold entry_text. by rewrite Ev, Ew.
      * exfalso. apply Hne. unfold entry_text. by rewrite Ev, Ew.
    + destruct (corpus w !! cmd) as [t'|] eqn:Ew.
      * destruct (decide (t' = [])) as [->|Hnn']; [|by exists w, t'].
        exfalso. apply Hne. unfold entry_text. by rewrite Ev, Ew.
      * exfalso. apply Hne. unfold entry_text. by rewrite Ev, Ew.
Qed.

Lemma empty_and_missing_entries_alike_witness :
  (∀ v, v ∈ [lit "A"; lit "B"] →
        App.get_help_files fs_empty_entry v = Ok (loaded fs_empty_entry v)) ∧
  ∃ diffs, App.compare_versions fs_empty_entry [lit "A"; lit "B"] = Ok diffs ∧
    (∀ cmd,
       (∀ v, v ∈ [lit "A"; lit "B"] →
             loaded fs_empty_entry v !! cmd = None ∨
             loaded fs_empty_entry v !! cmd = Some []) →
       diffs !! cmd = None) ∧
    (∀ cmd, is_Some (diffs !! cmd) →
       ∃ v text, v ∈ [lit "A"; lit "B"] ∧
                 loaded fs_empty_entry v !! cmd = Some text ∧ text ≠ []).
Proof.
  assert (H1 : ∀ v, v ∈ [lit "A"; lit "B"] →
            App.get_help_files fs_empty_entry v = Ok (loaded fs_empty_entry v)).
  { apply loaded_ok. repeat constructor; eexists; vm_compute; reflexivity. }
  split; [exact H1|].
  exact (empty_and_missing_entries_alike fs_empty_entry _
           (loaded fs_empty_entry) H1).
Defined.

(** X8. For two different versions that load, the result holds exactly
    the entries whose texts differ, a missing entry counting as the
    empty text, and it maps each of them to the rendering of the pair
    of texts, the version selected first being the left side. *)
Theorem compare_versions_two (fs : filesystem) (vA vB : str)
    (corpus : str → gmap str str) :
  vA ≠ vB →
  App.get_help_files fs vA = Ok (corpus vA) →
  App.get_help_files fs vB = Ok (corpus vB) →
  ∃ diffs, App.compare_versions fs [vA; vB] = Ok diffs ∧
    ∀ cmd, diffs !! cmd =
      if decide (entry_text (corpus vA) cmd = entry_text (corpus vB) cmd)
      then None
      else Some {[ vA := render_left (entry_text (corpus vA) cmd)
                                     (entry_text (corpus vB) cmd);
                   vB := render_right (entry_text (corpus vA) cmd)
                                      (entry_text (corpus vB) cmd) ]}.
Proof.
  intros Hne HA HB. eexists. split.
  { apply (compare_versions_loaded fs [vA; vB] corpus).
    intros v [->|[->|[]%elem_of_nil]%elem_of_cons]%elem_of_cons; done. }
  intros cmd. rewrite diff_loaded_lookup.
  destruct (App.differs _ _) eqn:Hd.
  - apply differs_spec in Hd as (v & Hv & Hd).
    change ([vA; vB] !!! 0) with vA in Hd.
    rewrite decide_False.
    2:{ apply elem_of_cons in Hv as [->|[->|[]%elem_of_nil]%elem_of_cons];
          [done|congruence]. }
    f_equal. unfold cmd_versions_of, odict_comp. cbn [foldl oset].
    rewrite (decide_False (P := vA = vB)) by done.
    rewrite highlight_diff_two by done.
    by rewrite insert_singleton_ne by done.
  - rewrite decide_True; [done|].
    destruct (decide (entry_text (corpus vA) cmd = entry_text (corpus vB) cmd))
      as [|Hne']; [done|].
    exfalso. apply not_true_iff_false in Hd. apply Hd, differs_spec.
    exists vB. split; [by right; left|]. change ([vA; vB] !!! 0) with vA.
    congruence.
Qed.

Lemma compare_versions_two_witness :
  lit "A" ≠ lit "B" ∧
  App.get_help_files fs_AB (lit "A") = Ok (loaded fs_AB (lit "A")) ∧
  App.get_help_files fs_AB (lit "B") = Ok (loaded fs_AB (lit "B")) ∧
  ∃ diffs, App.compare_versions fs_AB [lit "A"; lit "B"] = Ok diffs ∧
    ∀ cmd, diffs !! cmd =
      if decide (entry_text (loaded fs_AB (lit "A")) cmd =
                 entry_text (loaded fs_AB (lit "B")) cmd)
      then None
      else Some {[ lit "A" := render_left (entry_text (loaded fs_AB (lit "A")) cmd)
                                          (entry_text (loaded fs_AB (lit "B")) cmd);
                   lit "B" := render_right (entry_text (loaded fs_AB (lit "A")) cmd)
                                           (entry_text (loaded fs_AB (lit "B")) cmd) ]}.
Proof.
  assert (H1 : lit "A" ≠ lit "B") by done.
  assert (H2 : App.get_help_files fs_AB (lit "A") = Ok (loaded fs_AB (lit "A")))
    by (vm_compute; reflexivity).
  assert (H3 : App.get_help_files fs_AB (lit "B") = Ok (loaded fs_AB (lit "B")))
    by (vm_compute; reflexivity).
  split; [exact H1|]. split; [exact H2|]. split; [exact H3|].
  exact (compare_versions_two fs_AB (lit "A") (lit "B") (loaded fs_AB) H1 H2 H3).
Defined.

(** ** [compare_versions]: a version that is selected more than once *)

Lemma oset_fmap {V} (f : str → V) (acc : list str) (k : str) :
  oset k (f k) ((λ k, (k, f k)) <$> acc) =
  (λ k, (k, f k)) <$> (if decide (k ∈ acc) then acc else acc ++ [k]).
Proof.
  induction acc as [|x acc IH]; [done|].
  rewrite fmap_cons. cbn [oset]. destruct (decide (x = k)) as [->|Hne].
  - rewrite decide_True by (by left). done.
  - rewrite IH. destruct (decide (k ∈ acc)) as [Hin|Hnin].
    + rewrite decide_True by (by right). done.
    + rewrite decide_False; [done|].
      intros [?|?]%elem_of_cons; [congruence|done].
Qed.

Lemma odict_comp_distinct_from {V} (f : str → V) (l acc : list str) :
  foldl (λ d k, oset k (f k) d) ((λ k, (k, f k)) <$> acc) l =
  (λ k, (k, f k)) <$>
    foldl (λ acc x, if decide (x ∈ acc) then acc else acc ++ [x]) acc l.
Proof.
  revert acc. induction l as [|x l IH]; intros acc; [done|].
  cbn [foldl]. by rewrite oset_fmap, IH.
Qed.

Lemma odict_comp_distinct {V} (f : str → V) (l : list str) :
  odict_comp f l = (λ k, (k, f k)) <$> distinct l.
Proof. apply (odict_comp_distinct_from f l []). Qed.

Lemma okeys_odict_comp {V} (f : str → V) (l : list str) :
  okeys (odict_comp f l) = distinct l.
Proof.
  rewrite odict_comp_distinct. unfold okeys. rewrite <- list_fmap_compose.
  apply list_fmap_id.
Qed.

Lemma elem_of_distinct (l : list str) (x : str) : x ∈ distinct l ↔ x ∈ l.
Proof.
  rewrite <- (okeys_odict_comp (λ _, ()) l). apply elem_of_okeys_odict_comp.
Qed.

Lemma NoDup_distinct (l : list str) : NoDup (distinct l).
Proof.
  rewrite <- (okeys_odict_comp (λ _, ()) l). apply NoDup_okeys_odict_comp.
Qed.

Lemma distinct_from_prefix (l acc : list str) :
  ∃ more,
    foldl (λ acc x, if decide (x ∈ acc) then acc else acc ++ [x]) acc l =
    acc ++ more.
Proof.
  revert acc. induction l as [|x l IH]; intros acc.
  - exists []. by rewrite app_nil_r.
  - cbn [foldl]. destruct (decide (x ∈ acc)); [apply IH|].
    destruct (IH (acc ++ [x])) as [more ->]. exists (x :: more).
    by rewrite <- app_assoc.
Qed.

Lemma distinct_from_NoDup (l acc : list str) :
  NoDup (acc ++ l) →
  foldl (λ acc x, if decide (x ∈ acc) then acc else acc ++ [x]) acc l = acc ++ l.
Proof.
  revert acc. induction l as [|x l IH]; intros acc Hnd.
  - by rewrite app_nil_r.
  - cbn [foldl]. rewrite decide_False.
    + rewrite IH; rewrite <- app_assoc; done.
    + apply NoDup_app in Hnd as (_ & Hnd & _). intros Hin.
      apply (Hnd x Hin). by left.
Qed.

Lemma distinct_idemp (l : list str) : distinct (distinct l) = distinct l.
Proof. apply (distinct_from_NoDup _ []), NoDup_distinct. Qed.

Lemma distinct_app (l1 l2 : list str) :
  distinct (l1 ++ l2) =
  foldl (λ acc x, if decide (x ∈ acc) then acc else acc ++ [x]) (distinct l1) l2.
Proof. unfold distinct. by rewrite foldl_app. Qed.

Lemma distinct_head (l : list str) : distinct l !!! 0 = l !!! 0.
Proof.
  destruct l as [|x l]; [done|]. unfold distinct. cbn [foldl].
  rewrite decide_False by (by intros ?%elem_of_nil). cbn [app].
  by destruct (distinct_from_prefix l [x]) as [more ->].
Qed.

Lemma differs_distinct (f : str → str) (versions : list str) :
  App.differs (odict_comp f versions) (distinct versions) =
  App.differs (odict_comp f versions) versions.
Proof.
  assert (Hiff : App.differs (odict_comp f versions) (distinct versions) = true
                 ↔ App.differs (odict_comp f versions) versions = true).
  { rewrite differs_spec.
    replace (odict_comp f versions) with (odict_comp f (distinct versions)).
    2:{ by rewrite !odict_comp_distinct, distinct_idemp. }
    rewrite differs_spec, distinct_head.
    by setoid_rewrite elem_of_distinct. }
  destruct (App.differs _ (distinct versions)), (App.differs _ versions);
    try done; destruct Hiff as [H1 H2]; [by rewrite H1|by rewrite H2].
Qed.

Lemma diff_loaded_distinct (corpus : str → gmap str str) (versions : list str) :
  App.diff_loaded (odict_comp corpus versions) (distinct versions) =
  App.diff_loaded (odict_comp corpus versions) versions.
Proof.
  unfold App.diff_loaded. apply foldl_ext. intros diffs cmd.
  unfold App.diff_step.
  assert (Hcv : odict_comp (App.text_of (odict_comp corpus versions) cmd)
                  (distinct versions)
                = odict_comp (App.text_of (odict_comp corpus versions) cmd)
                    versions).
  { by rewrite !odict_comp_distinct, distinct_idemp. }
  rewrite Hcv.
  by rewrite (differs_distinct (App.text_of (odict_comp corpus versions) cmd)).
Qed.

(** X9. Selecting a version more than once changes nothing: the
    comparison of a selection returns, or raises, what the comparison
    of its different versions, in the order of their first occurrences,
    returns or raises. *)
Theorem compare_versions_repeated_version (fs : filesystem)
    (versions : list str) :
  App.compare_versions fs versions = App.compare_versions fs (distinct versions).
Proof.
  destruct (loads_or_fails fs versions)
    as [Hall|(before & v & after & e & -> & Hbefore & Hv)].
  - rewrite (compare_versions_loaded fs versions (loaded fs))
      by (by apply loaded_ok).
    rewrite (compare_versions_loaded fs (distinct versions) (loaded fs)).
    2:{ intros v Hv. apply (proj1 (elem_of_distinct _ _)) in Hv.
        by apply (loaded_ok fs versions). }
    f_equal. rewrite <- diff_loaded_distinct.
    by rewrite !odict_comp_distinct, distinct_idemp.
  - unfold App.compare_versions.
    rewrite (load_all_first_failure fs before after v e) by done.
    assert (Hnin : v ∉ distinct before).
    { intros Hin. apply (proj1 (elem_of_distinct _ _)) in Hin.
      eapply Forall_forall in Hbefore as [? ?]; [|done]. congruence. }
    rewrite distinct_app. cbn [foldl]. rewrite decide_False by done.
    destruct (distinct_from_prefix after (distinct before ++ [v])) as [more ->].
    rewrite <- app_assoc. cbn [app].
    rewrite (load_all_first_failure fs (distinct before) more v e); [done| |done].
    apply Forall_forall. intros u Hu.
    apply (proj1 (elem_of_distinct _ _)) in Hu.
    by eapply Forall_forall in Hbefore.
Qed.

(** X10. The view counts the selected fields, not the different
    versions: a selection of two or more fields that all name the same
    version, which loads, is not rejected; the view answers with the
    page [compare.html], the selection as it was sent and an empty
    result. *)
Theorem compare_same_version_twice (fs : filesystem) (selected : list str)
    (v : str) (files : gmap str str) :
  2 ≤ length selected → (∀ u, u ∈ selected → u = v) →
  App.get_help_files fs v = Ok files →
  App.compare fs selected = Ok (Template (lit "compare.html") selected ∅).
Proof.
  intros Hlen Hsame Hv. unfold App.compare. rewrite decide_False by lia.
  rewrite (compare_versions_loaded fs selected (λ _, files)).
  2:{ intros u Hu. by rewrite (Hsame u Hu). }
  cbn [mbind result_bind]. do 2 f_equal. unfold App.diff_loaded.
  apply diff_fold_single. intros u w Hu Hw.
  by rewrite (Hsame u Hu), (Hsame w Hw).
Qed.

Lemma compare_same_version_twice_witness :
  2 ≤ length [lit "A"; lit "A"] ∧
  (∀ u, u ∈ [lit "A"; lit "A"] → u = lit "A") ∧
  App.get_help_files fs_AB (lit "A") = Ok (loaded fs_AB (lit "A")) ∧
  App.compare fs_AB [lit "A"; lit "A"] =
    Ok (Template (lit "compare.html") [lit "A"; lit "A"] ∅).
Proof.
  assert (H1 : 2 ≤ length [lit "A"; lit "A"]) by (simpl; lia).
  assert (H2 : ∀ u : str, u ∈ [lit "A"; lit "A"] → u = lit "A").
  { intros u Hu.
    repeat (apply elem_of_cons in Hu as [->|Hu]; [reflexivity|]).
    by apply elem_of_nil in Hu. }
  assert (H3 : App.get_help_files fs_AB (lit "A") = Ok (loaded fs_AB (lit "A")))
    by (vm_compute; reflexivity).
  split; [exact H1|]. split; [exact H2|]. split; [exact H3|].
  exact (compare_same_version_twice fs_AB _ (lit "A") _ H1 H2 H3).
Defined.

(** ** [Differ]: a second sequence that is empty *)

Section EmptyColumns.
Context {A : Type} `{Countable A}.
Implicit Types (sm : SequenceMatcher A).

Lemma flm_row_no_columns (i blo : nat) (j2len : gmap nat nat) (js : list nat)
    (newj2len : gmap nat nat) (best : Match) :
  (flm_row i blo blo j2len js newj2len best).2 = best.
Proof.
  induction js as [|j js IH]; [done|]. cbn [flm_row].
  destruct (decide (j < blo)); [done|]. by rewrite decide_True by lia.
Qed.

Lemma flm_fold_no_columns sm (blo : nat) (l : list nat)
    (st : gmap nat nat * Match) :
  (foldl (flm_step sm blo blo) st l).2 = st.2.
Proof.
  revert st. induction l as [|i l IH]; intros st; [done|].
  cbn [foldl]. rewrite IH. unfold flm_step. apply flm_row_no_columns.
Qed.

Lemma extend_right_no_columns sm (junk : bool) (ahi bhi n i j : nat) :
  bhi ≤ j → extend_right sm junk ahi bhi n (i, j, 0) = (i, j, 0).
Proof.
  intros Hj. destruct n as [|n]; [done|]. cbn [extend_right].
  rewrite (bool_decide_eq_false_2 (j + 0 < bhi)) by lia.
  by rewrite andb_false_r.
Qed.

(** With no column to match in, the longest match is empty. *)
Lemma find_longest_match_no_columns sm (alo ahi blo : nat) :
  find_longest_match sm alo ahi blo blo = (alo, blo, 0).
Proof.
  unfold find_longest_match. rewrite flm_fold_no_columns. cbn [fst snd].
  rewrite Nat.sub_diag. cbn [extend_left].
  rewrite extend_right_no_columns by done. cbn [fst snd].
  rewrite Nat.sub_diag. cbn [extend_left].
  by rewrite extend_right_no_columns.
Qed.

End EmptyColumns.

Lemma compare_nil_r (a : list str) :
  compare a [] = (λ t, lit "- " ++ t) <$> a.
Proof.
  unfold compare, get_opcodes, get_matching_blocks. rewrite new_a, new_b.
  cbn [length]. replace (2 * length a + 1) with (S (2 * length a)) by lia.
  cbn [gmb_loop]. rewrite find_longest_match_no_columns.
  rewrite decide_True by done. cbn [snd gmb_loop].
  replace (gmb_loop (new None a []) (2 * length a) [] []) with
    (@nil rect, @nil Match) by (by destruct (2 * length a)).
  cbn [snd]. change (merge_sort Match_le []) with (@nil Match). cbn [foldl].
  rewrite decide_True by done. cbn [app foldl opcode_step].
  rewrite (decide_True (P := 0 = 0)) by done.
  rewrite (decide_False (P := 0 < length a ∧ 0 < 0)) by lia.
  rewrite (decide_False (P := 0 < 0)) by lia.
  destruct (decide (0 < length a)) as [Hlt|Hge]; cbn [snd fmap list_fmap app].
  - cbn [mjoin list_join compare_op]. rewrite app_nil_r, dump_slice by done.
    by rewrite slice_all.
  - destruct a; [done|]. simpl in Hge. lia.
Qed.

Lemma annotate_deleted (a : list str) :
  App.annotate ((λ t, lit "- " ++ t) <$> a) = (span Deleted <$> a, []).
Proof.
  replace ((λ t, lit "- " ++ t) <$> a) with (encode <$> (OnlyLeft <$> a))
    by (by rewrite <- list_fmap_compose).
  unfold App.annotate. rewrite annotate_encode_from. f_equal.
  - induction a as [|t a IH]; [done|]. rewrite !fmap_cons. cbn. by f_equal.
  - induction a as [|t a IH]; [done|]. by rewrite fmap_cons.
Qed.

(** X11. For two different versions that load, an entry that the first
    version has with a text that is not empty and the second version
    does not have is reported: the first version maps to the block of
    all lines of the text, each tagged deleted, and the second to the
    empty block. *)
Theorem compare_versions_dropped_entry (fs : filesystem) (vA vB : str)
    (corpus : str → gmap str str) (cmd text : str) :
  vA ≠ vB →
  App.get_help_files fs vA = Ok (corpus vA) →
  App.get_help_files fs vB = Ok (corpus vB) →
  corpus vA !! cmd = Some text → text ≠ [] → corpus vB !! cmd = None →
  ∃ diffs, App.compare_versions fs [vA; vB] = Ok diffs ∧
    diffs !! cmd =
    Some {[ vA := App.pre (span Deleted <$> splitlines text);
            vB := lit "<pre></pre>" ]}.
Proof.
  intros Hne HA HB Htext Hnn Hnone. eexists. split.
  { apply (compare_versions_loaded fs [vA; vB] corpus).
    intros v [->|[->|[]%elem_of_nil]%elem_of_cons]%elem_of_cons; done. }
  rewrite diff_loaded_lookup.
  assert (Hd : App.differs (cmd_versions_of corpus [vA; vB] cmd) [vA; vB] = true).
  { apply differs_spec. exists vB. split; [by right; left|].
    change ([vA; vB] !!! 0) with vA. unfold entry_text. rewrite Htext, Hnone.
    cbn. congruence. }
  rewrite Hd. f_equal. unfold cmd_versions_of, odict_comp. cbn [foldl oset].
  rewrite decide_False by done. unfold entry_text. rewrite Htext, Hnone.
  cbn [default from_option id].
  rewrite highlight_diff_two by done. unfold render_left, render_right.
  change (splitlines []) with (@nil str).
  rewrite compare_nil_r, annotate_deleted. cbn [fst snd].
  by rewrite insert_singleton_ne by done.
Qed.

Lemma compare_versions_dropped_entry_witness :
  lit "B" ≠ lit "A" ∧
  App.get_help_files fs_AB (lit "B") = Ok (loaded fs_AB (lit "B")) ∧
  App.get_help_files fs_AB (lit "A") = Ok (loaded fs_AB (lit "A")) ∧
  loaded fs_AB (lit "B") !! lit "ALTER" = Some (lit "y") ∧
  lit "y" ≠ [] ∧
  loaded fs_AB (lit "A") !! lit "ALTER" = None ∧
  ∃ diffs, App.compare_versions fs_AB [lit "B"; lit "A"] = Ok diffs ∧
    diffs !! lit "ALTER" =
    Some {[ lit "B" := App.pre (span Deleted <$> splitlines (lit "y"));
            lit "A" := lit "<pre></pre>" ]}.
Proof.
  assert (H1 : lit "B" ≠ lit "A") by done.
  assert (H2 : App.get_help_files fs_AB (lit "B") = Ok (loaded fs_AB (lit "B")))
    by (vm_compute; reflexivity).
  assert (H3 : App.get_help_files fs_AB (lit "A") = Ok (loaded fs_AB (lit "A")))
    by (vm_compute; reflexivity).
  assert (H4 : loaded fs_AB (lit "B") !! lit "ALTER" = Some (lit "y"))
    by (vm_compute; reflexivity).
  assert (H5 : lit "y" ≠ []) by done.
  assert (H6 : loaded fs_AB (lit "A") !! lit "ALTER" = None)
    by (vm_compute; reflexivity).
  split; [exact H1|]. split; [exact H2|]. split; [exact H3|].
  split; [exact H4|]. split; [exact H5|]. split; [exact H6|].
  exact (compare_versions_dropped_entry fs_AB (lit "B") (lit "A") (loaded fs_AB)
           (lit "ALTER") (lit "y") H1 H2 H3 H4 H5 H6).
Defined.

(** ** [highlight_diff]: the lines that are tagged unchanged *)

Lemma is_unchanged_span (c : cls) (t : str) :
  is_unchanged (span c t) = match c with Unchanged => true | _ => false end.
Proof. destruct c; vm_compute; reflexivity. Qed.

Lemma filter_unchanged_cons (c : cls) (t : str) (rows : list str) :
  filter is_unchanged (span c t :: rows) =
  match c with Unchanged => [span c t] | _ => [] end
  ++ filter is_unchanged rows.
Proof.
  pose proof (is_unchanged_span c t) as E.
  destruct c.
  - rewrite filter_cons_True; [done|]. by rewrite E.
  - rewrite filter_cons_False; [done|]. rewrite E. by intros [].
  - rewrite filter_cons_False; [done|]. rewrite E. by intros [].
Qed.

Lemma unchanged_left (diff : list str) :
  filter is_unchanged (zip_with span (omap left_cls diff) (lefts diff)) =
  span Unchanged <$> commons diff.
Proof.
  induction diff as [|line diff IH]; [done|].
  rewrite lefts_cons. unfold commons in *. cbn [omap list_omap].
  unfold left_cls at 1, left_text.
  destruct (startswith line (lit "  ")); cbn [orb option_list option_rect app zip_with].
  { rewrite filter_unchanged_cons, IH. done. }
  destruct (startswith line (lit "- ")); cbn [orb option_list option_rect app zip_with].
  { rewrite filter_unchanged_cons, IH. done. }
  exact IH.
Qed.

Lemma unchanged_right (diff : list str) :
  filter is_unchanged (zip_with span (omap right_cls diff) (rights diff)) =
  span Unchanged <$> commons diff.
Proof.
  induction diff as [|line diff IH]; [done|].
  rewrite rights_cons. unfold commons in *. cbn [omap list_omap].
  unfold right_cls at 1, right_text.
  destruct (startswith line (lit "  ")) eqn:E1;
    cbn [orb option_list option_rect app zip_with].
  { rewrite filter_unchanged_cons, IH. done. }
  destruct (startswith line (lit "- ")) eqn:E2.
  { destruct (startswith line (lit "+ ")) eqn:E3; [|exact IH].
    exfalso. revert E2 E3. unfold startswith.
    change (lit "- ") with [45%N; 32%N]. change (lit "+ ") with [43%N; 32%N].
    intros H2%bool_decide_eq_true H3%bool_decide_eq_true. simpl in *. congruence. }
  destruct (startswith line (lit "+ ")); cbn [orb option_list option_rect app zip_with].
  { rewrite filter_unchanged_cons, IH. done. }
  exact IH.
Qed.

Lemma commons_sublist_lefts (diff : list str) : commons diff `sublist_of` lefts diff.
Proof.
  induction diff as [|line diff IH]; [done|].
  rewrite lefts_cons. unfold commons in *. cbn [omap list_omap].
  unfold left_text.
  destruct (startswith line (lit "  ")); cbn [orb option_list option_rect app].
  { by constructor. }
  destruct (startswith line (lit "- ")); cbn [orb option_list option_rect app].
  { by constructor. }
  exact IH.
Qed.

Lemma commons_sublist_rights (diff : list str) :
  commons diff `sublist_of` rights diff.
Proof.
  induction diff as [|line diff IH]; [done|].
  rewrite rights_cons. unfold commons in *. cbn [omap list_omap].
  unfold right_text.
  destruct (startswith line (lit "  ")); cbn [orb option_list option_rect app].
  { by constructor. }
  destruct (startswith line (lit "+ ")); cbn [orb option_list option_rect app].
  { by constructor. }
  exact IH.
Qed.

(** X12. The lines that are tagged unchanged in the rendering of the
    left text and in the rendering of the right text of a pair are the
    same lines in the same order, and they are a subsequence of the
    lines of either text: no line is shown as unchanged on one side
    only, and none that one of the texts does not hold. *)
Theorem unchanged_lines_are_common (lines1 lines2 : list str) :
  ∃ common,
    common `sublist_of` lines1 ∧ common `sublist_of` lines2 ∧
    filter is_unchanged (App.annotate (compare lines1 lines2)).1
      = span Unchanged <$> common ∧
    filter is_unchanged (App.annotate (compare lines1 lines2)).2
      = span Unchanged <$> common.
Proof.
  destruct (compare_sides lines1 lines2) as [El Er].
  exists (commons (compare lines1 lines2)). split_and!.
  - rewrite <- El at 2. apply commons_sublist_lefts.
  - rewrite <- Er at 2. apply commons_sublist_rights.
  - rewrite annotate_spans. apply unchanged_left.
  - rewrite annotate_spans. apply unchanged_right.
Qed.

(** ** [highlight_diff]: the rows of a block *)

Lemma splitlines_from_no_linebreak (n : nat) (s cur : str) :
  length s ≤ n →
  Forall (λ c, is_linebreak c = false) cur →
  Forall (Forall (λ c, is_linebreak c = false)) (splitlines_from cur s).
Proof.
  revert s cur. induction n as [|n IH]; intros s cur Hlen Hcur.
  { destruct s; [|simpl in Hlen; lia]. cbn [splitlines_from].
    destruct cur as [|c0 cur0]; [constructor|].
    constructor; [done|constructor]. }
  destruct s as [|c s].
  { cbn [splitlines_from]. destruct cur as [|c0 cur0]; [constructor|].
    constructor; [done|constructor]. }
  cbn [length] in Hlen. cbn [splitlines_from].
  destruct (is_linebreak c) eqn:Ec.
  - destruct s as [|c' s']; [by repeat constructor|].
    cbn [length] in Hlen.
    destruct (bool_decide (c = 13%N) && bool_decide (c' = 10%N));
      (constructor; [done|]); apply IH; cbn [length]; try lia; constructor.
  - apply IH; [lia|]. apply Forall_app. split; [done|]. by repeat constructor.
Qed.

Lemma splitlines_no_linebreak (s : str) :
  Forall (Forall (λ c, is_linebreak c = false)) (splitlines s).
Proof. by apply (splitlines_from_no_linebreak (length s)). Qed.

Lemma newlines_app (s t : str) : newlines (s ++ t) = newlines s + newlines t.
Proof. unfold newlines. by rewrite filter_app, length_app. Qed.

Lemma newlines_no_linebreak (s : str) :
  Forall (λ c, is_linebreak c = false) s → newlines s = 0.
Proof.
  unfold newlines. induction 1 as [|c s Hc _ IH]; [done|].
  rewrite filter_cons_False; [done|]. intros ->. done.
Qed.

Lemma newlines_span (c : cls) (t : str) :
  Forall (λ c, is_linebreak c = false) t → newlines (span c t) = 0.
Proof.
  intros Ht. destruct c; cbn [span];
    unfold App.span_unchanged, App.span_added, App.span_deleted;
    rewrite !newlines_app, (newlines_no_linebreak t Ht); reflexivity.
Qed.

Lemma newlines_join (rows : list str) :
  Forall (λ row, newlines row = 0) rows →
  newlines (join nl rows) = length rows - 1.
Proof.
  induction 1 as [|row rows Hrow Hrows IH]; [done|].
  destruct rows as [|row' rows].
  - cbn [join length]. rewrite Hrow. done.
  - change (join nl (row :: row' :: rows))
      with (row ++ nl ++ join nl (row' :: rows)).
    rewrite !newlines_app, Hrow, IH. cbn [length]. change (newlines nl) with 1.
    lia.
Qed.

Lemma newlines_pre (rows : list str) :
  Forall (λ row, newlines row = 0) rows →
  newlines (App.pre rows) = length rows - 1.
Proof.
  intros Hrows. unfold App.pre. rewrite !newlines_app, newlines_join by done.
  change (newlines (lit "<pre>")) with 0. change (newlines (lit "</pre>")) with 0.
  lia.
Qed.

Lemma newlines_zip_span (cs : list cls) (lines : list str) :
  Forall (Forall (λ c, is_linebreak c = false)) lines →
  Forall (λ row, newlines row = 0) (zip_with span cs lines).
Proof.
  intros Hlines. revert cs. induction Hlines as [|t lines Ht _ IH]; intros cs.
  - destruct cs; constructor.
  - destruct cs as [|c cs]; [constructor|]. cbn [zip_with].
    constructor; [by apply newlines_span|apply IH].
Qed.

(** X13. The block that a text is rendered to has one row for every line
    of the text: no rendered line holds a newline, so the block of a
    text of [n] lines holds [n - 1] newlines (none for the empty text),
    on the left side and on the right side. *)
Theorem rendering_has_a_row_per_line (t1 t2 : str) :
  newlines (render_left t1 t2) = length (splitlines t1) - 1 ∧
  newlines (render_right t1 t2) = length (splitlines t2) - 1.
Proof.
  unfold render_left, render_right.
  destruct (annotate_compare (splitlines t1) (splitlines t2))
    as (cs1 & cs2 & L1 & L2 & _ & _ & ->). cbn [fst snd].
  rewrite !newlines_pre by (apply newlines_zip_span, splitlines_no_linebreak).
  rewrite !length_zip_with. lia.
Qed.

(** ** The listing of the versions, [get_postgresql_versions] *)

(** *** [str.split] *)

Lemma split_from_no_sep (sep : N) (cur x : str) :
  sep ∉ x → split_from sep cur x = [cur ++ x].
Proof.
  revert cur. induction x as [|c x IH]; intros cur Hx.
  - by rewrite app_nil_r.
  - cbn [split_from]. rewrite bool_decide_eq_false_2.
    + rewrite IH, <- app_assoc; [done|]. intros Hin. apply Hx. by right.
    + intros ->. apply Hx. by left.
Qed.

Lemma split_from_sep (sep : N) (cur x rest : str) :
  sep ∉ x →
  split_from sep cur (x ++ sep :: rest) = (cur ++ x) :: split_from sep [] rest.
Proof.
  revert cur. induction x as [|c x IH]; intros cur Hx.
  - cbn [app split_from]. rewrite bool_decide_eq_true_2 by done.
    by rewrite app_nil_r.
  - cbn [app split_from]. rewrite bool_decide_eq_false_2.
    + rewrite IH, <- app_assoc; [done|]. intros Hin. apply Hx. by right.
    + intros ->. apply Hx. by left.
Qed.

Lemma postgres_no_underscore : 95%N ∉ lit "postgres".
Proof.
  intros Hin. cbn in Hin.
  repeat (apply elem_of_cons in Hin as [Hin|Hin]; [discriminate Hin|]).
  by apply elem_of_nil in Hin.
Qed.

Lemma split_second (v rest : str) :
  95%N ∉ v → (rest = [] ∨ head rest = Some 95%N) →
  split 95 (lit "postgres_" ++ v ++ rest) !! 1 = Some v.
Proof.
  intros Hv Hrest. unfold split.
  change (lit "postgres_") with (lit "postgres" ++ [95%N]).
  rewrite <- app_assoc. cbn [app].
  change (lit "postgres" ++ 95%N :: v ++ rest)
    with (lit "postgres" ++ 95%N :: (v ++ rest)).
  rewrite split_from_sep by apply postgres_no_underscore.
  cbn [lookup list_lookup].
  destruct Hrest as [->|Hhead].
  - rewrite app_nil_r, split_from_no_sep by done. done.
  - destruct rest as [|c rest]; [done|]. injection Hhead as ->.
    rewrite split_from_sep by done. done.
Qed.

(** Every string splits at the first separator, if it has one. *)
Lemma first_field (sep : N) (s : str) :
  ∃ v rest, s = v ++ rest ∧ (sep ∉ v) ∧ (rest = [] ∨ head rest = Some sep).
Proof.
  induction s as [|c s (v & rest & -> & Hv & Hrest)].
  - exists [], []. split; [done|]. split; [by intros ?%elem_of_nil|by left].
  - destruct (decide (c = sep)) as [->|Hne].
    + exists [], (sep :: v ++ rest). split; [done|].
      split; [by intros ?%elem_of_nil|by right].
    + exists (c :: v), rest. split; [done|]. split; [|done].
      intros [?|?]%elem_of_cons; [congruence|done].
Qed.

Lemma startswith_prefix (s p : str) :
  startswith s p = true → ∃ t, s = p ++ t.
Proof.
  intros Hs%bool_decide_eq_true. exists (drop (length p) s).
  rewrite <- Hs at 1. by rewrite take_drop.
Qed.

(** X14. The number of a version directory is the part of its name
    between the first underscore and the second one, or the end of the
    name: what follows a second underscore takes no part in the order
    of the versions. *)
Theorem version_field_between_underscores (v rest : str) :
  95%N ∉ v → (rest = [] ∨ head rest = Some 95%N) →
  App.version_field (lit "postgres_" ++ v ++ rest) = v.
Proof.
  intros Hv Hrest. unfold App.version_field.
  by rewrite list_lookup_total_alt, split_second.
Qed.

Lemma version_field_between_underscores_witness :
  (95%N ∉ lit "9.6") ∧
  (lit "_rc" = [] ∨ head (lit "_rc") = Some 95%N) ∧
  App.version_field (lit "postgres_" ++ lit "9.6" ++ lit "_rc") = lit "9.6".
Proof.
  assert (H1 : 95%N ∉ lit "9.6").
  { intros Hin. cbn in Hin.
    repeat (apply elem_of_cons in Hin as [Hin|Hin]; [discriminate Hin|]).
    by apply elem_of_nil in Hin. }
  assert (H2 : lit "_rc" = [] ∨ head (lit "_rc") = Some 95%N) by (by right).
  split; [exact H1|]. split; [exact H2|].
  exact (version_field_between_underscores (lit "9.6") (lit "_rc") H1 H2).
Defined.

(** X15. Every name that begins with [postgres_] has a second field
    when it is split at the underscores: for the names that the filter
    of the listing lets through, taking the number never fails. *)
Theorem version_field_never_fails (x : str) :
  startswith x (lit "postgres_") = true →
  ∃ v, split 95 x !! 1 = Some v ∧ App.version_field x = v.
Proof.
  intros (t & ->)%startswith_prefix.
  destruct (first_field 95 t) as (v & rest & -> & Hv & Hrest).
  exists v. unfold App.version_field.
  by rewrite list_lookup_total_alt, split_second.
Qed.

Lemma version_field_never_fails_witness :
  startswith (lit "postgres_") (lit "postgres_") = true ∧
  ∃ v, split 95 (lit "postgres_") !! 1 = Some v ∧
       App.version_field (lit "postgres_") = v.
Proof.
  assert (H1 : startswith (lit "postgres_") (lit "postgres_") = true)
    by (vm_compute; reflexivity).
  split; [exact H1|].
  exact (version_field_never_fails (lit "postgres_") H1).
Defined.

(** *** The sort *)

Lemma StronglySorted_lookup {T} (R : relation T) (l : list T) (i j : nat)
    (x y : T) :
  StronglySorted R l → i < j → l !! i = Some x → l !! j = Some y → R x y.
Proof.
  intros Hs. revert i j. induction Hs as [|z l Hs IH Hz]; intros i j Hij Hi Hj.
  - done.
  - destruct j as [|j]; [lia|]. destruct i as [|i].
    + injection Hi as ->. cbn in Hj.
      eapply Forall_forall in Hz; [done|]. by eapply list_elem_of_lookup_2.
    + cbn in Hi, Hj. apply (IH i j); [lia|done|done].
Qed.

Section Sorting.
Context {K T : Type} (lt : K → K → bool).
Implicit Types (x : K * T) (l : list (K * T)).

Lemma insort_Permutation x l : insort lt x l ≡ₚ x :: l.
Proof.
  induction l as [|y l IH]; [done|]. cbn [insort].
  destruct (lt x.1 y.1); [done|]. rewrite IH. apply Permutation_swap.
Qed.

Lemma insort_fold_Permutation l acc :
  foldl (λ acc x, insort lt x acc) acc l ≡ₚ acc ++ l.
Proof.
  revert acc. induction l as [|x l IH]; intros acc.
  - by rewrite app_nil_r.
  - cbn [foldl]. rewrite IH, insort_Permutation. cbn [app].
    apply Permutation_middle.
Qed.

Lemma sorted_by_key_Permutation l : sorted_by_key lt l ≡ₚ l.*2.
Proof.
  unfold sorted_by_key. by rewrite (insort_fold_Permutation l []).
Qed.

Context (ok : K → Prop).
Hypothesis lt_asym : ∀ a b, ok a → ok b → lt a b = true → lt b a = false.
Hypothesis le_trans :
  ∀ a b c, ok a → ok b → ok c →
    lt b a = false → lt c b = false → lt c a = false.

Lemma insort_sorted x l :
  ok x.1 → Forall (λ p, ok p.1) l →
  StronglySorted (key_le lt) l → StronglySorted (key_le lt) (insort lt x l).
Proof.
  intros Hx Hl Hs. induction Hs as [|y l Hs IH Hy]; cbn [insort].
  - repeat constructor.
  - apply Forall_cons in Hl as [Hoky Hl].
    destruct (lt x.1 y.1) eqn:Hxy.
    + constructor; [by constructor|]. constructor.
      * by apply lt_asym.
      * apply Forall_forall. intros z Hz. unfold key_le.
        apply (le_trans x.1 y.1 z.1); try done.
        -- by eapply Forall_forall in Hl.
        -- by apply lt_asym.
        -- by eapply Forall_forall in Hy.
    + constructor; [by apply IH|].
      rewrite insort_Permutation. by constructor.
Qed.

Lemma insort_fold_sorted l acc :
  Forall (λ p, ok p.1) l → Forall (λ p, ok p.1) acc →
  StronglySorted (key_le lt) acc →
  StronglySorted (key_le lt) (foldl (λ acc x, insort lt x acc) acc l).
Proof.
  revert acc. induction l as [|x l IH]; intros acc Hl Hacc Hs; [done|].
  apply Forall_cons in Hl as [Hx Hl]. cbn [foldl]. apply IH; [done| |].
  - rewrite insort_Permutation. by constructor.
  - by apply insort_sorted.
Qed.

End Sorting.

(** *** The keys *)

Section VersionsFacts.
Context {F : Type} (float : str → option F) (float_lt : F → F → bool).

Lemma sort_keys_ok (directories : list str) :
  Forall (λ x, is_Some (float (App.version_field x))) directories →
  ∃ keyed, App.sort_keys float directories = Listed keyed ∧
    keyed.*2 = directories ∧
    Forall (λ p, float (App.version_field p.2) = Some p.1) keyed.
Proof.
  induction 1 as [|x l [k Hk] _ (keyed & IH & Hsnd & Hkeys)].
  - by exists [].
  - exists ((k, x) :: keyed). cbn [App.sort_keys]. rewrite Hk, IH.
    split; [done|]. split; [by rewrite fmap_cons, Hsnd|by constructor].
Qed.

Lemma sort_keys_inv (directories : list str) (keyed : list (F * str)) :
  App.sort_keys float directories = Listed keyed →
  keyed.*2 = directories ∧
  Forall (λ p, float (App.version_field p.2) = Some p.1) keyed.
Proof.
  revert keyed. induction directories as [|x l IH]; intros keyed.
  - intros [= <-]. by split.
  - cbn [App.sort_keys]. destruct (float (App.version_field x)) as [k|] eqn:Hk;
      [|done].
    destruct (App.sort_keys float l) as [keyed'|e]; [|done].
    intros [= <-]. destruct (IH keyed' eq_refl) as [Hsnd Hkeys].
    split; [by rewrite fmap_cons, Hsnd|by constructor].
Qed.

Lemma sort_keys_fails (before after : list str) (x : str) :
  Forall (λ x, is_Some (float (App.version_field x))) before →
  float (App.version_field x) = None →
  App.sort_keys float (before ++ x :: after) =
  Fails (ValueError (App.version_field x)).
Proof.
  intros Hbefore Hx. induction Hbefore as [|y l [k Hk] _ IH].
  - cbn [app App.sort_keys]. by rewrite Hx.
  - cbn [app App.sort_keys]. rewrite Hk. cbn [app] in IH. by rewrite IH.
Qed.

End VersionsFacts.

(** The order of the rationals, which the examples take for [<]. *)
Lemma Qlt_bool_asym (a b : Q) : Qlt_bool a b = true → Qlt_bool b a = false.
Proof.
  unfold Qlt_bool. intros Hab%negb_true_iff. apply negb_false_iff.
  apply Qle_bool_iff. apply Qlt_le_weak. apply Qnot_le_lt.
  intros Hle%Qle_bool_iff. congruence.
Qed.

Lemma Qlt_bool_le_trans (a b c : Q) :
  Qlt_bool b a = false → Qlt_bool c b = false → Qlt_bool c a = false.
Proof.
  unfold Qlt_bool. intros Hab%negb_false_iff%Qle_bool_iff
    Hbc%negb_false_iff%Qle_bool_iff.
  apply negb_false_iff, Qle_bool_iff. by eapply Qle_trans.
Qed.

(** X16. When the directory can be scanned and the number of every
    directory in it whose name begins with [postgres_] can be read, the
    listing returns the names of exactly these directories, each as
    often as the scan holds it: no file, no directory of another name,
    and none left out. The view shows this list on the page
    [index.html]. *)
Theorem get_postgresql_versions_lists_directories {F : Type}
    (float : str → option F) (float_lt : F → F → bool)
    (scandir : str → option (list DirEntry)) (entries : list DirEntry) :
  scandir (lit "help_files") = Some entries →
  (∀ d, d ∈ entries → is_dir d = true →
        startswith (name d) (lit "postgres_") = true →
        is_Some (float (App.version_field (name d)))) →
  ∃ versions,
    App.get_postgresql_versions float float_lt scandir = Listed versions ∧
    App.index float float_lt scandir =
      Listed (IndexTemplate (lit "index.html") versions) ∧
    versions ≡ₚ
      name <$> filter (λ d, is_dir d && startswith (name d) (lit "postgres_"))
                      entries ∧
    (∀ v, v ∈ versions ↔
          ∃ d, d ∈ entries ∧ name d = v ∧ is_dir d = true ∧
               startswith v (lit "postgres_") = true).
Proof.
  intros Hscan Hfloat.
  set (directories :=
         name <$> filter (λ d, is_dir d && startswith (name d) (lit "postgres_"))
                         entries).
  destruct (sort_keys_ok float directories) as (keyed & Hk & Hsnd & _).
  { apply Forall_forall. intros x (d & -> & [Hd Hin]%list_elem_of_filter)
      %list_elem_of_fmap.
    apply andb_prop_elim in Hd as [Hdir Hpre].
    apply Hfloat; [done|by apply Is_true_true|by apply Is_true_true]. }
  assert (Hget : App.get_postgresql_versions float float_lt scandir
                 = Listed (sorted_by_key float_lt keyed)).
  { unfold App.get_postgresql_versions. cbv zeta. rewrite Hscan.
    fold directories. by rewrite Hk. }
  assert (Hperm : sorted_by_key float_lt keyed ≡ₚ directories).
  { by rewrite sorted_by_key_Permutation, Hsnd. }
  exists (sorted_by_key float_lt keyed). split; [done|].
  split; [unfold App.index; by rewrite Hget|]. split; [done|].
  intros v. rewrite Hperm. unfold directories. rewrite list_elem_of_fmap.
  split.
  - intros (d & -> & [Hd Hin]%list_elem_of_filter).
    apply andb_prop_elim in Hd as [Hdir Hpre].
    exists d. split; [done|]. split; [done|].
    split; by apply Is_true_true.
  - intros (d & Hin & <- & Hdir & Hpre). exists d. split; [done|].
    apply list_elem_of_filter. split; [|done]. rewrite Hdir, Hpre. done.
Qed.

Lemma get_postgresql_versions_lists_directories_witness :
  scan_sample (lit "help_files") =
    Some (default [] (scan_sample (lit "help_files"))) ∧
  (∀ d, d ∈ default [] (scan_sample (lit "help_files")) → is_dir d = true →
        startswith (name d) (lit "postgres_") = true →
        is_Some (decimal (App.version_field (name d)))) ∧
  ∃ versions,
    App.get_postgresql_versions decimal Qlt_bool scan_sample = Listed versions ∧
    App.index decimal Qlt_bool scan_sample =
      Listed (IndexTemplate (lit "index.html") versions) ∧
    versions ≡ₚ
      name <$> filter (λ d, is_dir d && startswith (name d) (lit "postgres_"))
                      (default [] (scan_sample (lit "help_files"))) ∧
    (∀ v, v ∈ versions ↔
          ∃ d, d ∈ default [] (scan_sample (lit "help_files")) ∧ name d = v ∧
               is_dir d = true ∧ startswith v (lit "postgres_") = true).
Proof.
  assert (H1 : scan_sample (lit "help_files") =
               Some (default [] (scan_sample (lit "help_files"))))
    by (vm_compute; reflexivity).
  assert (H2 : ∀ d, d ∈ default [] (scan_sample (lit "help_files")) →
            is_dir d = true → startswith (name d) (lit "postgres_") = true →
            is_Some (decimal (App.version_field (name d)))).
  { intros d Hd Hdir Hpre. vm_compute in Hd.
    repeat (apply elem_of_cons in Hd as [->|Hd];
            [first [discriminate Hdir | discriminate Hpre
                   | vm_compute; by eexists]|]).
    by apply elem_of_nil in Hd. }
  split; [exact H1|]. split; [exact H2|].
  exact (get_postgresql_versions_lists_directories decimal Qlt_bool scan_sample
           _ H1 H2).
Defined.

(** X17. The list that the listing returns is in the order of the
    numbers: of two names in it, the later one does not have the
    smaller number, provided that [<] orders the numbers of the
    names (as it does unless one of them is [nan]). *)
Theorem get_postgresql_versions_sorted {F : Type}
    (float : str → option F) (float_lt : F → F → bool)
    (scandir : str → option (list DirEntry)) (versions : list str) :
  App.get_postgresql_versions float float_lt scandir = Listed versions →
  (∀ x y a b, x ∈ versions → y ∈ versions →
     float (App.version_field x) = Some a →
     float (App.version_field y) = Some b →
     float_lt a b = true → float_lt b a = false) →
  (∀ x y z a b c, x ∈ versions → y ∈ versions → z ∈ versions →
     float (App.version_field x) = Some a →
     float (App.version_field y) = Some b →
     float (App.version_field z) = Some c →
     float_lt b a = false → float_lt c b = false → float_lt c a = false) →
  ∀ i j x y a b,
    i < j → versions !! i = Some x → versions !! j = Some y →
    float (App.version_field x) = Some a →
    float (App.version_field y) = Some b →
    float_lt b a = false.
Proof.
  intros Hget Hasym Htrans.
  unfold App.get_postgresql_versions in Hget. cbv zeta in Hget.
  destruct (scandir (lit "help_files")) as [entries|]; [|done].
  set (directories := name <$> filter _ entries) in Hget.
  destruct (App.sort_keys float directories) as [keyed|e] eqn:Hk; [|done].
  injection Hget as <-.
  apply sort_keys_inv in Hk as [Hsnd Hkeys].
  set (sorted := foldl (λ acc x, insort float_lt x acc) [] keyed).
  assert (Hperm : sorted ≡ₚ keyed) by apply (insort_fold_Permutation _ _ []).
  set (ok := λ k : F, ∃ x, x ∈ sorted_by_key float_lt keyed ∧
                           float (App.version_field x) = Some k).
  assert (Hok : Forall (λ p : F * str, ok p.1) keyed).
  { apply Forall_forall. intros [k x] Hin. exists x. split.
    - rewrite sorted_by_key_Permutation. apply list_elem_of_fmap.
      by exists (k, x).
    - eapply Forall_forall in Hkeys; [|exact Hin]. exact Hkeys. }
  assert (Hsorted : StronglySorted (key_le float_lt) sorted).
  { apply (insort_fold_sorted float_lt ok); [| |done|constructor|constructor].
    - intros a b (x & Hx & Ha) (y & Hy & Hb). by apply (Hasym x y).
    - intros a b c (x & Hx & Ha) (y & Hy & Hb) (z & Hz & Hc).
      by apply (Htrans x y z). }
  intros i j x y a b Hij Hi Hj Ha Hb.
  change (sorted_by_key float_lt keyed) with (sorted.*2) in Hi, Hj.
  rewrite list_lookup_fmap in Hi, Hj.
  destruct (sorted !! i) as [[a' x']|] eqn:Ei; [|done].
  destruct (sorted !! j) as [[b' y']|] eqn:Ej; [|done].
  injection Hi as ->. injection Hj as ->.
  assert (Hkeys' : Forall (λ p, float (App.version_field p.2) = Some p.1) sorted)
    by (by rewrite Hperm).
  assert (a' = a) as ->.
  { pose proof (proj1 (Forall_forall _ _) Hkeys' _
                  (list_elem_of_lookup_2 _ _ _ Ei)) as Hx.
    cbn [fst snd] in Hx. congruence. }
  assert (b' = b) as ->.
  { pose proof (proj1 (Forall_forall _ _) Hkeys' _
                  (list_elem_of_lookup_2 _ _ _ Ej)) as Hy.
    cbn [fst snd] in Hy. congruence. }
  apply (StronglySorted_lookup _ sorted i j (a, x) (b, y) Hsorted Hij Ei Ej).
Qed.

Lemma get_postgresql_versions_sorted_witness :
  App.get_postgresql_versions decimal Qlt_bool scan_sample =
    Listed [lit "postgres_9.6_rc"; lit "postgres_9.6"; lit "postgres_10"] ∧
  ∀ i j x y a b,
    i < j →
    [lit "postgres_9.6_rc"; lit "postgres_9.6"; lit "postgres_10"] !! i = Some x →
    [lit "postgres_9.6_rc"; lit "postgres_9.6"; lit "postgres_10"] !! j = Some y →
    decimal (App.version_field x) = Some a →
    decimal (App.version_field y) = Some b →
    Qlt_bool b a = false.
Proof.
  assert (H1 : App.get_postgresql_versions decimal Qlt_bool scan_sample =
    Listed [lit "postgres_9.6_rc"; lit "postgres_9.6"; lit "postgres_10"])
    by (vm_compute; reflexivity).
  split; [exact H1|].
  exact (get_postgresql_versions_sorted decimal Qlt_bool scan_sample _ H1
           (λ _ _ a b _ _ _ _, Qlt_bool_asym a b)
           (λ _ _ _ a b c _ _ _ _ _ _, Qlt_bool_le_trans a b c)).
Defined.

(** X18. When the directory can be scanned and the number of one of
    the directories whose name begins with [postgres_] cannot be read,
    the numbers of those scanned before it being readable, the listing
    raises the error of [float] for that number, and so does the view:
    no list without that directory is returned. *)
Theorem get_postgresql_versions_bad_number {F : Type}
    (float : str → option F) (float_lt : F → F → bool)
    (scandir : str → option (list DirEntry))
    (entries : list DirEntry) (before after : list str) (bad : str) :
  scandir (lit "help_files") = Some entries →
  name <$> filter (λ d, is_dir d && startswith (name d) (lit "postgres_"))
                  entries = before ++ bad :: after →
  Forall (λ x, is_Some (float (App.version_field x))) before →
  float (App.version_field bad) = None →
  App.get_postgresql_versions float float_lt scandir =
    Fails (ValueError (App.version_field bad)) ∧
  App.index float float_lt scandir =
    Fails (ValueError (App.version_field bad)).
Proof.
  intros Hscan Hdirs Hbefore Hbad.
  assert (Hget : App.get_postgresql_versions float float_lt scandir =
                 Fails (ValueError (App.version_field bad))).
  { unfold App.get_postgresql_versions. cbv zeta. rewrite Hscan, Hdirs.
    by rewrite sort_keys_fails. }
  split; [done|]. unfold App.index. by rewrite Hget.
Qed.

Lemma get_postgresql_versions_bad_number_witness :
  scan_unnumbered (lit "help_files") =
    Some [ {| name := lit "postgres_10"; is_dir := true |};
           {| name := lit "postgres_"; is_dir := true |};
           {| name := lit "postgres_old"; is_dir := true |} ] ∧
  name <$> filter (λ d, is_dir d && startswith (name d) (lit "postgres_"))
                  [ {| name := lit "postgres_10"; is_dir := true |};
                    {| name := lit "postgres_"; is_dir := true |};
                    {| name := lit "postgres_old"; is_dir := true |} ]
    = [lit "postgres_10"] ++ lit "postgres_" :: [lit "postgres_old"] ∧
  Forall (λ x, is_Some (decimal (App.version_field x))) [lit "postgres_10"] ∧
  decimal (App.version_field (lit "postgres_")) = None ∧
  App.get_postgresql_versions decimal Qlt_bool scan_unnumbered =
    Fails (ValueError (App.version_field (lit "postgres_"))) ∧
  App.index decimal Qlt_bool scan_unnumbered =
    Fails (ValueError (App.version_field (lit "postgres_"))).
Proof.
  assert (H1 : scan_unnumbered (lit "help_files") =
    Some [ {| name := lit "postgres_10"; is_dir := true |};
           {| name := lit "postgres_"; is_dir := true |};
           {| name := lit "postgres_old"; is_dir := true |} ])
    by (vm_compute; reflexivity).
  assert (H2 : name <$> filter (λ d, is_dir d && startswith (name d) (lit "postgres_"))
                  [ {| name := lit "postgres_10"; is_dir := true |};
                    {| name := lit "postgres_"; is_dir := true |};
                    {| name := lit "postgres_old"; is_dir := true |} ]
    = [lit "postgres_10"] ++ lit "postgres_" :: [lit "postgres_old"])
    by (vm_compute; reflexivity).
  assert (H3 : Forall (λ x, is_Some (decimal (App.version_field x)))
                 [lit "postgres_10"])
    by (repeat constructor; vm_compute; by eexists).
  assert (H4 : decimal (App.version_field (lit "postgres_")) = None)
    by (vm_compute; reflexivity).
  split; [exact H1|]. split; [exact H2|]. split; [exact H3|]. split; [exact H4|].
  exact (get_postgresql_versions_bad_number decimal Qlt_bool scan_unnumbered
           _ _ _ _ H1 H2 H3 H4).
Defined.

(** *** The sort keeps the order of the scan among equal numbers *)

Section Stable.
Context {K T : Type} (lt : K → K → bool).
Implicit Types (x p q : K * T) (l : list (K * T)).

(** Where [insort] puts an element. *)
Lemma insort_split x l :
  ∃ l1 l2, l = l1 ++ l2 ∧ insort lt x l = l1 ++ x :: l2 ∧
    match l2 with
    | [] => True
    | z :: _ => lt x.1 z.1 = true
    end.
Proof.
  induction l as [|y l (l1 & l2 & -> & Hins & Hl2)].
  - by exists [], [].
  - cbn [insort]. destruct (lt x.1 y.1) eqn:Hxy.
    + by exists [], (y :: l1 ++ l2).
    + exists (y :: l1), l2. rewrite Hins. done.
Qed.

Lemma insort_sublist x l : l `sublist_of` insort lt x l.
Proof.
  destruct (insort_split x l) as (l1 & l2 & -> & -> & _).
  apply sublist_app; [done|]. by apply sublist_cons.
Qed.

Lemma insort_fold_sublist (s l acc : list (K * T)) :
  s `sublist_of` acc → s `sublist_of` foldl (λ acc x, insort lt x acc) acc l.
Proof.
  revert acc. induction l as [|x l IH]; intros acc Hs; [done|].
  cbn [foldl]. apply IH. etrans; [done|]. apply insort_sublist.
Qed.

Context (ok : K → Prop).
Hypothesis lt_asym : ∀ a b, ok a → ok b → lt a b = true → lt b a = false.
Hypothesis le_trans :
  ∀ a b c, ok a → ok b → ok c →
    lt b a = false → lt c b = false → lt c a = false.

(** An element goes behind every element that is not greater. *)
Lemma insort_behind x p l :
  ok x.1 → Forall (λ p, ok p.1) l → StronglySorted (key_le lt) l →
  p ∈ l → lt x.1 p.1 = false →
  [p; x] `sublist_of` insort lt x l.
Proof.
  intros Hx Hl Hs Hp Hxp.
  destruct (insort_split x l) as (l1 & l2 & -> & -> & Hl2).
  assert (Hin : p ∈ l1).
  { apply elem_of_app in Hp as [Hp|Hp]; [done|]. exfalso.
    destruct l2 as [|z l2]; [by apply elem_of_nil in Hp|].
    apply Forall_app in Hl as [_ [Hz Hl2']%Forall_cons].
    apply StronglySorted_app_1_r in Hs. apply StronglySorted_inv in Hs as [_ Hzs].
    apply elem_of_cons in Hp as [->|Hp]; [congruence|].
    assert (Hzp : lt p.1 z.1 = false) by (by eapply Forall_forall in Hzs).
    assert (lt x.1 z.1 = false); [|congruence].
    apply (le_trans z.1 p.1 x.1); try done.
    by eapply Forall_forall in Hl2'. }
  apply list_elem_of_split in Hin as (a & b & ->).
  rewrite <- app_assoc. apply sublist_inserts_l. cbn [app].
  apply sublist_skip. apply sublist_inserts_l. apply sublist_skip.
  apply sublist_nil_l.
Qed.

Lemma insort_fold_stable (before between after : list (K * T)) p q :
  Forall (λ p, ok p.1) (before ++ p :: between ++ q :: after) →
  lt q.1 p.1 = false →
  [p; q] `sublist_of`
    foldl (λ acc x, insort lt x acc) [] (before ++ p :: between ++ q :: after).
Proof.
  intros Hok Hqp.
  replace (before ++ p :: between ++ q :: after)
    with ((before ++ p :: between) ++ q :: after) in *
    by (by rewrite <- app_assoc).
  apply Forall_app in Hok as [Hok1 [Hq Hok2]%Forall_cons].
  rewrite foldl_app. cbn [foldl]. apply insort_fold_sublist.
  apply insort_behind; [done| | | |done].
  - by rewrite (insort_fold_Permutation lt _ []).
  - apply (insort_fold_sorted lt ok); [done|done|done|constructor|constructor].
  - rewrite (insort_fold_Permutation lt _ []). cbn [app].
    apply elem_of_app. right. by left.
Qed.

End Stable.

Lemma sublist_fmap_2 {T U} (f : T → U) (l k : list T) :
  l `sublist_of` k → f <$> l `sublist_of` f <$> k.
Proof.
  induction 1 as [|x l k _ IH|x l k _ IH]; [done| |].
  - rewrite !fmap_cons. by apply sublist_skip.
  - rewrite fmap_cons. by apply sublist_cons.
Qed.

(** X19. Of two directories of the scan, the one that is scanned first
    stands first in the list that the listing returns unless its number
    is the greater one: directories with the same number keep the order
    of the scan. The condition on [<] is that of the order of the
    list. *)
Theorem get_postgresql_versions_stable {F : Type}
    (float : str → option F) (float_lt : F → F → bool)
    (scandir : str → option (list DirEntry)) (entries : list DirEntry)
    (versions before between after : list str) (x y : str) (a b : F) :
  scandir (lit "help_files") = Some entries →
  name <$> filter (λ d, is_dir d && startswith (name d) (lit "postgres_"))
                  entries = before ++ x :: between ++ y :: after →
  App.get_postgresql_versions float float_lt scandir = Listed versions →
  (∀ x y a b, x ∈ versions → y ∈ versions →
     float (App.version_field x) = Some a →
     float (App.version_field y) = Some b →
     float_lt a b = true → float_lt b a = false) →
  (∀ x y z a b c, x ∈ versions → y ∈ versions → z ∈ versions →
     float (App.version_field x) = Some a →
     float (App.version_field y) = Some b →
     float (App.version_field z) = Some c →
     float_lt b a = false → float_lt c b = false → float_lt c a = false) →
  float (App.version_field x) = Some a →
  float (App.version_field y) = Some b →
  float_lt b a = false →
  [x; y] `sublist_of` versions.
Proof.
  intros Hscan Hdirs Hget Hasym Htrans Ha Hb Hba.
  unfold App.get_postgresql_versions in Hget. cbv zeta in Hget.
  rewrite Hscan, Hdirs in Hget.
  destruct (App.sort_keys float _) as [keyed|e] eqn:Hk; [|done].
  injection Hget as <-.
  apply sort_keys_inv in Hk as [Hsnd Hkeys].
  apply fmap_app_inv in Hsnd as (K1 & K' & HK1 & HK' & ->).
  symmetry in HK'. apply fmap_cons_inv in HK' as ([a' x'] & K'' & Hx & HK'' & ->).
  cbn [snd] in Hx. subst x'.
  symmetry in HK''. apply fmap_app_inv in HK'' as (K2 & K''' & HK2 & HK''' & ->).
  symmetry in HK'''.
  apply fmap_cons_inv in HK''' as ([b' y'] & K3 & Hy & HK3 & ->).
  cbn [snd] in Hy. subst y'.
  set (keyed := K1 ++ (a', x) :: K2 ++ (b', y) :: K3) in *.
  assert (a' = a) as ->.
  { assert (Hin : (a', x) ∈ keyed) by (apply elem_of_app; right; by left).
    eapply Forall_forall in Hkeys; [|exact Hin]. cbn [fst snd] in Hkeys.
    congruence. }
  assert (b' = b) as ->.
  { assert (Hin : (b', y) ∈ keyed).
    { apply elem_of_app; right; right. apply elem_of_app; right; by left. }
    eapply Forall_forall in Hkeys; [|exact Hin]. cbn [fst snd] in Hkeys.
    congruence. }
  set (ok := λ k : F, ∃ x, x ∈ sorted_by_key float_lt keyed ∧
                           float (App.version_field x) = Some k).
  assert (Hok : Forall (λ p : F * str, ok p.1) keyed).
  { apply Forall_forall. intros [k z] Hin. exists z. split.
    - rewrite sorted_by_key_Permutation. apply list_elem_of_fmap.
      by exists (k, z).
    - eapply Forall_forall in Hkeys; [|exact Hin]. exact Hkeys. }
  change [x; y] with ((snd <$> [(a, x); (b, y)]) : list str).
  unfold sorted_by_key. apply sublist_fmap_2.
  apply (insort_fold_stable float_lt ok); [| |done|done].
  - intros k1 k2 (x1 & Hx1 & Hk1) (x2 & Hx2 & Hk2). by apply (Hasym x1 x2).
  - intros k1 k2 k3 (x1 & Hx1 & Hk1) (x2 & Hx2 & Hk2) (x3 & Hx3 & Hk3).
    by apply (Htrans x1 x2 x3).
Qed.

Lemma get_postgresql_versions_stable_witness :
  scan_sample (lit "help_files") =
    Some (default [] (scan_sample (lit "help_files"))) ∧
  name <$> filter (λ d, is_dir d && startswith (name d) (lit "postgres_"))
                  (default [] (scan_sample (lit "help_files")))
    = [lit "postgres_10"] ++ lit "postgres_9.6_rc" :: [] ++ lit "postgres_9.6" :: [] ∧
  App.get_postgresql_versions decimal Qlt_bool scan_sample =
    Listed [lit "postgres_9.6_rc"; lit "postgres_9.6"; lit "postgres_10"] ∧
  decimal (App.version_field (lit "postgres_9.6_rc")) = Some (96 # 10)%Q ∧
  decimal (App.version_field (lit "postgres_9.6")) = Some (96 # 10)%Q ∧
  Qlt_bool (96 # 10) (96 # 10) = false ∧
  [lit "postgres_9.6_rc"; lit "postgres_9.6"] `sublist_of`
    [lit "postgres_9.6_rc"; lit "postgres_9.6"; lit "postgres_10"].
Proof.
  assert (H1 : scan_sample (lit "help_files") =
               Some (default [] (scan_sample (lit "help_files"))))
    by (vm_compute; reflexivity).
  assert (H2 : name <$> filter (λ d, is_dir d && startswith (name d) (lit "postgres_"))
                  (default [] (scan_sample (lit "help_files")))
    = [lit "postgres_10"] ++ lit "postgres_9.6_rc" :: [] ++ lit "postgres_9.6" :: [])
    by (vm_compute; reflexivity).
  assert (H3 : App.get_postgresql_versions decimal Qlt_bool scan_sample =
    Listed [lit "postgres_9.6_rc"; lit "postgres_9.6"; lit "postgres_10"])
    by (vm_compute; reflexivity).
  assert (H4 : decimal (App.version_field (lit "postgres_9.6_rc")) = Some (96 # 10)%Q)
    by (vm_compute; reflexivity).
  assert (H5 : decimal (App.version_field (lit "postgres_9.6")) = Some (96 # 10)%Q)
    by (vm_compute; reflexivity).
  assert (H6 : Qlt_bool (96 # 10) (96 # 10) = false) by (vm_compute; reflexivity).
  split; [exact H1|]. split; [exact H2|]. split; [exact H3|].
  split; [exact H4|]. split; [exact H5|]. split; [exact H6|].
  exact (get_postgresql_versions_stable decimal Qlt_bool scan_sample _ _ _ _ _ _ _ _ _
           H1 H2 H3
           (λ _ _ a b _ _ _ _, Qlt_bool_asym a b)
           (λ _ _ _ a b c _ _ _ _ _ _, Qlt_bool_le_trans a b c)
           H4 H5 H6).
Defined.

(** ** Further properties of [compare_versions] and [highlight_diff] *)



(** X21. Given the texts of fewer than two versions, [highlight_diff]
    returns the empty dictionary: a single version is not rendered,
    not even as unchanged. *)
Theorem highlight_diff_needs_two (cmd_versions : odict str) :
  length cmd_versions < 2 → App.highlight_diff cmd_versions = ∅.
Proof.
  intros Hlen. destruct cmd_versions as [|[v t] [|[v' t'] rest]].
  - reflexivity.
  - reflexivity.
  - cbn [length] in Hlen. lia.
Qed.

Lemma highlight_diff_needs_two_witness :
  length [(lit "A", lit "x")] < 2 ∧
  App.highlight_diff [(lit "A", lit "x")] = ∅.
Proof.
  assert (H1 : length [(lit "A", lit "x")] < 2) by (simpl; lia).
  split; [exact H1|].
  exact (highlight_diff_needs_two [(lit "A", lit "x")] H1).
Defined.

Lemma sublist_same_length {T} (l k : list T) :
  l `sublist_of` k → length k ≤ length l → l = k.
Proof.
  induction 1 as [|x l k _ IH|x l k Hs IH]; intros Hlen; [done| |].
  - cbn [length] in Hlen. f_equal. apply IH. lia.
  - apply sublist_length in Hs. cbn [length] in Hlen. lia.
Qed.

(** X22. When the lines of two texts differ, the rendering of the pair
    shows it: a line of the left block is not tagged unchanged, or a
    line of the right block is not. Blocks in which every line is
    tagged unchanged are those of texts with the same lines. *)
Theorem differing_lines_are_highlighted (lines1 lines2 : list str) :
  lines1 ≠ lines2 →
  Exists (λ row, is_unchanged row = false)
         (App.annotate (compare lines1 lines2)).1 ∨
  Exists (λ row, is_unchanged row = false)
         (App.annotate (compare lines1 lines2)).2.
Proof.
  intros Hne.
  destruct (compare_sides lines1 lines2) as [El Er].
  pose proof (unchanged_left (compare lines1 lines2)) as Hl.
  pose proof (unchanged_right (compare lines1 lines2)) as Hr.
  pose proof (commons_sublist_lefts (compare lines1 lines2)) as Sl.
  pose proof (commons_sublist_rights (compare lines1 lines2)) as Sr.
  destruct (left_cls_facts (compare lines1 lines2)) as [Ll _].
  destruct (right_cls_facts (compare lines1 lines2)) as [Lr _].
  rewrite annotate_spans. cbn [fst snd].
  set (h1 := zip_with span _ (lefts _)) in *.
  set (h2 := zip_with span _ (rights _)) in *.
  destruct (decide (Forall (λ row, is_unchanged row) h1)) as [A1|N1].
  2:{ left. apply not_Forall_Exists in N1; [|apply _].
      eapply Exists_impl; [exact N1|]. intros row Hrow. cbn in Hrow.
      by destruct (is_unchanged row). }
  destruct (decide (Forall (λ row, is_unchanged row) h2)) as [A2|N2].
  2:{ right. apply not_Forall_Exists in N2; [|apply _].
      eapply Exists_impl; [exact N2|]. intros row Hrow. cbn in Hrow.
      by destruct (is_unchanged row). }
  exfalso. apply Hne.
  pose proof (filter_all_Forall _ _ A1) as F1.
  pose proof (filter_all_Forall _ _ A2) as F2.
  assert (E1 : commons (compare lines1 lines2) = lefts (compare lines1 lines2)).
  { apply sublist_same_length; [done|].
    rewrite <- (length_fmap (span Unchanged) (commons _)), <- Hl, F1.
    unfold h1. rewrite length_zip_with. lia. }
  assert (E2 : commons (compare lines1 lines2) = rights (compare lines1 lines2)).
  { apply sublist_same_length; [done|].
    rewrite <- (length_fmap (span Unchanged) (commons _)), <- Hr, F2.
    unfold h2. rewrite length_zip_with. lia. }
  congruence.
Qed.

Lemma differing_lines_are_highlighted_witness :
  [lit "line1"; lit "line2"] ≠ [lit "line1"; lit "line2x"] ∧
  (Exists (λ row, is_unchanged row = false)
          (App.annotate (compare [lit "line1"; lit "line2"]
                                 [lit "line1"; lit "line2x"])).1 ∨
   Exists (λ row, is_unchanged row = false)
          (App.annotate (compare [lit "line1"; lit "line2"]
                                 [lit "line1"; lit "line2x"])).2).
Proof.
  assert (H1 : [lit "line1"; lit "line2"] ≠ [lit "line1"; lit "line2x"]) by done.
  split; [exact H1|].
  exact (differing_lines_are_highlighted _ _ H1).
Defined.
